(** * TiltSync: sensor fusion, solar target and haptic guidance core

    A shallow embedding of the numerical core of the application:
    - [Compass]         src/hooks/useTiltCompensatedCompass.ts
    - [AlignmentStatus] src/utils/alignmentStatus.ts
    - [SolarCalculations] utils/solarCalculations.ts
    - [PVWatts]         services/pvwattsApi.ts
    - [PVWattsLive]     hooks/usePVWattsLive.ts (when the hook fetches)
    - [Haptic]          src/hooks/useHapticFeedback.ts

    JavaScript numbers are modelled as exact rationals ([Q]); equality of
    numbers is [Qeq] ([==]).  The transcendental functions of [Math] are
    taken as parameters where the code calls them.  Hooks are modelled by
    explicit state passing over their refs, asynchronous service calls by a
    small state-and-rejection monad over the module-level caches. *)

From stdpp Require Import gmap strings list pretty.
From Stdlib Require Import QArith Qround Qabs Qminmax Lqa Lia Sorted.
From Equations Require Import Equations.
From Equations.Prop Require Import Logic.

Local Open Scope Q_scope.

(* ===================================================================== *)
(** * Part I: the program *)
(* ===================================================================== *)

(** ** JavaScript number primitives over [Q] *)
Module JS.

(** [x > y], [x < y], [x >= y], [x <= y] *)
Definition gtb (x y : Q) : bool := negb (Qle_bool x y).
Definition ltb (x y : Q) : bool := negb (Qle_bool y x).
Definition geb (x y : Q) : bool := Qle_bool y x.
Definition leb (x y : Q) : bool := Qle_bool x y.

(** Truncation toward zero. *)
Definition trunc (q : Q) : Z :=
  if Qle_bool 0 q then Qfloor q else Qceiling q.

(** [a % m]: the remainder takes the sign of the dividend. *)
Definition rem (a m : Q) : Q := a - m * inject_Z (trunc (a / m)).

(** [Math.round]: the nearest integer, a tie going up. *)
Definition round (q : Q) : Z := Qfloor (q + (1 # 2)).

(** The comparisons decide the order of [Q]. *)
Lemma leb_true x y : leb x y = true <-> x <= y.
Proof. apply Qle_bool_iff. Qed.

Lemma leb_false x y : leb x y = false <-> y < x.
Proof.
  unfold leb. rewrite <- not_true_iff_false, Qle_bool_iff.
  split; [apply Qnot_le_lt | apply Qlt_not_le].
Qed.

Lemma geb_true x y : geb x y = true <-> y <= x.
Proof. apply leb_true. Qed.

Lemma geb_false x y : geb x y = false <-> x < y.
Proof. apply leb_false. Qed.

Lemma gtb_true x y : gtb x y = true <-> y < x.
Proof. unfold gtb. rewrite negb_true_iff. apply leb_false. Qed.

Lemma gtb_false x y : gtb x y = false <-> x <= y.
Proof. unfold gtb. rewrite negb_false_iff. apply leb_true. Qed.

Lemma ltb_true x y : ltb x y = true <-> x < y.
Proof. apply gtb_true. Qed.

Lemma ltb_false x y : ltb x y = false <-> y <= x.
Proof. apply gtb_false. Qed.

End JS.

(** Case analysis on a JavaScript comparison, leaving the order fact. *)
Ltac js_cmp c :=
  let E := fresh "Hcmp" in
  destruct c eqn:E;
  first [ rewrite JS.leb_true in E | rewrite JS.leb_false in E
        | rewrite JS.geb_true in E | rewrite JS.geb_false in E
        | rewrite JS.gtb_true in E | rewrite JS.gtb_false in E
        | rewrite JS.ltb_true in E | rewrite JS.ltb_false in E ].

(** ** src/hooks/useTiltCompensatedCompass.ts *)
Module Compass.

Definition TILT_SMOOTHING : Q := 0.3.

(** Platform.OS === 'android' ? 0.15 : 0.25 *)
Definition SMOOTHING_FACTOR (android : bool) : Q :=
  if android then 0.15 else 0.25.

Definition normalizeAngle (angle : Q) : Q :=
  JS.rem (JS.rem angle 360 + 360) 360.

Definition shortestDelta (from to : Q) : Q :=
  let delta := to - from in
  let delta := if JS.gtb delta 180 then delta - 360 else delta in
  let delta := if JS.ltb delta (-180) then delta + 360 else delta in
  delta.

(** Sensor measurements [{x, y, z}]. *)
Record Measurement := { mx : Q; my : Q; mz : Q }.

Record CompassState := {
  heading : Q;
  rawHeading : Q;
  tilt : Q;
  roll : Q;
  isAvailable : bool;
  error : option string
}.

(** The hook's refs. *)
Record Refs := {
  accelRef : option Measurement;
  magRef : option Measurement;
  continuousAngleRef : Q;
  smoothedTiltRef : Q;
  smoothedRollRef : Q;
  initializedRef : bool
}.

Definition Hook : Type := CompassState * Refs.

Definition initial : Hook :=
  ({| heading := 0; rawHeading := 0; tilt := 0; roll := 0;
      isAvailable := false; error := None |},
   {| accelRef := None; magRef := None; continuousAngleRef := 0;
      smoothedTiltRef := 0; smoothedRollRef := 0; initializedRef := false |}).

(** The part of [updateHeading] after the trigonometry: smoothing of tilt
    and roll, the continuous-angle accumulator, and the published state
    (the body from "Smooth tilt and roll" to [setState]). *)
Definition applyReading (android : bool) (tiltDegrees rollDegrees rawHeading : Q)
    (h : Hook) : Hook :=
  let '(st, r) := h in
  let smoothedTilt := smoothedTiltRef r + (tiltDegrees - smoothedTiltRef r) * TILT_SMOOTHING in
  let smoothedRoll := smoothedRollRef r + (rollDegrees - smoothedRollRef r) * TILT_SMOOTHING in
  let continuous :=
    if negb (initializedRef r) then rawHeading
    else
      let delta := shortestDelta (normalizeAngle (continuousAngleRef r)) rawHeading in
      if JS.gtb (Qabs delta) 0.3
      then continuousAngleRef r + delta * SMOOTHING_FACTOR android
      else continuousAngleRef r in
  let displayHeading := normalizeAngle continuous in
  let finalDisplay := if JS.geb displayHeading 359.5 then 0 else displayHeading in
  ({| heading := finalDisplay;
      rawHeading := continuous;
      tilt := Qmax 0 (Qmin 90 smoothedTilt);
      roll := smoothedRoll;
      isAvailable := isAvailable st;
      error := error st |},
   {| accelRef := accelRef r; magRef := magRef r;
      continuousAngleRef := continuous;
      smoothedTiltRef := smoothedTilt;
      smoothedRollRef := smoothedRoll;
      initializedRef := true |}).

Section WithMath.

(** [Math.sqrt], [Math.atan2] and the constant [180 / Math.PI]. *)
Variable Math_sqrt : Q -> Q.
Variable Math_atan2 : Q -> Q -> Q.
Variable deg_per_rad : Q.
Variable android : bool.

Definition normalize (x y z : Q) : Q * Q * Q :=
  let mag := Math_sqrt (x * x + y * y + z * z) in
  if Qeq_bool mag 0 then (0, 0, 0) else (x / mag, y / mag, z / mag).

Definition cross (ax ay az bx by_ bz : Q) : Q * Q * Q :=
  (ay * bz - az * by_, az * bx - ax * bz, ax * by_ - ay * bx).

Definition dot (ax ay az bx by_ bz : Q) : Q :=
  ax * bx + ay * by_ + az * bz.

Definition calculateTiltCompensatedHeading (accel mag : Measurement) : Q :=
  let '(gx, gy, gz) := normalize (mx accel) (my accel) (mz accel) in
  let '(ex, ey, ez) := cross (mx mag) (my mag) (mz mag) gx gy gz in
  let '(ex, ey, ez) := normalize ex ey ez in
  let '(nx, ny, nz) := cross gx gy gz ex ey ez in
  let '(nx, ny, nz) := normalize nx ny nz in
  let headingRad := Math_atan2 ey ny in
  let headingDeg := headingRad * deg_per_rad in
  normalizeAngle (- headingDeg).

Definition updateHeading (h : Hook) : Hook :=
  let '(st, r) := h in
  match accelRef r, magRef r with
  | Some accel, Some mag =>
      let pitch := Math_atan2 (my accel)
                     (Math_sqrt (mx accel * mx accel + mz accel * mz accel)) in
      let tiltDegrees := Qabs (pitch * deg_per_rad) in
      let roll := Math_atan2 (mx accel)
                    (Math_sqrt (my accel * my accel + mz accel * mz accel)) in
      let rollDegrees := roll * deg_per_rad in
      let rawHeading := calculateTiltCompensatedHeading accel mag in
      applyReading android tiltDegrees rollDegrees rawHeading h
  | _, _ => h
  end.

Definition setAccel (data : Measurement) (h : Hook) : Hook :=
  let '(st, r) := h in
  (st, {| accelRef := Some data; magRef := magRef r;
          continuousAngleRef := continuousAngleRef r;
          smoothedTiltRef := smoothedTiltRef r;
          smoothedRollRef := smoothedRollRef r;
          initializedRef := initializedRef r |}).

Definition setMag (data : Measurement) (h : Hook) : Hook :=
  let '(st, r) := h in
  (st, {| accelRef := accelRef r; magRef := Some data;
          continuousAngleRef := continuousAngleRef r;
          smoothedTiltRef := smoothedTiltRef r;
          smoothedRollRef := smoothedRollRef r;
          initializedRef := initializedRef r |}).

Definition handleAccelerometer (data : Measurement) (h : Hook) : Hook :=
  updateHeading (setAccel data h).

Definition handleMagnetometer (data : Measurement) (h : Hook) : Hook :=
  updateHeading (setMag data h).

(** The [setState] calls of [setup]: they touch only [isAvailable] and
    [error]. *)
Definition setAvailability (avail : bool) (err : option string) (h : Hook) : Hook :=
  let '(st, r) := h in
  ({| heading := heading st; rawHeading := rawHeading st; tilt := tilt st;
      roll := roll st; isAvailable := avail; error := err |}, r).

Definition setup (accelAvailable magAvailable : bool) (h : Hook) : Hook :=
  if negb accelAvailable
  then setAvailability false (Some "Accelerometer not available on this device"%string) h
  else if negb magAvailable
  then setAvailability false (Some "Magnetometer not available on this device"%string) h
  else setAvailability true None h.

(** What the hook reacts to. *)
Inductive event :=
| Setup (accelAvailable magAvailable : bool)
| Accelerometer (data : Measurement)
| Magnetometer (data : Measurement).

Definition step (h : Hook) (e : event) : Hook :=
  match e with
  | Setup a m => setup a m h
  | Accelerometer d => handleAccelerometer d h
  | Magnetometer d => handleMagnetometer d h
  end.

Definition run (es : list event) : Hook := fold_left step es initial.

End WithMath.

End Compass.

(** ** src/utils/alignmentStatus.ts *)
Module AlignmentStatus.

(** Termination measures of the two normalisation loops. *)
Lemma floor_decreases d :
  180 < d -> (Z.to_nat (Qfloor (d - 360)) < Z.to_nat (Qfloor d))%nat.
Proof.
  intros H.
  assert (H1 : (Qfloor (d - 360) < Qfloor d)%Z).
  { apply Z.lt_nge. intros C. rewrite Zle_Qle in C.
    pose proof (Qfloor_le (d - 360)) as L. pose proof (Qlt_floor d) as U.
    rewrite inject_Z_plus in U. change (inject_Z 1) with 1 in U. lra. }
  assert (H2 : (180 <= Qfloor d)%Z).
  { rewrite <- (Qfloor_Z 180). apply Qfloor_resp_le.
    change (inject_Z 180) with 180. lra. }
  lia.
Qed.

Lemma ceiling_decreases d :
  d < -180 ->
  (Z.to_nat (- Qceiling (d + 360)) < Z.to_nat (- Qceiling d))%nat.
Proof.
  intros H.
  assert (H1 : (Qceiling d < Qceiling (d + 360))%Z).
  { apply Z.lt_nge. intros C. rewrite Zle_Qle in C.
    pose proof (Qle_ceiling (d + 360)) as L. pose proof (Qceiling_lt d) as U.
    unfold Z.sub in U. rewrite inject_Z_plus in U.
    change (inject_Z (- (1))%Z) with (-1 # 1) in U. lra. }
  assert (H2 : (Qceiling d <= -180)%Z).
  { rewrite <- (Qceiling_Z (-180)). apply Qceiling_resp_le.
    change (inject_Z (-180)) with (-180). lra. }
  lia.
Qed.

(** [while (deviation > 180) deviation -= 360;] *)
Equations? lowerInto (deviation : Q) : Q by wf (Z.to_nat (Qfloor deviation)) lt :=
  lowerInto deviation with inspect (JS.gtb deviation 180) => {
    | exist _ true _ => lowerInto (deviation - 360)
    | exist _ false _ => deviation }.
Proof. apply floor_decreases. now apply JS.gtb_true. Qed.

(** [while (deviation < -180) deviation += 360;] *)
Equations? raiseInto (deviation : Q) : Q by wf (Z.to_nat (- Qceiling deviation)) lt :=
  raiseInto deviation with inspect (JS.ltb deviation (-180)) => {
    | exist _ true _ => raiseInto (deviation + 360)
    | exist _ false _ => deviation }.
Proof. apply ceiling_decreases. now apply JS.ltb_true. Qed.

Definition calculateAngleDeviation (current target : Q) : Q :=
  let deviation := current - target in
  let deviation := lowerInto deviation in
  let deviation := raiseInto deviation in
  deviation.

(** TILT_THRESHOLDS and AZIMUTH_THRESHOLDS of utils/constants.ts *)
Definition TILT_BEST : Q := 2.
Definition TILT_GOOD : Q := 5.
Definition AZIMUTH_BEST : Q := 5.
Definition AZIMUTH_GOOD : Q := 15.

(** The type [AlignmentStatus] of types/index.ts. *)
Inductive Status := best | good | bad.

Definition getTiltStatus (deviation : Q) : Status :=
  let absDeviation := Qabs deviation in
  if JS.leb absDeviation TILT_BEST then best
  else if JS.leb absDeviation TILT_GOOD then good
  else bad.

Definition getAzimuthStatus (deviation : Q) : Status :=
  let absDeviation := Qabs deviation in
  if JS.leb absDeviation AZIMUTH_BEST then best
  else if JS.leb absDeviation AZIMUTH_GOOD then good
  else bad.

(** [maxDeviation] is explicit; its default is 45. *)
Definition calculateAlignmentPercentage (deviation maxDeviation : Q) : Z :=
  let absDeviation := Qabs deviation in
  let percentage := Qmax 0 (100 - (absDeviation / maxDeviation) * 100) in
  JS.round percentage.

Record AlignmentResult := {
  tiltDeviation : Q;
  azimuthDeviation : Q;
  tiltStatus : Status;
  azimuthStatus : Status;
  tiltPercentage : Z;
  azimuthPercentage : Z
}.

Definition getAlignmentResult
    (currentTilt targetTilt currentAzimuth targetAzimuth : Q) : AlignmentResult :=
  let tiltDeviation := currentTilt - targetTilt in
  let azimuthDeviation := calculateAngleDeviation currentAzimuth targetAzimuth in
  {| tiltDeviation := tiltDeviation;
     azimuthDeviation := azimuthDeviation;
     tiltStatus := getTiltStatus tiltDeviation;
     azimuthStatus := getAzimuthStatus azimuthDeviation;
     tiltPercentage := calculateAlignmentPercentage tiltDeviation 45;
     azimuthPercentage := calculateAlignmentPercentage azimuthDeviation 90 |}.

Definition getAlignmentStatus (deviation : Q) : Status := getTiltStatus deviation.

Definition getAlignmentPercentage (deviation : Q) : Z :=
  calculateAlignmentPercentage deviation 45.

End AlignmentStatus.

(** ** utils/solarCalculations.ts *)
Module SolarCalculations.

Inductive CalculationAlgorithm :=
| simple | optimized | landau | jacobson | pvwatts | pvwatts_live | pvwatts_winter.

Definition getSimpleTilt (latitude : Q) : Q := Qabs latitude.

Definition getOptimizedTilt (latitude : Q) : Q := Qabs latitude * 0.9.

Definition getLandauTilt (latitude : Q) : Q := Qabs latitude * 0.76 + 3.1.

Definition getJacobsonTilt (latitude : Q) : Q :=
  let lat := Qabs latitude in
  1.3793 + lat * (1.2011 + lat * (-0.014404 + lat * 0.000080509)).

Definition getPVWattsTilt (latitude : Q) : Q := Qabs latitude * 0.87.

Definition getTiltByAlgorithm (latitude : Q) (algorithm : CalculationAlgorithm) : Q :=
  match algorithm with
  | optimized => getOptimizedTilt latitude
  | landau => getLandauTilt latitude
  | jacobson => getJacobsonTilt latitude
  | pvwatts => getPVWattsTilt latitude
  | _ => getSimpleTilt latitude
  end.

Definition getYearRoundTilt (latitude : Q) (algorithm : CalculationAlgorithm) : Q :=
  getTiltByAlgorithm latitude algorithm.

(** SEASONAL_ADJUSTMENT and EARTH_AXIAL_TILT of utils/constants.ts *)
Definition SEASONAL_ADJUSTMENT : Q := 15.
Definition EARTH_AXIAL_TILT : Q := 23.45.

Inductive AlignmentMode := year_round | seasonal | daily.

Inductive Season := spring | summer | fall | winter.

Inductive Hemisphere := northern | southern.

(** What the calculator reads of a [Date]: [getMonth()] (0 to 11),
    [getHours()], [getMinutes()], and the milliseconds from the start of
    day 0 of its year ([date.getTime() - new Date(year, 0, 0).getTime()]). *)
Record Date := {
  getMonth : Z;
  getHours : Z;
  getMinutes : Z;
  sinceYearStart : Z
}.

Record LocationData := {
  latitude : Q;
  longitude : Q;
  altitude : option Q;
  accuracy : Q;
  timestamp : Z
}.

Record OptimalAngles := {
  tilt : Q;
  azimuth : Q;
  hemisphere : Hemisphere
}.

Definition getDayOfYear (date : Date) : Z :=
  let diff := sinceYearStart date in
  let oneDay := (1000 * 60 * 60 * 24)%Z in
  (diff / oneDay)%Z.

Definition flipMap (season : Season) : Season :=
  match season with
  | spring => fall
  | summer => winter
  | fall => spring
  | winter => summer
  end.

Definition getCurrentSeason (date : Date) (hemisphere : Hemisphere) : Season :=
  let month := getMonth date in
  let season :=
    if ((2 <=? month) && (month <=? 4))%Z then spring
    else if ((5 <=? month) && (month <=? 7))%Z then summer
    else if ((8 <=? month) && (month <=? 10))%Z then fall
    else winter in
  match hemisphere with
  | southern => flipMap season
  | northern => season
  end.

Definition getHourAngle (hour : Q) : Q := 15 * (hour - 12).

Definition getSeasonalTilt (latitude : Q) (season : Season)
    (algorithm : CalculationAlgorithm) : Q :=
  let baseTilt := getTiltByAlgorithm latitude algorithm in
  match season with
  | summer => Qmax 0 (baseTilt - SEASONAL_ADJUSTMENT)
  | winter => Qmin 90 (baseTilt + SEASONAL_ADJUSTMENT)
  | _ => baseTilt
  end.

Definition getOptimalAzimuth (latitude : Q) : Q :=
  if JS.geb latitude 0 then 0 else 180.

Definition getHemisphere (latitude : Q) : Hemisphere :=
  if JS.geb latitude 0 then northern else southern.

Definition directions : list string :=
  ["N"; "NNE"; "NE"; "ENE"; "E"; "ESE"; "SE"; "SSE";
   "S"; "SSW"; "SW"; "WSW"; "W"; "WNW"; "NW"; "NNW"]%string.

(** [directions[Math.round(heading / 22.5) % 16]]; an index that is
    negative has no element ([undefined]: [None]). *)
Definition getCardinalDirection (heading : Q) : option string :=
  let index := Z.rem (JS.round (heading / 22.5)) 16 in
  if (index <? 0)%Z then None else nth_error directions (Z.to_nat index).

Section WithTrig.

(** [Math.PI], [Math.sin], [Math.cos] and [Math.asin]. *)
Variable Math_PI : Q.
Variable Math_sin : Q -> Q.
Variable Math_cos : Q -> Q.
Variable Math_asin : Q -> Q.

Definition degreesToRadians (degrees : Q) : Q := degrees * (Math_PI / 180).

Definition radiansToDegrees (radians : Q) : Q := radians * (180 / Math_PI).

Definition getSolarDeclination (dayOfYear : Q) : Q :=
  let angleRadians := degreesToRadians ((360 / 365) * (dayOfYear - 81)) in
  EARTH_AXIAL_TILT * Math_sin angleRadians.

Definition getSolarAltitude (latitude declination hourAngle : Q) : Q :=
  let latRad := degreesToRadians latitude in
  let decRad := degreesToRadians declination in
  let hourRad := degreesToRadians hourAngle in
  let sinAltitude :=
    Math_sin latRad * Math_sin decRad
    + Math_cos latRad * Math_cos decRad * Math_cos hourRad in
  radiansToDegrees (Math_asin sinAltitude).

Definition getDailyTilt (latitude : Q) (date : Date) : Q :=
  let dayOfYear := getDayOfYear date in
  let hour := inject_Z (getHours date) + inject_Z (getMinutes date) / 60 in
  let declination := getSolarDeclination (inject_Z dayOfYear) in
  let hourAngle := getHourAngle hour in
  let solarAltitude := getSolarAltitude latitude declination hourAngle in
  let optimalTilt := 90 - solarAltitude in
  Qmax 0 (Qmin 90 optimalTilt).

Definition calculateOptimalAngles (location : LocationData) (mode : AlignmentMode)
    (date : Date) (algorithm : CalculationAlgorithm) : OptimalAngles :=
  let latitude := latitude location in
  let hemisphere := getHemisphere latitude in
  let tilt :=
    match mode with
    | seasonal =>
        let season := getCurrentSeason date hemisphere in
        getSeasonalTilt latitude season algorithm
    | daily => getDailyTilt latitude date
    | year_round => getYearRoundTilt latitude algorithm
    end in
  {| tilt := tilt; azimuth := getOptimalAzimuth latitude; hemisphere := hemisphere |}.

(** The object with one entry per formula; an algorithm without an
    entry reads as [undefined] ([None]). *)
Definition tiltsByAlgorithm (s o l j p : Q) (algorithm : CalculationAlgorithm)
    : option Q :=
  match algorithm with
  | simple => Some s
  | optimized => Some o
  | landau => Some l
  | jacobson => Some j
  | pvwatts => Some p
  | _ => None
  end.

Definition calculateAllAlgorithms (latitude : Q) (mode : AlignmentMode) (date : Date)
    : CalculationAlgorithm -> option Q :=
  let hemisphere := getHemisphere latitude in
  match mode with
  | daily =>
      let dailyTilt := getDailyTilt latitude date in
      tiltsByAlgorithm dailyTilt dailyTilt dailyTilt dailyTilt dailyTilt
  | seasonal =>
      let season := getCurrentSeason date hemisphere in
      tiltsByAlgorithm
        (getSeasonalTilt latitude season simple)
        (getSeasonalTilt latitude season optimized)
        (getSeasonalTilt latitude season landau)
        (getSeasonalTilt latitude season jacobson)
        (getSeasonalTilt latitude season pvwatts)
  | year_round =>
      tiltsByAlgorithm
        (getSimpleTilt latitude)
        (getOptimizedTilt latitude)
        (getLandauTilt latitude)
        (getJacobsonTilt latitude)
        (getPVWattsTilt latitude)
  end.

End WithTrig.

End SolarCalculations.

(** ** services/pvwattsApi.ts *)
Module PVWatts.

(** *** Data *)

Inductive Confidence := live | cached | fallback.

Record OptimalTiltResult := {
  tilt : Q;
  annualProduction : Q;
  confidence : Confidence
}.

(** [ac_monthly[i]] is [undefined] past the end of the series: [None]. *)
Record WinterPriorityResult := {
  w_tilt : Q;
  decemberProduction : option Q;
  juneProduction : option Q;
  w_confidence : Confidence
}.

Record PVWattsParams := {
  latitude : Q;
  longitude : Q;
  p_tilt : option Q;
  p_azimuth : option Q
}.

(** The query of the request URL (the fixed system parameters are left
    out: they are constants). *)
Record Request := { q_lat : Q; q_lon : Q; q_azimuth : Q; q_tilt : Q }.

Record Outputs := { ac_annual : Q; ac_monthly : list Q }.

(** A parsed body; [outputs] is [None] when the payload has no such
    member. *)
Record PVWattsResponse := { outputs : option Outputs }.

(** An HTTP response: [response.ok] and the result of [response.json()]
    ([None] when the body does not parse). *)
Record HttpResponse := { ok : bool; json : option PVWattsResponse }.

Record CacheEntry := { entry_tilt : Q; entry_timestamp : Z }.

(** The module-level caches and the requests sent so far. *)
Record World := {
  tiltCache : gmap string CacheEntry;
  winterTiltCache : gmap string CacheEntry;
  requests : list Request
}.

(** What one call observes of its environment: the remote service
    ([None]: the fetch itself fails) and the clock readings of its
    [Date.now()] at the cache check and at the cache store. *)
Record Env := {
  service : Request -> option HttpResponse;
  nowAtCheck : Z;
  nowAtStore : Z
}.

Inductive Error := NetworkError | HttpError | SyntaxError | TypeError.

(** *** Promises over the shared world *)

Inductive Outcome (A : Type) :=
| Resolved (a : A)
| Rejected (e : Error).
Arguments Resolved {A} a.
Arguments Rejected {A} e.

Definition M (A : Type) : Type := World -> Outcome A * World.

Definition ret {A} (a : A) : M A := fun w => (Resolved a, w).

Definition throw {A} (e : Error) : M A := fun w => (Rejected e, w).

Definition bind {A B} (m : M A) (k : A -> M B) : M B :=
  fun w => match m w with
           | (Resolved a, w') => k a w'
           | (Rejected e, w') => (Rejected e, w')
           end.

Definition try_catch {A} (m : M A) (handler : Error -> M A) : M A :=
  fun w => match m w with
           | (Resolved a, w') => (Resolved a, w')
           | (Rejected e, w') => handler e w'
           end.

Declare Scope promise_scope.
Delimit Scope promise_scope with promise.
Notation "'let*' x ':=' m 'in' k" := (bind m (fun x => k))
  (at level 10, x binder, m at level 100, k at level 200) : promise_scope.
Local Open Scope promise_scope.

(** [Promise.all(xs.map(f))] for an [f] that never leaves its promise
    pending: requests are started in list order and the results are
    joined in list order. *)
Fixpoint mapM {A B} (f : A -> M B) (xs : list A) : M (list B) :=
  match xs with
  | [] => ret []
  | x :: xs' => let* y := f x in let* ys := mapM f xs' in ret (y :: ys)
  end.

Definition getTiltCache (key : string) : M (option CacheEntry) :=
  fun w => (Resolved (tiltCache w !! key), w).

Definition setTiltCache (key : string) (e : CacheEntry) : M unit :=
  fun w => (Resolved tt,
            {| tiltCache := <[key := e]> (tiltCache w);
               winterTiltCache := winterTiltCache w;
               requests := requests w |}).

Definition getWinterTiltCache (key : string) : M (option CacheEntry) :=
  fun w => (Resolved (winterTiltCache w !! key), w).

Definition setWinterTiltCache (key : string) (e : CacheEntry) : M unit :=
  fun w => (Resolved tt,
            {| tiltCache := tiltCache w;
               winterTiltCache := <[key := e]> (winterTiltCache w);
               requests := requests w |}).

(** *** The service client *)

Definition CACHE_DURATION : Z := 24 * 60 * 60 * 1000.

(** [|x|] in hundredths, to the nearest (ties upward), as [toFixed(2)]
    rounds its digits. *)
Definition hundredths (x : Q) : N :=
  Z.to_N (Qfloor (Qabs x * 100 + (1 # 2))).

Definition twoDigits (n : N) : string :=
  if (n <? 10)%N then "0" +:+ pretty n else pretty n.

(** [x.toFixed(2)] *)
Definition toFixed2 (x : Q) : string :=
  let n := hundredths x in
  (if JS.ltb x 0 then "-" else "")
    +:+ pretty (n / 100)%N +:+ "." +:+ twoDigits (n mod 100)%N.

(** [Number(x.toFixed(2))] *)
Definition roundTo2 (x : Q) : Q :=
  let n := inject_Z (Z.of_N (hundredths x)) / 100 in
  if JS.ltb x 0 then - n else n.

Definition getCacheKey (lat lon : Q) : string :=
  toFixed2 lat +:+ "," +:+ toFixed2 lon.

Section WithEnv.

Variable env : Env.

Definition fetch (url : Request) : M HttpResponse :=
  fun w =>
    let w' := {| tiltCache := tiltCache w;
                 winterTiltCache := winterTiltCache w;
                 requests := requests w ++ [url] |} in
    match service env url with
    | Some response => (Resolved response, w')
    | None => (Rejected NetworkError, w')
    end.

Definition callPVWatts (params : PVWattsParams) : M PVWattsResponse :=
  let roundedLat := roundTo2 (latitude params) in
  let roundedLon := roundTo2 (longitude params) in
  let url := {| q_lat := roundedLat; q_lon := roundedLon;
                q_azimuth := default 180 (p_azimuth params);
                q_tilt := default (latitude params) (p_tilt params) |} in
  let* response := fetch url in
  if negb (ok response) then throw HttpError
  else match json response with
       | Some body => ret body
       | None => throw SyntaxError
       end.

(** [cached && Date.now() - cached.timestamp < CACHE_DURATION] *)
Definition validEntry (now : Z) (entry : option CacheEntry) : option CacheEntry :=
  match entry with
  | Some c => if (now - entry_timestamp c <? CACHE_DURATION)%Z then Some c else None
  | None => None
  end.

Definition inRange (a : Q) : bool := JS.geb a 0 && JS.leb a 90.

Definition optimalTestAngles (latitude : Q) : list Q :=
  let baseAngle := Qabs latitude in
  List.filter inRange
    [baseAngle - 10; baseAngle - 5; baseAngle; baseAngle + 5; baseAngle + 10].

(** The per-candidate request of the production sweep, with its own
    [try]/[catch]. *)
Definition probeAnnual (latitude longitude tilt : Q) : M (Q * Q) :=
  try_catch
    (let* result := callPVWatts
                       {| latitude := latitude; longitude := longitude;
                          p_tilt := Some tilt;
                          p_azimuth := Some (if JS.geb latitude 0 then 180 else 0) |} in
     match outputs result with
     | Some o => ret (tilt, ac_annual o)
     | None => throw TypeError
     end)
    (fun _ => ret (tilt, 0)).

(** The loop selecting the highest production, on [(bestTilt, bestProduction)]. *)
Definition pickBest (results : list (Q * Q)) (init : Q * Q) : Q * Q :=
  fold_left
    (fun best result =>
       if JS.gtb (snd result) (snd best) then (fst result, snd result) else best)
    results init.

Definition getOptimalTiltFromPVWatts (latitude longitude : Q) : M OptimalTiltResult :=
  let cacheKey := getCacheKey latitude longitude in
  let* entry := getTiltCache cacheKey in
  match validEntry (nowAtCheck env) entry with
  | Some c =>
      ret {| tilt := entry_tilt c; annualProduction := 0; confidence := cached |}
  | None =>
      try_catch
        (let baseAngle := Qabs latitude in
         let testAngles := optimalTestAngles latitude in
         let* results := mapM (probeAnnual latitude longitude) testAngles in
         let '(bestTilt, bestProduction) := pickBest results (baseAngle, 0) in
         let* _ := setTiltCache cacheKey
                      {| entry_tilt := bestTilt; entry_timestamp := nowAtStore env |} in
         ret {| tilt := bestTilt; annualProduction := bestProduction;
                confidence := live |})
        (fun _ =>
           let fallbackTilt := Qabs latitude * 0.87 in
           ret {| tilt := fallbackTilt; annualProduction := 0;
                  confidence := fallback |})
  end.

(** One result of the winter sweep: [{ tilt, juneProduction, decProduction }]. *)
Record Candidate := { c_tilt : Q; c_june : option Q; c_dec : option Q }.

(** The loop [for (offset = 0; offset <= 25; offset += 5)] pushing the
    angles within range. *)
Definition winterTestAngles (latitude : Q) : list Q :=
  let baseAngle := Qabs latitude in
  List.filter inRange
    (map (fun offset => baseAngle + offset) [0; 5; 10; 15; 20; 25]).

Definition probeMonthly (latitude longitude tilt : Q) : M Candidate :=
  try_catch
    (let* result := callPVWatts
                      {| latitude := latitude; longitude := longitude;
                         p_tilt := Some tilt;
                         p_azimuth := Some (if JS.geb latitude 0 then 180 else 0) |} in
     match outputs result with
     | Some o =>
         ret {| c_tilt := tilt;
                c_june := nth_error (ac_monthly o) 5;
                c_dec := nth_error (ac_monthly o) 11 |}
     | None => throw TypeError
     end)
    (fun _ => ret {| c_tilt := tilt; c_june := Some 0; c_dec := Some 0 |}).

(** [Array.prototype.sort] with a comparator: a stable sort. *)
Fixpoint insertBy {A} (compare : A -> A -> Q) (x : A) (l : list A) : list A :=
  match l with
  | [] => [x]
  | y :: l' => if JS.leb (compare x y) 0 then x :: l else y :: insertBy compare x l'
  end.

Definition sortBy {A} (compare : A -> A -> Q) (l : list A) : list A :=
  foldr (insertBy compare) [] l.

(** Comparisons with a possibly [undefined] operand are [false]. *)
Definition geb_undef (a b : option Q) : bool :=
  match a, b with
  | Some x, Some y => JS.geb x y
  | _, _ => false
  end.

Definition gtb_undef (a b : option Q) : bool :=
  match a, b with
  | Some x, Some y => JS.gtb x y
  | _, _ => false
  end.

(** [result.juneProduction >= result.decProduction && result.decProduction > 0] *)
Definition validAngle (result : Candidate) : bool :=
  geb_undef (c_june result) (c_dec result) && gtb_undef (c_dec result) (Some 0).

(** The loop over the sorted results with its [break]. *)
Fixpoint pickSteepest (results : list Candidate) (bestResult : Candidate) : Candidate :=
  match results with
  | [] => bestResult
  | result :: rest => if validAngle result then result else pickSteepest rest bestResult
  end.

Definition getWinterPriorityTiltFromPVWatts (latitude longitude : Q)
    : M WinterPriorityResult :=
  let cacheKey := getCacheKey latitude longitude in
  let* entry := getWinterTiltCache cacheKey in
  match validEntry (nowAtCheck env) entry with
  | Some c =>
      ret {| w_tilt := entry_tilt c; decemberProduction := Some 0;
             juneProduction := Some 0; w_confidence := cached |}
  | None =>
      try_catch
        (let testAngles := winterTestAngles latitude in
         let* results := mapM (probeMonthly latitude longitude) testAngles in
         let results := sortBy (fun a b => c_tilt b - c_tilt a) results in
         match last results with
         | None => throw TypeError
         | Some lowest =>
             let bestResult := pickSteepest results lowest in
             let* _ := setWinterTiltCache cacheKey
                         {| entry_tilt := c_tilt bestResult;
                            entry_timestamp := nowAtStore env |} in
             ret {| w_tilt := c_tilt bestResult;
                    decemberProduction := c_dec bestResult;
                    juneProduction := c_june bestResult;
                    w_confidence := live |}
         end)
        (fun _ =>
           let fallbackTilt := Qmin 90 (Qabs latitude + 15) in
           ret {| w_tilt := fallbackTilt; decemberProduction := Some 0;
                  juneProduction := Some 0; w_confidence := fallback |})
  end.

(** The single request of the quick estimate: no tilt and no azimuth
    are passed, [null] on any failure. *)
Definition getPVWattsEstimate (latitude longitude : Q) : M (option PVWattsResponse) :=
  try_catch
    (let* response := callPVWatts
                        {| latitude := latitude; longitude := longitude;
                           p_tilt := None; p_azimuth := None |} in
     ret (Some response))
    (fun _ => ret None).

Definition getCachedTilt (latitude longitude : Q) : M (option Q) :=
  let cacheKey := getCacheKey latitude longitude in
  let* entry := getTiltCache cacheKey in
  match validEntry (nowAtCheck env) entry with
  | Some c => ret (Some (entry_tilt c))
  | None => ret None
  end.

Definition getCachedWinterTilt (latitude longitude : Q) : M (option Q) :=
  let cacheKey := getCacheKey latitude longitude in
  let* entry := getWinterTiltCache cacheKey in
  match validEntry (nowAtCheck env) entry with
  | Some c => ret (Some (entry_tilt c))
  | None => ret None
  end.

End WithEnv.

Definition clearPVWattsCache : M unit :=
  fun w => (Resolved tt,
            {| tiltCache := ∅; winterTiltCache := ∅; requests := requests w |}).

End PVWatts.

(** ** hooks/usePVWattsLive.ts: when the hook fetches *)
Module PVWattsLive.

(** [prevLocationRef.current]: [{ lat, lon }]. *)
Record Coordinates := { lat : Q; lon : Q }.

Record Refs := {
  prevLocationRef : option Coordinates;
  prevWinterPriorityRef : bool
}.

(** The strings of [toFixed(2)] are compared with [!==]. *)
Definition hasLocationChanged (refs : Refs) (lat lon : Q) : bool :=
  match prevLocationRef refs with
  | None => true
  | Some prev =>
      negb (String.eqb (PVWatts.toFixed2 (PVWattsLive.lat prev)) (PVWatts.toFixed2 lat))
      || negb (String.eqb (PVWatts.toFixed2 (PVWattsLive.lon prev)) (PVWatts.toFixed2 lon))
  end.

(** The effect that decides on a fetch: the refs it leaves, and the
    coordinates it passes to [fetchPVWatts], if it calls it. *)
Definition effect (location : option SolarCalculations.LocationData)
    (enabled winterPriority : bool) (refs : Refs) : Refs * option (Q * Q) :=
  match (if enabled then location else None) with
  | None =>
      ({| prevLocationRef := None;
          prevWinterPriorityRef := prevWinterPriorityRef refs |}, None)
  | Some location =>
      let latitude := SolarCalculations.latitude location in
      let longitude := SolarCalculations.longitude location in
      let locationChanged := hasLocationChanged refs latitude longitude in
      let modeChanged := negb (Bool.eqb (prevWinterPriorityRef refs) winterPriority) in
      if locationChanged || modeChanged then
        ({| prevLocationRef := Some {| lat := latitude; lon := longitude |};
            prevWinterPriorityRef := winterPriority |},
         Some (latitude, longitude))
      else
        ({| prevLocationRef := prevLocationRef refs;
            prevWinterPriorityRef := winterPriority |}, None)
  end.

End PVWattsLive.

(** ** src/hooks/useHapticFeedback.ts *)
Module Haptic.

Inductive HapticIntensity := none | approaching | close | very_close | locked.

Definition HapticIntensity_eqb (a b : HapticIntensity) : bool :=
  match a, b with
  | none, none | approaching, approaching | close, close
  | very_close, very_close | locked, locked => true
  | _, _ => false
  end.

(** HAPTIC_THRESHOLDS (degrees) and HAPTIC_INTERVALS (ms) of utils/constants.ts *)
Definition THRESHOLD_VERY_CLOSE : Q := 2.
Definition THRESHOLD_CLOSE : Q := 5.
Definition THRESHOLD_APPROACHING : Q := 10.
Definition INTERVAL_LOCKED : Z := 0.
Definition INTERVAL_VERY_CLOSE : Z := 100.
Definition INTERVAL_CLOSE : Z := 250.
Definition INTERVAL_APPROACHING : Z := 500.

(** The calls made to the haptic actuator. *)
Inductive HapticCall :=
| NotificationSuccess
| ImpactHeavy
| ImpactMedium
| ImpactLight.

(** The hook's options, with [enabled] and [lockThreshold] explicit
    (their defaults are [true] and [0.5]). *)
Record HapticFeedbackOptions := {
  enabled : bool;
  deviation : Q;
  lockThreshold : Q
}.

Definition getIntensity (lockThreshold dev : Q) : HapticIntensity :=
  let absDev := Qabs dev in
  if JS.leb absDev lockThreshold then locked
  else if JS.leb absDev THRESHOLD_VERY_CLOSE then very_close
  else if JS.leb absDev THRESHOLD_CLOSE then close
  else if JS.leb absDev THRESHOLD_APPROACHING then approaching
  else none.

Definition triggerHaptic (intensity : HapticIntensity) : list HapticCall :=
  match intensity with
  | locked => [NotificationSuccess]
  | very_close => [ImpactHeavy]
  | close => [ImpactMedium]
  | approaching => [ImpactLight]
  | none => []
  end.

(** A timer started by [setInterval]: the intensity its callback
    captured, and its period. *)
Record Interval := { fires : HapticIntensity; every : Z }.

(** The refs of the hook, and what React keeps of the last run of the
    effect: whether it returned its cleanup function, and the values of
    its dependencies. *)
Record State := {
  intervalRef : option Interval;
  lastIntensityRef : HapticIntensity;
  isLockedRef : bool;
  cleanup : bool;
  deps : option HapticFeedbackOptions
}.

Definition initial : State :=
  {| intervalRef := None; lastIntensityRef := none; isLockedRef := false;
     cleanup := false; deps := None |}.

(** [if (intervalRef.current) { clearInterval(...); intervalRef.current = null; }] *)
Definition clearTimer (s : State) : State :=
  {| intervalRef := None; lastIntensityRef := lastIntensityRef s;
     isLockedRef := isLockedRef s; cleanup := cleanup s; deps := deps s |}.

Definition intervalMs (intensity : HapticIntensity) : option Z :=
  match intensity with
  | very_close => Some INTERVAL_VERY_CLOSE
  | close => Some INTERVAL_CLOSE
  | approaching => Some INTERVAL_APPROACHING
  | _ => None
  end.

(** The body of the effect.  The [cleanup] field of the result tells
    whether this run returned the cleanup function (the two early
    [return]s do not). *)
Definition effect (opts : HapticFeedbackOptions) (s : State) : State * list HapticCall :=
  if negb (enabled opts) then
    ({| intervalRef := None; lastIntensityRef := lastIntensityRef s;
        isLockedRef := isLockedRef s; cleanup := false; deps := deps s |}, [])
  else
    let intensity := getIntensity (lockThreshold opts) (deviation opts) in
    if HapticIntensity_eqb intensity locked && negb (isLockedRef s) then
      ({| intervalRef := None; lastIntensityRef := lastIntensityRef s;
          isLockedRef := true; cleanup := false; deps := deps s |},
       triggerHaptic locked)
    else
      let isLocked :=
        if negb (HapticIntensity_eqb intensity locked) then false else isLockedRef s in
      if negb (HapticIntensity_eqb intensity (lastIntensityRef s)) then
        match intervalMs intensity with
        | Some ms =>
            if (ms =? 0)%Z then
              ({| intervalRef := None; lastIntensityRef := intensity;
                  isLockedRef := isLocked; cleanup := true; deps := deps s |}, [])
            else
              ({| intervalRef := Some {| fires := intensity; every := ms |};
                  lastIntensityRef := intensity;
                  isLockedRef := isLocked; cleanup := true; deps := deps s |},
               triggerHaptic intensity)
        | None =>
            ({| intervalRef := None; lastIntensityRef := intensity;
                isLockedRef := isLocked; cleanup := true; deps := deps s |}, [])
        end
      else
        ({| intervalRef := intervalRef s; lastIntensityRef := lastIntensityRef s;
            isLockedRef := isLocked; cleanup := true; deps := deps s |}, []).

(** The dependency array [[enabled, deviation, getIntensity, triggerHaptic]]:
    [getIntensity] changes with [lockThreshold], [triggerHaptic] never. *)
Definition sameDeps (a b : HapticFeedbackOptions) : bool :=
  Bool.eqb (enabled a) (enabled b)
  && Qeq_bool (deviation a) (deviation b)
  && Qeq_bool (lockThreshold a) (lockThreshold b).

Definition setDeps (opts : HapticFeedbackOptions) (s : State) : State :=
  {| intervalRef := intervalRef s; lastIntensityRef := lastIntensityRef s;
     isLockedRef := isLockedRef s; cleanup := cleanup s; deps := Some opts |}.

(** A render of the component using the hook: when a dependency changed
    (or on mount) the cleanup of the previous run is called, if it
    returned one, and the effect runs again. *)
Definition render (opts : HapticFeedbackOptions) (s : State) : State * list HapticCall :=
  let changed := match deps s with
                 | Some prev => negb (sameDeps prev opts)
                 | None => true
                 end in
  if changed then
    let s1 := if cleanup s then clearTimer s else s in
    let '(s2, calls) := effect opts s1 in
    (setDeps opts s2, calls)
  else (s, []).

(** The running timer, if any, fires its callback. *)
Definition tick (s : State) : State * list HapticCall :=
  match intervalRef s with
  | Some t => (s, triggerHaptic (fires t))
  | None => (s, [])
  end.

Inductive event :=
| Render (opts : HapticFeedbackOptions)
| Tick.

Definition step (s : State) (e : event) : State * list HapticCall :=
  match e with
  | Render opts => render opts s
  | Tick => tick s
  end.

Fixpoint run (s : State) (es : list event) : State * list HapticCall :=
  match es with
  | [] => (s, [])
  | e :: es' =>
      let '(s1, calls1) := step s e in
      let '(s2, calls2) := run s1 es' in
      (s2, calls1 ++ calls2)
  end.

(** A new deviation sample with the scheduler enabled. *)
Definition Sample (lockThreshold deviation : Q) : event :=
  Render {| enabled := true; deviation := deviation; lockThreshold := lockThreshold |}.

End Haptic.

(* ===================================================================== *)
(** * Part II: properties *)
(* ===================================================================== *)

(** The properties C1 to C10 of the specification, each stated on the
    definitions of Part I; where the code departs from the specification's
    wording, the statement the code satisfies is proved and the departure
    is shown on a concrete input. *)

(** ** Angles: the compass estimator and the alignment evaluator *)
Module AngleFacts.
Import Compass AlignmentStatus.

(** What [updateHeading] publishes as [heading] for a continuous angle. *)
Definition display (continuous : Q) : Q :=
  if JS.geb (normalizeAngle continuous) 359.5 then 0 else normalizeAngle continuous.

(** The published state agrees with the accumulator it was computed from. *)
Definition published (h : Hook) : Prop :=
  heading (fst h) == display (rawHeading (fst h)).

(** The remainder by 360 keeps the sign of the dividend and is less
    than 360 in magnitude. *)
Lemma rem_360_range a :
  -360 < JS.rem a 360 < 360 /\
  (0 <= a -> 0 <= JS.rem a 360) /\ (a <= 0 -> JS.rem a 360 <= 0).
Proof.
  unfold JS.rem, JS.trunc.
  assert (Hq : a == 360 * (a / 360)) by field.
  destruct (Qle_bool 0 (a / 360)) eqn:Hs.
  - apply Qle_bool_iff in Hs.
    pose proof (Qfloor_le (a / 360)) as Hlo. pose proof (Qlt_floor (a / 360)) as Hhi.
    rewrite inject_Z_plus in Hhi. change (inject_Z 1) with 1 in Hhi.
    assert (Ht : 0 <= inject_Z (Qfloor (a / 360))).
    { change 0 with (inject_Z 0). rewrite <- Zle_Qle, <- (Qfloor_Z 0).
      now apply Qfloor_resp_le. }
    set (t := inject_Z (Qfloor (a / 360))) in *. set (q := a / 360) in *.
    repeat split; try intros; lra.
  - assert (Hneg : a / 360 < 0).
    { apply Qnot_le_lt. intros C. apply Qle_bool_iff in C. congruence. }
    pose proof (Qle_ceiling (a / 360)) as Hlo. pose proof (Qceiling_lt (a / 360)) as Hhi.
    unfold Z.sub in Hhi. rewrite inject_Z_plus in Hhi.
    change (inject_Z (- (1))%Z) with (-1 # 1) in Hhi.
    assert (Ht : inject_Z (Qceiling (a / 360)) <= 0).
    { change 0 with (inject_Z 0). rewrite <- Zle_Qle, <- (Qceiling_Z 0).
      apply Qceiling_resp_le. now apply Qlt_le_weak. }
    set (t := inject_Z (Qceiling (a / 360))) in *. set (q := a / 360) in *.
    repeat split; try intros; lra.
Qed.

Lemma normalizeAngle_range a : 0 <= normalizeAngle a < 360.
Proof.
  unfold normalizeAngle.
  destruct (rem_360_range a) as ([Hlo Hhi] & _ & _).
  destruct (rem_360_range (JS.rem a 360 + 360)) as ([_ Hlt] & Hpos & _).
  split; [apply Hpos; lra | exact Hlt].
Qed.

(** Every published heading is a compass bearing below 359.5. *)
Lemma display_range continuous : 0 <= display continuous < 359.5.
Proof.
  unfold display. pose proof (normalizeAngle_range continuous).
  js_cmp (JS.geb (normalizeAngle continuous) 359.5); lra.
Qed.

Lemma published_initial : published Compass.initial.
Proof. unfold published. vm_compute. reflexivity. Qed.

Lemma published_applyReading android t r raw h :
  published (applyReading android t r raw h).
Proof. destruct h as [st refs]. unfold published, display. simpl. reflexivity. Qed.

Lemma published_setAvailability avail err h :
  published h -> published (setAvailability avail err h).
Proof. destruct h as [st refs]. unfold published. simpl. auto. Qed.

Section WithMath.
Variable Math_sqrt : Q -> Q.
Variable Math_atan2 : Q -> Q -> Q.
Variable deg_per_rad : Q.
Variable android : bool.

Lemma published_step h e :
  published h -> published (step Math_sqrt Math_atan2 deg_per_rad android h e).
Proof.
  intros Hp. destruct e as [a m | d | d]; simpl.
  - unfold setup.
    destruct (negb a); [now apply published_setAvailability |].
    destruct (negb m); now apply published_setAvailability.
  - unfold handleAccelerometer, updateHeading, setAccel.
    destruct h as [st refs]. cbn [accelRef magRef].
    destruct (magRef refs); [apply published_applyReading | exact Hp].
  - unfold handleMagnetometer, updateHeading, setMag.
    destruct h as [st refs]. cbn [accelRef magRef].
    destruct (accelRef refs); [apply published_applyReading | exact Hp].
Qed.

Lemma published_fold es : forall h,
  published h ->
  published (fold_left (step Math_sqrt Math_atan2 deg_per_rad android) es h).
Proof.
  induction es as [| e es IH]; intros h Hp; simpl; [exact Hp |].
  apply IH. now apply published_step.
Qed.

End WithMath.

(** C1, as the code has it: after any sequence of sensor and setup
    events, whatever the trigonometric functions return, the published
    heading is the normalisation of the published continuous rawHeading,
    except that a normalised value of 359.5 or more is published as 0;
    so the heading lies in [0, 359.5). *)
Theorem C1_heading_is_snapped_normalization
    (Math_sqrt : Q -> Q) (Math_atan2 : Q -> Q -> Q) (deg_per_rad : Q)
    (android : bool) (es : list event) :
  let st := fst (Compass.run Math_sqrt Math_atan2 deg_per_rad android es) in
  heading st ==
    (if JS.geb (normalizeAngle (rawHeading st)) 359.5
     then 0 else normalizeAngle (rawHeading st)) /\
  0 <= heading st < 359.5.
Proof.
  intros st.
  assert (Hp : published (Compass.run Math_sqrt Math_atan2 deg_per_rad android es)).
  { unfold Compass.run. apply published_fold, published_initial. }
  unfold published in Hp. fold st in Hp.
  split; [exact Hp |].
  rewrite Hp. apply display_range.
Qed.

(** C1 fails as stated: a first compass reading of 359.7 degrees is
    published with heading 0 and rawHeading 359.7, and the normalisation
    of 359.7 is 359.7. *)
Lemma C1_heading_differs_near_360 :
  let st := fst (applyReading false 0 0 359.7 Compass.initial) in
  rawHeading st == 359.7 /\ heading st == 0 /\
  ~ heading st == normalizeAngle (rawHeading st).
Proof.
  vm_compute. split; [reflexivity |]. split; [reflexivity |]. discriminate.
Qed.

(** The first loop of [calculateAngleDeviation] leaves a value of at
    most 180, and one above -180 when it moved at all. *)
Lemma lowerInto_spec d :
  lowerInto d <= 180 /\ (d <= 180 -> lowerInto d = d) /\ (180 < d -> -180 < lowerInto d).
Proof.
  funelim (lowerInto d).
  - match goal with
    | IH : _ /\ _ /\ _ |- _ => destruct IH as (Hle & Hid & Hgt)
    end.
    pose proof (proj1 (JS.gtb_true _ _) e) as Hc.
    split; [exact Hle |]. split; [intros; lra |]. intros _.
    destruct (Qlt_le_dec 180 (deviation - 360)) as [Hbig | Hsmall].
    + now apply Hgt.
    + rewrite (Hid Hsmall). lra.
  - pose proof (proj1 (JS.gtb_false _ _) e) as Hc. repeat split; auto; intros; lra.
Qed.

(** The second loop leaves a value of at least -180, and one below 180
    when it moved at all. *)
Lemma raiseInto_spec d :
  -180 <= raiseInto d /\ (-180 <= d -> raiseInto d = d) /\ (d < -180 -> raiseInto d < 180).
Proof.
  funelim (raiseInto d).
  - match goal with
    | IH : _ /\ _ /\ _ |- _ => destruct IH as (Hge & Hid & Hlt)
    end.
    pose proof (proj1 (JS.ltb_true _ _) e) as Hc.
    split; [exact Hge |]. split; [intros; lra |]. intros _.
    destruct (Qlt_le_dec (deviation + 360) (-180)) as [Hsmall | Hbig].
    + now apply Hlt.
    + rewrite (Hid Hbig). lra.
  - pose proof (proj1 (JS.ltb_false _ _) e) as Hc. repeat split; auto; intros; lra.
Qed.

Lemma calculateAngleDeviation_range current target :
  -180 <= calculateAngleDeviation current target <= 180.
Proof.
  unfold calculateAngleDeviation.
  destruct (lowerInto_spec (current - target)) as (Hle & _ & _).
  destruct (raiseInto_spec (lowerInto (current - target))) as (Hge & Hid & Hlt).
  split; [exact Hge |].
  destruct (Qlt_le_dec (lowerInto (current - target)) (-180)) as [Hsmall | Hbig].
  - apply Qlt_le_weak. now apply Hlt.
  - rewrite (Hid Hbig). exact Hle.
Qed.

Lemma shortestDelta_range from to :
  -540 <= to - from <= 540 -> -180 <= shortestDelta from to <= 180.
Proof.
  intros [Hlo Hhi]. unfold shortestDelta.
  js_cmp (JS.gtb (to - from) 180).
  - js_cmp (JS.ltb (to - from - 360) (-180)); lra.
  - js_cmp (JS.ltb (to - from) (-180)); lra.
Qed.

(** C4, as the code has it: the azimuth deviation of
    [calculateAngleDeviation] lies in the closed interval [-180, 180] for
    all inputs, and so does [shortestDelta] when its arguments differ by
    at most 540 degrees (it adjusts by 360 once at most), in particular
    for angles normalised to [0, 360), as the estimator passes them. *)
Theorem C4_angle_difference_closed_range (current target from to a b : Q) :
  -540 <= to - from <= 540 ->
  -180 <= calculateAngleDeviation current target <= 180 /\
  -180 <= shortestDelta from to <= 180 /\
  -180 <= shortestDelta (normalizeAngle a) (normalizeAngle b) <= 180.
Proof.
  intros Hdiff. split; [| split].
  - apply calculateAngleDeviation_range.
  - now apply shortestDelta_range.
  - apply shortestDelta_range.
    pose proof (normalizeAngle_range a). pose proof (normalizeAngle_range b).
    split; lra.
Qed.

Lemma C4_angle_difference_closed_range_witness :
  -540 <= 10 - 350 <= 540 /\
  (-180 <= calculateAngleDeviation 725 0 <= 180 /\
   -180 <= shortestDelta 350 10 <= 180 /\
   -180 <= shortestDelta (normalizeAngle (-10)) (normalizeAngle 370) <= 180).
Proof.
  assert (H : -540 <= 10 - 350 <= 540) by (split; vm_compute; discriminate).
  split; [exact H |].
  exact (C4_angle_difference_closed_range 725 0 350 10 (-10) 370 H).
Defined.

(** C4 fails as stated: both operations return -180, which is outside
    (-180, 180], for angles half a turn apart, and [shortestDelta] leaves
    the interval altogether for arguments that are not normalised. *)
Lemma C4_minus_180_is_returned :
  calculateAngleDeviation 0 180 == -180 /\
  shortestDelta 180 0 == -180 /\
  ~ (-180 < calculateAngleDeviation 0 180 /\ calculateAngleDeviation 0 180 <= 180) /\
  ~ (-180 < shortestDelta 0 1000 /\ shortestDelta 0 1000 <= 180).
Proof.
  split; [vm_compute; reflexivity |].
  split; [vm_compute; reflexivity |].
  split; intros [Hlo Hhi]; vm_compute in Hlo, Hhi;
    first [discriminate Hlo | apply Hhi; reflexivity].
Qed.

End AngleFacts.

(** ** The solar target calculator *)
Module SolarFacts.
Import SolarCalculations.

(** The cubic with the coefficient 0.0000805, three significant digits
    of the one in the code. *)
Definition truncatedCubic (L : Q) : Q :=
  1.3793 + L * (1.2011 + L * (-0.014404 + L * 0.0000805)).

(** C9, as the code has it: the year-round Jacobson tilt is the cubic in
    L = |latitude| whose leading coefficient is 0.000080509; it exceeds
    the cubic with 0.0000805 by 0.000000009 L^3. *)
Theorem C9_jacobson_year_round_tilt (latitude : Q) :
  let L := Qabs latitude in
  getYearRoundTilt latitude jacobson ==
    1.3793 + L * (1.2011 + L * (-0.014404 + L * 0.000080509)) /\
  getYearRoundTilt latitude jacobson - truncatedCubic L == 0.000000009 * (L * L * L).
Proof.
  intros L. unfold getYearRoundTilt, getTiltByAlgorithm, getJacobsonTilt.
  fold L. split.
  - reflexivity.
  - unfold truncatedCubic. ring.
Qed.

(** C9 fails as stated: at latitude 10 the code's value is 12.030409,
    the stated polynomial gives 12.0304. *)
Lemma C9_jacobson_differs_at_10 :
  getYearRoundTilt 10 jacobson == 12.030409 /\
  ~ getYearRoundTilt 10 jacobson ==
      1.3793 + Qabs 10 * (1.2011 + Qabs 10 * (-0.014404 + Qabs 10 * 0.0000805)).
Proof.
  split; vm_compute; [reflexivity | discriminate].
Qed.

End SolarFacts.

(** ** The external estimation client *)
Module PVWattsFacts.
Import PVWatts.

(** *** What a sweep sends and what it reads back *)

Definition logRequests (urls : list Request) (w : World) : World :=
  {| tiltCache := tiltCache w; winterTiltCache := winterTiltCache w;
     requests := requests w ++ urls |}.

(** The request of the sweep for one candidate tilt. *)
Definition requestFor (lat lon tilt : Q) : Request :=
  {| q_lat := roundTo2 lat; q_lon := roundTo2 lon;
     q_azimuth := if JS.geb lat 0 then 180 else 0; q_tilt := tilt |}.

(** The [outputs] of a request that succeeds: a response arrives, it is
    [ok], its body parses and has the member.  [None] is a network or
    parse failure. *)
Definition payloadOf (env : Env) (url : Request) : option Outputs :=
  match service env url with
  | Some response =>
      if ok response then
        match json response with
        | Some body => outputs body
        | None => None
        end
      else None
  | None => None
  end.

Definition annualOf (env : Env) (lat lon tilt : Q) : option Q :=
  ac_annual <$> payloadOf env (requestFor lat lon tilt).

(** The yield the sweep records for a candidate: 0 when its request failed. *)
Definition yieldOf (env : Env) (lat lon tilt : Q) : Q :=
  default 0 (annualOf env lat lon tilt).

Lemma logRequests_nil w : logRequests [] w = w.
Proof. destruct w. unfold logRequests. simpl. now rewrite app_nil_r. Qed.

Lemma logRequests_cons url urls w :
  logRequests urls (logRequests [url] w) = logRequests (url :: urls) w.
Proof. unfold logRequests. simpl. now rewrite <- app_assoc. Qed.

Lemma callPVWatts_run env lat lon t w :
  callPVWatts env {| latitude := lat; longitude := lon; p_tilt := Some t;
                     p_azimuth := Some (if JS.geb lat 0 then 180 else 0) |} w
  = (match service env (requestFor lat lon t) with
     | Some response =>
         if ok response then
           match json response with
           | Some body => Resolved body
           | None => Rejected SyntaxError
           end
         else Rejected HttpError
     | None => Rejected NetworkError
     end, logRequests [requestFor lat lon t] w).
Proof.
  unfold callPVWatts, bind, fetch, requestFor, logRequests. simpl.
  destruct (service env _) as [response |]; [| reflexivity].
  destruct (ok response); simpl; [| reflexivity].
  destruct (json response); reflexivity.
Qed.

Lemma probeAnnual_run env lat lon t w :
  probeAnnual env lat lon t w
  = (Resolved (t, yieldOf env lat lon t), logRequests [requestFor lat lon t] w).
Proof.
  unfold probeAnnual, try_catch, bind. rewrite callPVWatts_run.
  unfold yieldOf, annualOf, payloadOf.
  destruct (service env _) as [response |]; [| reflexivity].
  destruct (ok response); [| reflexivity].
  destruct (json response) as [body |]; [| reflexivity].
  destruct (outputs body); reflexivity.
Qed.

(** Joining the promises of a sweep whose members all resolve. *)
Lemma mapM_run {A B} (f : A -> M B) (g : A -> B) (url : A -> Request) :
  (forall x w, f x w = (Resolved (g x), logRequests [url x] w)) ->
  forall xs w, mapM f xs w = (Resolved (map g xs), logRequests (map url xs) w).
Proof.
  intros Hf. induction xs as [| x xs IH]; intros w; simpl.
  - unfold ret. now rewrite logRequests_nil.
  - unfold bind. rewrite Hf, IH. unfold ret. now rewrite logRequests_cons.
Qed.

(** *** The selection loop *)

Lemma pickBest_cons r results init :
  pickBest (r :: results) init
  = pickBest results (if JS.gtb (snd r) (snd init) then (fst r, snd r) else init).
Proof. reflexivity. Qed.

Lemma pickBest_spec results : forall init,
  (pickBest results init = init \/ In (pickBest results init) results) /\
  snd init <= snd (pickBest results init) /\
  (forall r, In r results -> snd r <= snd (pickBest results init)).
Proof.
  induction results as [| r results IH]; intros init.
  - simpl. split; [now left |]. split; [apply Qle_refl | intros r []].
  - rewrite pickBest_cons.
    destruct (IH (if JS.gtb (snd r) (snd init) then (fst r, snd r) else init))
      as (Hwhich & Hinit & Hall).
    js_cmp (JS.gtb (snd r) (snd init)); simpl in *.
    + split.
      { destruct Hwhich as [-> | Hin]; [right; left; now destruct r | right; now right]. }
      split; [lra |].
      intros r' [<- | Hin]; [exact Hinit | now apply Hall].
    + split.
      { destruct Hwhich as [-> | Hin]; [now left | right; now right]. }
      split; [exact Hinit |].
      intros r' [<- | Hin]; [lra | now apply Hall].
Qed.

Lemma pickBest_keeps_init results : forall init,
  (forall r, In r results -> snd r <= snd init) -> pickBest results init = init.
Proof.
  induction results as [| r results IH]; intros init Hall; [reflexivity |].
  rewrite pickBest_cons.
  js_cmp (JS.gtb (snd r) (snd init)).
  - pose proof (Hall r (or_introl eq_refl)). lra.
  - apply IH. intros r' Hin. apply Hall. now right.
Qed.

(** *** The two paths of [getOptimalTiltFromPVWatts] *)

Definition sweepResults (env : Env) (lat lon : Q) : list (Q * Q) :=
  map (fun t => (t, yieldOf env lat lon t)) (optimalTestAngles lat).

Definition sweepBest (env : Env) (lat lon : Q) : Q * Q :=
  pickBest (sweepResults env lat lon) (Qabs lat, 0).

Lemma getOptimal_hit env lat lon w c :
  validEntry (nowAtCheck env) (tiltCache w !! getCacheKey lat lon) = Some c ->
  getOptimalTiltFromPVWatts env lat lon w
  = (Resolved {| tilt := entry_tilt c; annualProduction := 0; confidence := cached |}, w).
Proof.
  intros Hhit. unfold getOptimalTiltFromPVWatts, bind, getTiltCache.
  now rewrite Hhit.
Qed.

Lemma getOptimal_miss env lat lon w :
  validEntry (nowAtCheck env) (tiltCache w !! getCacheKey lat lon) = None ->
  getOptimalTiltFromPVWatts env lat lon w
  = (Resolved {| tilt := fst (sweepBest env lat lon);
                 annualProduction := snd (sweepBest env lat lon);
                 confidence := live |},
     {| tiltCache :=
          <[getCacheKey lat lon :=
              {| entry_tilt := fst (sweepBest env lat lon);
                 entry_timestamp := nowAtStore env |}]> (tiltCache w);
        winterTiltCache := winterTiltCache w;
        requests := requests w ++ map (requestFor lat lon) (optimalTestAngles lat) |}).
Proof.
  intros Hmiss. unfold getOptimalTiltFromPVWatts, bind at 1, getTiltCache.
  rewrite Hmiss. unfold try_catch, bind.
  rewrite (mapM_run _ _ _ (probeAnnual_run env lat lon)).
  fold (sweepResults env lat lon). unfold sweepBest.
  destruct (pickBest (sweepResults env lat lon) (Qabs lat, 0)) as [bestTilt bestProduction].
  reflexivity.
Qed.

Lemma validEntry_lookup now entry c :
  validEntry now entry = Some c -> entry = Some c.
Proof.
  unfold validEntry. destruct entry as [c' |]; [| discriminate].
  destruct (_ <? _)%Z; [congruence | discriminate].
Qed.

Lemma validEntry_fresh now c :
  (now - entry_timestamp c < CACHE_DURATION)%Z -> validEntry now (Some c) = Some c.
Proof. intros H. unfold validEntry. now apply Z.ltb_lt in H as ->. Qed.

Lemma validEntry_expired now c :
  (CACHE_DURATION <= now - entry_timestamp c)%Z -> validEntry now (Some c) = None.
Proof. intros H. unfold validEntry. now apply Z.ltb_ge in H as ->. Qed.

(** *** The candidates *)

Lemma inRange_iff a : inRange a = true <-> 0 <= a <= 90.
Proof.
  unfold inRange. rewrite andb_true_iff, JS.geb_true, JS.leb_true. tauto.
Qed.

Lemma base_is_tested lat : Qabs lat <= 90 -> In (Qabs lat) (optimalTestAngles lat).
Proof.
  intros H. unfold optimalTestAngles. apply filter_In. split.
  - simpl. tauto.
  - apply inRange_iff. split; [apply Qabs_nonneg | exact H].
Qed.

Lemma In_sweepResults env lat lon r :
  In r (sweepResults env lat lon) ->
  In (fst r) (optimalTestAngles lat) /\ snd r = yieldOf env lat lon (fst r).
Proof.
  unfold sweepResults. rewrite in_map_iff. intros (t & <- & Hin). now split.
Qed.

Lemma inRange_false a : inRange a = false -> a < 0 \/ 90 < a.
Proof.
  unfold inRange. rewrite andb_false_iff, JS.geb_false, JS.leb_false. tauto.
Qed.

Lemma tested_count lat :
  Qabs lat <= 90 -> (3 <= length (optimalTestAngles lat) <= 5)%nat.
Proof.
  intros Hhi. pose proof (Qabs_nonneg lat) as Hlo.
  unfold optimalTestAngles. simpl.
  repeat match goal with
         | |- context [inRange ?a] =>
             let E := fresh "E" in
             destruct (inRange a) eqn:E;
             [apply inRange_iff in E | apply inRange_false in E]
         end;
    simpl; try lia; exfalso;
    repeat match goal with H : _ \/ _ |- _ => destruct H end; lra.
Qed.

(** *** Worlds and services to run the client on *)

Definition emptyWorld : World :=
  {| tiltCache := ∅; winterTiltCache := ∅; requests := [] |}.

Definition okResponse (o : Outputs) : option HttpResponse :=
  Some {| ok := true; json := Some {| outputs := Some o |} |}.

(** A service answering every request, with an annual yield of 6000 at
    tilt 30 and 5000 elsewhere. *)
Definition steadyEnv (checkedAt storedAt : Z) : Env :=
  {| service := fun url =>
       okResponse {| ac_annual := if Qeq_bool (q_tilt url) 30 then 6000 else 5000;
                     ac_monthly := [] |};
     nowAtCheck := checkedAt; nowAtStore := storedAt |}.


(** A service that is down: every fetch fails. *)
Definition downEnv (checkedAt storedAt : Z) : Env :=
  {| service := fun _ => None; nowAtCheck := checkedAt; nowAtStore := storedAt |}.

Lemma steadyEnv_yield a b lat lon t : 0 <= yieldOf (steadyEnv a b) lat lon t.
Proof.
  unfold yieldOf, annualOf, payloadOf. simpl.
  destruct (Qeq_bool t 30); vm_compute; discriminate.
Qed.

(** *** The production-maximizing sweep *)

(** C3, as the code has it: for a latitude within [-90, 90] and no valid
    cache entry, the sweep requests exactly those of the five candidates
    |latitude| - 10, - 5, + 0, + 5, + 10 that lie within [0, 90], in
    that order (a candidate outside is dropped, not clipped: between 3
    and 5 requests), and, the yields read back being non-negative (0 for
    a request that failed), it returns a requested candidate whose yield
    no other requested candidate exceeds.  The order of the requests is
    that of their start; that they run in parallel is not modelled. *)
Theorem C3_production_sweep (env : Env) (w : World) (lat lon : Q) :
  validEntry (nowAtCheck env) (tiltCache w !! getCacheKey lat lon) = None ->
  Qabs lat <= 90 ->
  (forall t, In t (optimalTestAngles lat) -> 0 <= yieldOf env lat lon t) ->
  exists r w',
    getOptimalTiltFromPVWatts env lat lon w = (Resolved r, w') /\
    requests w' =
      requests w ++
      map (requestFor lat lon)
        (List.filter inRange
           [Qabs lat - 10; Qabs lat - 5; Qabs lat; Qabs lat + 5; Qabs lat + 10]) /\
    (3 <= length (optimalTestAngles lat) <= 5)%nat /\
    In (tilt r) (optimalTestAngles lat) /\
    forall t, In t (optimalTestAngles lat) ->
              yieldOf env lat lon t <= yieldOf env lat lon (tilt r).
Proof.
  intros Hmiss Hlat Hpos. rewrite (getOptimal_miss _ _ _ _ Hmiss).
  eexists _, _. split; [reflexivity |]. cbn [requests tilt].
  split; [reflexivity |]. split; [now apply tested_count |].
  unfold sweepBest.
  destruct (pickBest_spec (sweepResults env lat lon) (Qabs lat, 0))
    as ([Hinit | Hin] & _ & Hmax).
  - rewrite Hinit in *. cbn [fst snd] in *.
    split; [now apply base_is_tested |].
    intros t Ht. apply Qle_trans with 0.
    + apply (Hmax (t, yieldOf env lat lon t)).
      unfold sweepResults. now apply (in_map (fun t => (t, yieldOf env lat lon t))).
    + apply Hpos. now apply base_is_tested.
  - apply In_sweepResults in Hin as [Htested Hyield].
    split; [exact Htested |].
    intros t Ht. rewrite <- Hyield.
    apply (Hmax (t, yieldOf env lat lon t)).
    unfold sweepResults. now apply (in_map (fun t => (t, yieldOf env lat lon t))).
Qed.

Lemma C3_production_sweep_witness :
  exists r w',
    getOptimalTiltFromPVWatts (steadyEnv 1000 2000) 35 (-120.5) emptyWorld = (Resolved r, w') /\
    map q_tilt (requests w') = [25; 30; 35; 40; 45] /\
    In (tilt r) (optimalTestAngles 35) /\
    yieldOf (steadyEnv 1000 2000) 35 (-120.5) 45
      <= yieldOf (steadyEnv 1000 2000) 35 (-120.5) (tilt r).
Proof.
  assert (Hmiss : validEntry (nowAtCheck (steadyEnv 1000 2000))
                    (tiltCache emptyWorld !! getCacheKey 35 (-120.5)) = None)
    by reflexivity.
  assert (Hlat : Qabs 35 <= 90) by (vm_compute; discriminate).
  destruct (C3_production_sweep (steadyEnv 1000 2000) emptyWorld 35 (-120.5) Hmiss Hlat
              (fun t _ => steadyEnv_yield 1000 2000 35 (-120.5) t))
    as (r & w' & Hrun & Hreq & _ & Hin & Hmax).
  exists r, w'. split; [exact Hrun |].
  split; [rewrite Hreq; reflexivity |].
  split; [exact Hin |].
  apply Hmax. vm_compute. auto 10.
Defined.

(** C3 fails as stated: at latitude 3 the candidates -7 and -2 are
    dropped, so three tilts are requested (3, 8, 13), not five, and the
    clipped tilt 0 is not among them. *)
Lemma C3_three_requests_at_latitude_3 :
  let w' := snd (getOptimalTiltFromPVWatts (steadyEnv 1000 2000) 3 0 emptyWorld) in
  map q_tilt (requests w') = [3; 8; 13] /\
  length (requests w') <> 5%nat /\
  ~ In 0 (map q_tilt (requests w')).
Proof.
  vm_compute. split; [reflexivity |]. split; [discriminate |].
  intros [H | [H | [H | []]]]; discriminate H.
Qed.

(** The call resolves whatever the service does and whatever the cache
    holds: no rejection leaves [getOptimalTiltFromPVWatts]. *)
Lemma getOptimal_resolves env lat lon w :
  exists r w', getOptimalTiltFromPVWatts env lat lon w = (Resolved r, w').
Proof.
  destruct (validEntry (nowAtCheck env) (tiltCache w !! getCacheKey lat lon))
    as [c |] eqn:Hentry.
  - rewrite (getOptimal_hit _ _ _ _ _ Hentry). now eexists _, _.
  - rewrite (getOptimal_miss _ _ _ _ Hentry). now eexists _, _.
Qed.




(** *** The cache *)

(** C8: after a call that fetched (it returned [live]), a second call
    whose coordinates give the same cache key returns the same tilt,
    tagged [cached], and leaves the world as it was, no request sent,
    when its clock reads less than CACHE_DURATION past the store;
    otherwise it sweeps again, sending the requests of its candidates
    (at least one, the latitude being within [-90, 90]). *)
Theorem C8_cache_round_trip
    (env1 env2 : Env) (w w1 : World) (lat1 lon1 lat2 lon2 : Q)
    (r1 : OptimalTiltResult) :
  getOptimalTiltFromPVWatts env1 lat1 lon1 w = (Resolved r1, w1) ->
  confidence r1 = live ->
  getCacheKey lat2 lon2 = getCacheKey lat1 lon1 ->
  Qabs lat2 <= 90 ->
  if (nowAtCheck env2 - nowAtStore env1 <? CACHE_DURATION)%Z
  then
    getOptimalTiltFromPVWatts env2 lat2 lon2 w1
    = (Resolved {| tilt := tilt r1; annualProduction := 0; confidence := cached |}, w1)
  else
    exists r2 w2,
      getOptimalTiltFromPVWatts env2 lat2 lon2 w1 = (Resolved r2, w2) /\
      confidence r2 = live /\
      requests w2 = requests w1 ++ map (requestFor lat2 lon2) (optimalTestAngles lat2) /\
      (length (requests w1) < length (requests w2))%nat.
Proof.
  intros Hrun Hlive Hkey Hlat.
  destruct (validEntry (nowAtCheck env1) (tiltCache w !! getCacheKey lat1 lon1))
    as [c |] eqn:Hentry.
  { rewrite (getOptimal_hit _ _ _ _ _ Hentry) in Hrun.
    injection Hrun as <- _. discriminate Hlive. }
  rewrite (getOptimal_miss _ _ _ _ Hentry) in Hrun. injection Hrun as <- <-.
  cbn [tilt].
  set (stored := {| entry_tilt := fst (sweepBest env1 lat1 lon1);
                    entry_timestamp := nowAtStore env1 |}).
  set (w1 := {| tiltCache := <[getCacheKey lat1 lon1 := stored]> (tiltCache w);
                winterTiltCache := winterTiltCache w;
                requests := requests w ++ map (requestFor lat1 lon1) (optimalTestAngles lat1) |}).
  assert (Hlookup : tiltCache w1 !! getCacheKey lat2 lon2 = Some stored).
  { rewrite Hkey. unfold w1. cbn [tiltCache]. apply lookup_insert_eq. }
  destruct (nowAtCheck env2 - nowAtStore env1 <? CACHE_DURATION)%Z eqn:Hage.
  - apply Z.ltb_lt in Hage.
    apply (getOptimal_hit env2 lat2 lon2 w1 stored).
    rewrite Hlookup. now apply validEntry_fresh.
  - apply Z.ltb_ge in Hage.
    assert (Hmiss : validEntry (nowAtCheck env2) (tiltCache w1 !! getCacheKey lat2 lon2) = None).
    { rewrite Hlookup. now apply validEntry_expired. }
    rewrite (getOptimal_miss _ _ _ _ Hmiss).
    eexists _, _. split; [reflexivity |]. cbn [confidence requests].
    split; [reflexivity |]. split; [reflexivity |].
    rewrite length_app, length_map.
    pose proof (tested_count lat2 Hlat). lia.
Qed.

Lemma C8_cache_round_trip_witness :
  getCacheKey 35.004 (-120.5049) = getCacheKey 35.001 (-120.5) /\
  (exists r1 w1,
     getOptimalTiltFromPVWatts (steadyEnv 1000 2000) 35.001 (-120.5) emptyWorld
       = (Resolved r1, w1) /\
     getOptimalTiltFromPVWatts (steadyEnv 3000 4000) 35.004 (-120.5049) w1
       = (Resolved {| tilt := tilt r1; annualProduction := 0; confidence := cached |}, w1)) /\
  (exists r1 w1 r2 w2,
     getOptimalTiltFromPVWatts (steadyEnv 1000 2000) 35.001 (-120.5) emptyWorld
       = (Resolved r1, w1) /\
     getOptimalTiltFromPVWatts (steadyEnv 86402000 86403000) 35.004 (-120.5049) w1
       = (Resolved r2, w2) /\
     (length (requests w1) < length (requests w2))%nat).
Proof.
  assert (Hkey : getCacheKey 35.004 (-120.5049) = getCacheKey 35.001 (-120.5))
    by reflexivity.
  assert (Hlat : Qabs 35.004 <= 90) by (vm_compute; discriminate).
  destruct (getOptimal_resolves (steadyEnv 1000 2000) 35.001 (-120.5) emptyWorld)
    as (r1 & w1 & Hrun).
  assert (Hlive : confidence r1 = live).
  { rewrite (getOptimal_miss (steadyEnv 1000 2000) 35.001 (-120.5) emptyWorld eq_refl) in Hrun.
    injection Hrun as <- _. reflexivity. }
  split; [exact Hkey |]. split.
  - exists r1, w1. split; [exact Hrun |].
    exact (C8_cache_round_trip (steadyEnv 1000 2000) (steadyEnv 3000 4000)
             emptyWorld w1 35.001 (-120.5) 35.004 (-120.5049) r1 Hrun Hlive Hkey Hlat).
  - destruct (C8_cache_round_trip (steadyEnv 1000 2000) (steadyEnv 86402000 86403000)
                emptyWorld w1 35.001 (-120.5) 35.004 (-120.5049) r1 Hrun Hlive Hkey Hlat)
      as (r2 & w2 & Hrun2 & _ & _ & Hlen).
    exists r1, w1, r2, w2. repeat split; assumption.
Defined.

(** C10: when no valid cache entry exists and the request of every
    candidate fails, the call resolves with tilt |latitude|, production
    0 and confidence [live]; it stores |latitude| in the cache, and a
    call for the same cache key within the TTL returns it as [cached]. *)
Theorem C10_all_candidates_fail
    (env env2 : Env) (w : World) (lat lon lat2 lon2 : Q) :
  validEntry (nowAtCheck env) (tiltCache w !! getCacheKey lat lon) = None ->
  (forall t, In t (optimalTestAngles lat) -> annualOf env lat lon t = None) ->
  getCacheKey lat2 lon2 = getCacheKey lat lon ->
  (nowAtCheck env2 - nowAtStore env < CACHE_DURATION)%Z ->
  exists w',
    getOptimalTiltFromPVWatts env lat lon w
    = (Resolved {| tilt := Qabs lat; annualProduction := 0; confidence := live |}, w') /\
    tiltCache w' !! getCacheKey lat lon
    = Some {| entry_tilt := Qabs lat; entry_timestamp := nowAtStore env |} /\
    getOptimalTiltFromPVWatts env2 lat2 lon2 w'
    = (Resolved {| tilt := Qabs lat; annualProduction := 0; confidence := cached |}, w').
Proof.
  intros Hmiss Hfail Hkey Hage.
  assert (Hbest : sweepBest env lat lon = (Qabs lat, 0)).
  { unfold sweepBest. apply pickBest_keeps_init.
    intros r Hin. apply In_sweepResults in Hin as [Htested ->].
    unfold yieldOf. rewrite (Hfail _ Htested). cbn. apply Qle_refl. }
  rewrite (getOptimal_miss _ _ _ _ Hmiss), Hbest. cbn [fst snd].
  eexists. split; [reflexivity |]. cbn [tiltCache].
  split; [apply lookup_insert_eq |].
  rewrite (getOptimal_hit env2 lat2 lon2 _
             {| entry_tilt := Qabs lat; entry_timestamp := nowAtStore env |}).
  - reflexivity.
  - cbn [tiltCache]. rewrite Hkey, lookup_insert_eq. now apply validEntry_fresh.
Qed.

Lemma C10_all_candidates_fail_witness :
  exists w',
    getOptimalTiltFromPVWatts (downEnv 1000 2000) (-35) 18.5 emptyWorld
    = (Resolved {| tilt := Qabs (-35); annualProduction := 0; confidence := live |}, w') /\
    length (requests w') = 5%nat /\
    getOptimalTiltFromPVWatts (steadyEnv 3000 4000) (-35.001) 18.5 w'
    = (Resolved {| tilt := Qabs (-35); annualProduction := 0; confidence := cached |}, w').
Proof.
  assert (Hmiss : validEntry (nowAtCheck (downEnv 1000 2000))
                    (tiltCache emptyWorld !! getCacheKey (-35) 18.5) = None)
    by reflexivity.
  assert (Hkey : getCacheKey (-35.001) 18.5 = getCacheKey (-35) 18.5) by reflexivity.
  assert (Hage : (nowAtCheck (steadyEnv 3000 4000) - nowAtStore (downEnv 1000 2000)
                  < CACHE_DURATION)%Z) by reflexivity.
  destruct (C10_all_candidates_fail (downEnv 1000 2000) (steadyEnv 3000 4000)
              emptyWorld (-35) 18.5 (-35.001) 18.5 Hmiss (fun _ _ => eq_refl) Hkey Hage)
    as (w' & Hrun & _ & Hagain).
  exists w'. split; [exact Hrun |]. split; [| exact Hagain].
  rewrite (getOptimal_miss _ _ _ _ Hmiss) in Hrun. injection Hrun as <-.
  reflexivity.
Defined.

(** *** The winter-priority sweep *)

(** What the winter sweep records for a candidate: June and December of
    the monthly series, or 0 and 0 when its request failed. *)
Definition monthlyOf (env : Env) (lat lon tilt : Q) : Candidate :=
  match payloadOf env (requestFor lat lon tilt) with
  | Some o => {| c_tilt := tilt;
                 c_june := nth_error (ac_monthly o) 5;
                 c_dec := nth_error (ac_monthly o) 11 |}
  | None => {| c_tilt := tilt; c_june := Some 0; c_dec := Some 0 |}
  end.

Lemma monthlyOf_tilt env lat lon t : c_tilt (monthlyOf env lat lon t) = t.
Proof. unfold monthlyOf. now destruct (payloadOf env _). Qed.

Lemma probeMonthly_run env lat lon t w :
  probeMonthly env lat lon t w
  = (Resolved (monthlyOf env lat lon t), logRequests [requestFor lat lon t] w).
Proof.
  unfold probeMonthly, try_catch, bind. rewrite callPVWatts_run.
  unfold monthlyOf, payloadOf.
  destruct (service env _) as [response |]; [| reflexivity].
  destruct (ok response); [| reflexivity].
  destruct (json response) as [body |]; [| reflexivity].
  destruct (outputs body); reflexivity.
Qed.

(** The test of the selection loop, spelled out. *)
Lemma validAngle_iff c :
  validAngle c = true <->
  exists june dec, c_june c = Some june /\ c_dec c = Some dec /\ dec <= june /\ 0 < dec.
Proof.
  unfold validAngle, geb_undef, gtb_undef.
  destruct (c_june c) as [j |], (c_dec c) as [d |]; cbn.
  - rewrite andb_true_iff, JS.geb_true, JS.gtb_true. split.
    + intros [? ?]. now exists j, d.
    + intros (j' & d' & [= <-] & [= <-] & ? & ?). now split.
  - split; [discriminate | intros (? & ? & _ & [=] & _)].
  - split; [discriminate | intros (? & ? & [=] & _)].
  - split; [discriminate | intros (? & ? & [=] & _)].
Qed.

(** Steepest first. *)
Definition byTiltDescending (a b : Candidate) : Q := c_tilt b - c_tilt a.

Definition descending (l : list Candidate) : Prop :=
  StronglySorted (fun a b => c_tilt b <= c_tilt a) l.

Lemma insertBy_In {A} (compare : A -> A -> Q) x z l :
  In z (insertBy compare x l) <-> z = x \/ In z l.
Proof.
  induction l as [| y l IH]; simpl.
  - intuition.
  - destruct (JS.leb (compare x y) 0); simpl; [intuition | rewrite IH; intuition].
Qed.

Lemma sortBy_In {A} (compare : A -> A -> Q) z l :
  In z (sortBy compare l) <-> In z l.
Proof.
  induction l as [| y l IH]; simpl; [tauto |].
  rewrite insertBy_In, IH. intuition.
Qed.

Lemma insertBy_descending x l :
  descending l -> descending (insertBy byTiltDescending x l).
Proof.
  unfold descending. induction 1 as [| y l Hsorted IH Hall]; simpl.
  - constructor; constructor.
  - js_cmp (JS.leb (byTiltDescending x y) 0); unfold byTiltDescending in Hcmp.
    + constructor; [now constructor |].
      constructor; [lra |].
      eapply Forall_impl; [exact Hall |]. simpl. intros z Hz. lra.
    + constructor; [exact IH |].
      apply List.Forall_forall. intros z Hz. apply insertBy_In in Hz as [-> | Hz].
      * lra.
      * rewrite List.Forall_forall in Hall. now apply Hall.
Qed.

Lemma sortBy_descending l : descending (sortBy byTiltDescending l).
Proof.
  induction l as [| x l IH]; simpl.
  - constructor.
  - now apply insertBy_descending.
Qed.

Lemma descending_last l lowest :
  descending l -> last l = Some lowest ->
  In lowest l /\ forall c, In c l -> c_tilt lowest <= c_tilt c.
Proof.
  unfold descending. induction 1 as [| x l Hsorted IH Hall]; [discriminate |].
  destruct l as [| y l'].
  - intros [= <-]. split; [now left |]. intros c [<- | []]. apply Qle_refl.
  - intros Hlast. change (last (y :: l') = Some lowest) in Hlast.
    destruct (IH Hlast) as [Hin Hmin]. split; [now right |].
    intros c [<- | Hc]; [| now apply Hmin].
    rewrite List.Forall_forall in Hall. now apply Hall.
Qed.

(** The loop returns the first valid result, which in a descending list
    is the steepest valid one; without a valid result, the default. *)
Lemma pickSteepest_spec l : forall lowest,
  descending l ->
  (In (pickSteepest l lowest) l /\ validAngle (pickSteepest l lowest) = true /\
   forall c, In c l -> validAngle c = true -> c_tilt c <= c_tilt (pickSteepest l lowest))
  \/ (pickSteepest l lowest = lowest /\ forall c, In c l -> validAngle c = false).
Proof.
  unfold descending. intros lowest. induction 1 as [| x l Hsorted IH Hall]; simpl.
  - right. split; [reflexivity | intros c []].
  - destruct (validAngle x) eqn:Hx.
    + left. split; [now left |]. split; [exact Hx |].
      intros c [<- | Hc] _; [apply Qle_refl |].
      rewrite List.Forall_forall in Hall. now apply Hall.
    + destruct IH as [(Hin & Hvalid & Hmax) | (Hdef & Hnone)].
      * left. split; [now right |]. split; [exact Hvalid |].
        intros c [<- | Hc] Hc'; [congruence | now apply Hmax].
      * right. split; [exact Hdef |].
        intros c [<- | Hc]; [exact Hx | now apply Hnone].
Qed.

Definition winterResults (env : Env) (lat lon : Q) : list Candidate :=
  sortBy byTiltDescending (map (monthlyOf env lat lon) (winterTestAngles lat)).

Lemma In_winterResults env lat lon c :
  In c (winterResults env lat lon) <->
  exists t, In t (winterTestAngles lat) /\ c = monthlyOf env lat lon t.
Proof.
  unfold winterResults. rewrite sortBy_In, in_map_iff.
  split; intros (t & H1 & H2); exists t; [now split | now split].
Qed.

Lemma getWinter_miss env lat lon w lowest :
  validEntry (nowAtCheck env) (winterTiltCache w !! getCacheKey lat lon) = None ->
  last (winterResults env lat lon) = Some lowest ->
  let best := pickSteepest (winterResults env lat lon) lowest in
  getWinterPriorityTiltFromPVWatts env lat lon w
  = (Resolved {| w_tilt := c_tilt best; decemberProduction := c_dec best;
                 juneProduction := c_june best; w_confidence := live |},
     {| tiltCache := tiltCache w;
        winterTiltCache :=
          <[getCacheKey lat lon :=
              {| entry_tilt := c_tilt best; entry_timestamp := nowAtStore env |}]>
            (winterTiltCache w);
        requests := requests w ++ map (requestFor lat lon) (winterTestAngles lat) |}).
Proof.
  intros Hmiss Hlast best.
  unfold getWinterPriorityTiltFromPVWatts, bind at 1, getWinterTiltCache.
  rewrite Hmiss. unfold try_catch, bind at 1.
  rewrite (mapM_run _ _ _ (probeMonthly_run env lat lon)).
  fold byTiltDescending. fold (winterResults env lat lon). rewrite Hlast.
  reflexivity.
Qed.

Lemma base_is_winter_tested lat :
  Qabs lat <= 90 -> In (Qabs lat + 0) (winterTestAngles lat).
Proof.
  intros H. unfold winterTestAngles. apply filter_In. split.
  - simpl. tauto.
  - apply inRange_iff. pose proof (Qabs_nonneg lat). split; lra.
Qed.

Lemma last_is_Some {A} (l : list A) x : In x l -> exists y, last l = Some y.
Proof.
  intros Hin. destruct (last l) as [y |] eqn:Hlast; [now exists y |].
  apply last_None in Hlast. subst l. destruct Hin.
Qed.

(** C2, as the code has it: for a latitude within [-90, 90] and no valid
    cache entry, the winter sweep tests the angles |latitude| + 0, 5,
    ..., 25 that lie within [0, 90] and returns the steepest tested angle
    whose June yield is at least its December yield and whose December
    yield is positive; when no tested angle passes that test it returns
    the shallowest tested angle. *)
Theorem C2_winter_priority_selection (env : Env) (w : World) (lat lon : Q) :
  validEntry (nowAtCheck env) (winterTiltCache w !! getCacheKey lat lon) = None ->
  Qabs lat <= 90 ->
  let tested :=
    List.filter inRange (map (fun offset => Qabs lat + offset) [0; 5; 10; 15; 20; 25]) in
  let balanced t := validAngle (monthlyOf env lat lon t) = true in
  exists r w',
    getWinterPriorityTiltFromPVWatts env lat lon w = (Resolved r, w') /\
    w_confidence r = live /\
    In (w_tilt r) tested /\
    ((exists t, In t tested /\ balanced t) ->
       balanced (w_tilt r) /\
       forall t, In t tested -> balanced t -> t <= w_tilt r) /\
    ((forall t, In t tested -> ~ balanced t) ->
       forall t, In t tested -> w_tilt r <= t).
Proof.
  intros Hmiss Hlat tested balanced.
  change tested with (winterTestAngles lat). clear tested.
  assert (Hne : exists c, In c (winterResults env lat lon)).
  { exists (monthlyOf env lat lon (Qabs lat + 0)). apply In_winterResults.
    exists (Qabs lat + 0). split; [now apply base_is_winter_tested | reflexivity]. }
  destruct Hne as (c0 & Hc0). destruct (last_is_Some _ _ Hc0) as (lowest & Hlast).
  rewrite (getWinter_miss _ _ _ _ _ Hmiss Hlast).
  eexists _, _. split; [reflexivity |]. cbn [w_confidence w_tilt].
  split; [reflexivity |].
  pose proof (sortBy_descending (map (monthlyOf env lat lon) (winterTestAngles lat)))
    as Hsorted. fold (winterResults env lat lon) in Hsorted.
  destruct (descending_last _ _ Hsorted Hlast) as [Hlow_in Hlow_min].
  destruct (pickSteepest_spec (winterResults env lat lon) lowest Hsorted)
    as [(Hin & Hvalid & Hmax) | (Hdef & Hnone)].
  - apply In_winterResults in Hin as (tb & Htb & Hbest). rewrite Hbest in *.
    rewrite monthlyOf_tilt in *.
    split; [exact Htb |]. split.
    + intros _. split; [exact Hvalid |].
      intros t Ht Hbal. rewrite <- (monthlyOf_tilt env lat lon t).
      apply Hmax; [| exact Hbal]. apply In_winterResults. now exists t.
    + intros Hnot. destruct (Hnot tb Htb Hvalid).
  - rewrite Hdef.
    apply In_winterResults in Hlow_in as (tl & Htl & Hlow). rewrite Hlow in *.
    rewrite monthlyOf_tilt in *.
    split; [exact Htl |]. split.
    + intros (t & Ht & Hbal). unfold balanced in Hbal.
      rewrite (Hnone (monthlyOf env lat lon t)) in Hbal; [discriminate |].
      apply In_winterResults. now exists t.
    + intros _ t Ht. rewrite <- (monthlyOf_tilt env lat lon t).
      apply Hlow_min. apply In_winterResults. now exists t.
Qed.

(** A service reporting, at every tilt, 400 in June and nothing in
    December; and one where December overtakes June above tilt 45. *)
Definition polarEnv : Env :=
  {| service := fun _ =>
       okResponse {| ac_annual := 3000;
                     ac_monthly := [0; 50; 150; 300; 380; 400; 390; 300; 150; 50; 0; 0] |};
     nowAtCheck := 1000; nowAtStore := 2000 |}.

Definition temperateEnv : Env :=
  {| service := fun url =>
       okResponse {| ac_annual := 6000;
                     ac_monthly := [300; 350; 450; 500; 540; 800 - 10 * q_tilt url;
                                    560; 530; 480; 400; 320; 350] |};
     nowAtCheck := 1000; nowAtStore := 2000 |}.

Lemma C2_winter_priority_selection_witness :
  exists r w',
    getWinterPriorityTiltFromPVWatts temperateEnv 35 0 emptyWorld = (Resolved r, w') /\
    w_tilt r == 45 /\
    validAngle (monthlyOf temperateEnv 35 0 (w_tilt r)) = true.
Proof.
  assert (Hmiss : validEntry (nowAtCheck temperateEnv)
                    (winterTiltCache emptyWorld !! getCacheKey 35 0) = None)
    by reflexivity.
  assert (Hlat : Qabs 35 <= 90) by (vm_compute; discriminate).
  destruct (C2_winter_priority_selection temperateEnv emptyWorld 35 0 Hmiss Hlat)
    as (r & w' & Hrun & _ & _ & Hsome & _).
  exists r, w'. split; [exact Hrun |].
  assert (Hex : exists t,
             In t (List.filter inRange
                     (map (fun offset => Qabs 35 + offset) [0; 5; 10; 15; 20; 25])) /\
             validAngle (monthlyOf temperateEnv 35 0 t) = true).
  { exists 45. split; [vm_compute; auto 10 | reflexivity]. }
  destruct (Hsome Hex) as [Hbal _]. split; [| exact Hbal].
  rewrite (getWinter_miss temperateEnv 35 0 emptyWorld
             (monthlyOf temperateEnv 35 0 35) Hmiss eq_refl) in Hrun.
  injection Hrun as <- _. vm_compute. reflexivity.
Defined.

(** C2 fails as stated: with 400 in June and 0 in December at every
    tilt, June is at least December at the steepest tested angle, 60,
    yet the call at latitude 35 returns the shallowest, 35. *)
Lemma C2_zero_december_is_skipped :
  In 60 (winterTestAngles 35) /\
  c_june (monthlyOf polarEnv 35 0 60) = Some 400 /\
  c_dec (monthlyOf polarEnv 35 0 60) = Some 0 /\
  exists r,
    fst (getWinterPriorityTiltFromPVWatts polarEnv 35 0 emptyWorld) = Resolved r /\
    w_tilt r == 35 /\ w_confidence r = live /\ ~ w_tilt r == 60.
Proof.
  split; [vm_compute; auto 10 |].
  split; [reflexivity |]. split; [reflexivity |].
  eexists. split; [vm_compute; reflexivity |]. cbn [w_tilt w_confidence].
  split; [reflexivity |]. split; [reflexivity | discriminate].
Qed.

End PVWattsFacts.

(** ** The haptic guidance scheduler *)
Module HapticFacts.
Import Haptic.

Definition isConfirmation (c : HapticCall) : bool :=
  match c with
  | NotificationSuccess => true
  | _ => false
  end.

(** The number of confirmation pulses among the calls made. *)
Definition confirmations (calls : list HapticCall) : nat :=
  length (List.filter isConfirmation calls).

(** Events of a stay within the lock threshold, and of a time outside
    it: samples on the respective side, and firings of the timer. *)
Inductive staying (lock : Q) : event -> Prop :=
| staying_tick : staying lock Tick
| staying_sample d : Qabs d <= lock -> staying lock (Sample lock d).

Inductive outside (lock : Q) : event -> Prop :=
| outside_tick : outside lock Tick
| outside_sample d : lock < Qabs d -> outside lock (Sample lock d).

(** What holds of the refs between events: a timer never fires the
    confirmation, and after an enabled run of the effect the locked flag
    tells whether the last deviation was within the lock threshold. *)
Definition consistent (s : State) : Prop :=
  (forall t, intervalRef s = Some t -> fires t <> locked) /\
  (forall p, deps s = Some p -> enabled p = true ->
             isLockedRef s = JS.leb (Qabs (deviation p)) (lockThreshold p)).

Lemma confirmations_app a b :
  confirmations (a ++ b) = (confirmations a + confirmations b)%nat.
Proof. unfold confirmations. now rewrite List.filter_app, length_app. Qed.

Lemma run_app es1 : forall s es2,
  run s (es1 ++ es2)
  = (fst (run (fst (run s es1)) es2), snd (run s es1) ++ snd (run (fst (run s es1)) es2)).
Proof.
  induction es1 as [| e es1 IH]; intros s es2; simpl.
  - now destruct (run s es2).
  - destruct (step s e) as [s1 calls1]. rewrite IH.
    destruct (run s1 es1) as [s2 calls2]. simpl.
    destruct (run s2 es2) as [s3 calls3]. simpl. now rewrite app_assoc.
Qed.

Lemma run_cons s e es :
  run s (e :: es)
  = (fst (run (fst (step s e)) es), snd (step s e) ++ snd (run (fst (step s e)) es)).
Proof.
  simpl. destruct (step s e) as [s1 calls1]. simpl. now destruct (run s1 es).
Qed.

Lemma HapticIntensity_eqb_eq a b : HapticIntensity_eqb a b = true <-> a = b.
Proof.
  destruct a, b; simpl; split; intros H; first [reflexivity | discriminate H].
Qed.

Lemma getIntensity_within lock d :
  JS.leb (Qabs d) lock = true -> getIntensity lock d = locked.
Proof. intros H. unfold getIntensity. now rewrite H. Qed.

Lemma getIntensity_beyond lock d :
  JS.leb (Qabs d) lock = false -> getIntensity lock d <> locked.
Proof.
  intros H. unfold getIntensity. rewrite H.
  repeat match goal with |- context [JS.leb ?a ?b] => destruct (JS.leb a b) end;
    discriminate.
Qed.

Lemma triggerHaptic_confirmations intensity :
  intensity <> locked -> confirmations (triggerHaptic intensity) = 0%nat.
Proof. destruct intensity; intros H; first [reflexivity | now destruct H]. Qed.

Lemma sameDeps_within p q :
  sameDeps p q = true ->
  enabled p = enabled q /\
  JS.leb (Qabs (deviation p)) (lockThreshold p)
  = JS.leb (Qabs (deviation q)) (lockThreshold q).
Proof.
  unfold sameDeps. rewrite !andb_true_iff, !Qeq_bool_iff.
  intros [[He Hd] Hl]. split; [now apply Bool.eqb_prop |].
  unfold JS.leb. now rewrite Hd, Hl.
Qed.

(** A timer fires one of the three periodic intensities. *)
Lemma tick_confirmations s :
  consistent s -> fst (tick s) = s /\ confirmations (snd (tick s)) = 0%nat.
Proof.
  intros [Htimer _]. unfold tick. destruct (intervalRef s) as [t |] eqn:Ht; simpl.
  - split; [reflexivity |]. apply triggerHaptic_confirmations. now apply Htimer.
  - now split.
Qed.

(** An enabled render fires the confirmation exactly when the deviation
    is within the lock threshold and the locked flag is down; afterwards
    the flag tells whether the deviation is within the threshold. *)
Lemma render_confirmations opts s :
  consistent s -> enabled opts = true ->
  let inside := JS.leb (Qabs (deviation opts)) (lockThreshold opts) in
  confirmations (snd (render opts s))
  = (if inside && negb (isLockedRef s) then 1 else 0)%nat /\
  isLockedRef (fst (render opts s)) = inside.
Proof.
  intros [Htimer Hflag] Hen inside. unfold render.
  assert (Hsame : forall p, deps s = Some p -> sameDeps p opts = true ->
                    isLockedRef s = inside).
  { intros p Hp Hs. apply sameDeps_within in Hs as [He Hin].
    rewrite (Hflag p Hp); [exact Hin | congruence]. }
  assert (Hrun : forall s1, isLockedRef s1 = isLockedRef s ->
            confirmations (snd (effect opts s1))
            = (if inside && negb (isLockedRef s) then 1 else 0)%nat /\
            isLockedRef (fst (effect opts s1)) = inside).
  { intros s1 Hs1. unfold effect. rewrite Hen, Hs1. cbn [negb].
    destruct inside eqn:Hinside; subst inside.
    - rewrite (getIntensity_within _ _ Hinside).
      destruct (isLockedRef s), (lastIntensityRef s1); split; reflexivity.
    - pose proof (getIntensity_beyond _ _ Hinside) as Hne.
      destruct (HapticIntensity_eqb (getIntensity (lockThreshold opts) (deviation opts)) locked)
        eqn:Heq; [now apply HapticIntensity_eqb_eq in Heq |].
      cbn [andb negb].
      destruct (negb (HapticIntensity_eqb _ (lastIntensityRef s1))); [| split; reflexivity].
      destruct (intervalMs _) as [ms |]; [| split; reflexivity].
      destruct (ms =? 0)%Z; [split; reflexivity |].
      split; [now apply triggerHaptic_confirmations | reflexivity]. }
  destruct (deps s) as [p |] eqn:Hdeps.
  - destruct (sameDeps p opts) eqn:Hs; cbn [negb].
    + cbn [fst snd]. rewrite (Hsame p eq_refl Hs).
      split; [now destruct inside | reflexivity].
    + destruct (Hrun (if cleanup s then clearTimer s else s)) as [Hc Hl];
        [now destruct (cleanup s) |].
      destruct (effect opts _) as [s2 calls]. now split.
  - destruct (Hrun (if cleanup s then clearTimer s else s)) as [Hc Hl];
      [now destruct (cleanup s) |].
    destruct (effect opts _) as [s2 calls]. now split.
Qed.

Lemma consistent_initial : consistent Haptic.initial.
Proof. split; intros ? [=]. Qed.

Lemma consistent_effect opts s :
  (forall t, intervalRef s = Some t -> fires t <> locked) ->
  forall t, intervalRef (fst (effect opts s)) = Some t -> fires t <> locked.
Proof.
  intros Htimer t. unfold effect.
  destruct (negb (enabled opts)); [intros [=] |].
  destruct (_ && _); [intros [=] |].
  destruct (negb (HapticIntensity_eqb _ (lastIntensityRef s))); [| apply Htimer].
  destruct (intervalMs _) as [ms |] eqn:Hms; [| intros [=]].
  destruct (ms =? 0)%Z; [intros [=] |].
  cbn [fst intervalRef]. intros [= <-]. cbn [fires].
  intros Hl. rewrite Hl in Hms. discriminate Hms.
Qed.

Lemma consistent_render opts s : consistent s -> consistent (fst (render opts s)).
Proof.
  intros Hs. pose proof Hs as [Htimer Hflag]. unfold render.
  assert (Hrun : forall s1,
            (forall t, intervalRef s1 = Some t -> fires t <> locked) ->
            isLockedRef s1 = isLockedRef s ->
            consistent (setDeps opts (fst (effect opts s1)))).
  { intros s1 Ht1 Hl1. split.
    - intros t. cbn [setDeps intervalRef]. now apply consistent_effect.
    - intros p [= <-] Hen. cbn [setDeps isLockedRef].
      unfold effect. rewrite Hen, Hl1. cbn [negb].
      destruct (JS.leb (Qabs (deviation opts)) (lockThreshold opts)) eqn:Hinside.
      + rewrite (getIntensity_within _ _ Hinside).
        destruct (isLockedRef s), (lastIntensityRef s1); reflexivity.
      + pose proof (getIntensity_beyond _ _ Hinside) as Hne.
        destruct (HapticIntensity_eqb (getIntensity (lockThreshold opts) (deviation opts)) locked)
          eqn:Heq; [now apply HapticIntensity_eqb_eq in Heq |].
        cbn [andb negb].
        destruct (negb (HapticIntensity_eqb _ (lastIntensityRef s1))); [| reflexivity].
        destruct (intervalMs _) as [ms |]; [| reflexivity].
        now destruct (ms =? 0)%Z. }
  assert (Hclear : forall t, intervalRef (if cleanup s then clearTimer s else s) = Some t ->
                             fires t <> locked).
  { destruct (cleanup s); [intros t [=] | exact Htimer]. }
  assert (Hkeep : isLockedRef (if cleanup s then clearTimer s else s) = isLockedRef s)
    by now destruct (cleanup s).
  destruct (deps s) as [p |] eqn:Hdeps.
  - destruct (sameDeps p opts); cbn [negb]; [exact Hs |].
    specialize (Hrun _ Hclear Hkeep).
    now destruct (effect opts _).
  - specialize (Hrun _ Hclear Hkeep). now destruct (effect opts _).
Qed.

Lemma consistent_step s e : consistent s -> consistent (fst (step s e)).
Proof.
  intros Hs. destruct e as [opts |]; simpl.
  - now apply consistent_render.
  - now rewrite (proj1 (tick_confirmations s Hs)).
Qed.

Lemma consistent_run es : forall s, consistent s -> consistent (fst (run s es)).
Proof.
  induction es as [| e es IH]; intros s Hs; [exact Hs |].
  rewrite run_cons. cbn [fst]. apply IH. now apply consistent_step.
Qed.

Lemma sample_within lock d s :
  consistent s -> Qabs d <= lock ->
  confirmations (snd (step s (Sample lock d)))
  = (if isLockedRef s then 0 else 1)%nat /\
  isLockedRef (fst (step s (Sample lock d))) = true.
Proof.
  intros Hs Hd. apply JS.leb_true in Hd.
  destruct (render_confirmations
              {| enabled := true; deviation := d; lockThreshold := lock |} s Hs eq_refl)
    as [Hc Hl].
  cbn [deviation lockThreshold] in Hc, Hl. rewrite Hd in Hc, Hl.
  split; [| exact Hl]. unfold Sample, step. rewrite Hc. now destruct (isLockedRef s).
Qed.

Lemma sample_outside lock d s :
  consistent s -> lock < Qabs d ->
  confirmations (snd (step s (Sample lock d))) = 0%nat /\
  isLockedRef (fst (step s (Sample lock d))) = false.
Proof.
  intros Hs Hd. apply JS.leb_false in Hd.
  destruct (render_confirmations
              {| enabled := true; deviation := d; lockThreshold := lock |} s Hs eq_refl)
    as [Hc Hl].
  cbn [deviation lockThreshold] in Hc, Hl. rewrite Hd in Hc, Hl.
  split; [exact Hc | exact Hl].
Qed.

(** While the samples stay within the threshold nothing confirms again. *)
Lemma stay_run lock stay : forall s,
  consistent s -> isLockedRef s = true -> Forall (staying lock) stay ->
  confirmations (snd (run s stay)) = 0%nat /\ isLockedRef (fst (run s stay)) = true.
Proof.
  induction stay as [| e stay IH]; intros s Hs Hl Hall; [now split |].
  inversion Hall as [| ? ? He Hrest]; subst.
  rewrite run_cons. cbn [fst snd]. rewrite confirmations_app.
  pose proof (consistent_step s e Hs) as Hs'.
  assert (Hstep : confirmations (snd (step s e)) = 0%nat /\
                  isLockedRef (fst (step s e)) = true).
  { destruct He as [| d Hd].
    - destruct (tick_confirmations s Hs) as [Hsame Hc]. cbn [step].
      rewrite Hsame. now split.
    - destruct (sample_within lock d s Hs Hd) as [Hc Hl']. rewrite Hl in Hc. now split. }
  destruct Hstep as [Hc Hl']. destruct (IH _ Hs' Hl' Hrest) as [Hc' Hl''].
  rewrite Hc, Hc'. now split.
Qed.

(** Outside the threshold nothing confirms, and the locked flag is down. *)
Lemma gap_run lock gap : forall s,
  consistent s -> isLockedRef s = false -> Forall (outside lock) gap ->
  confirmations (snd (run s gap)) = 0%nat /\ isLockedRef (fst (run s gap)) = false.
Proof.
  induction gap as [| e gap IH]; intros s Hs Hl Hall; [now split |].
  inversion Hall as [| ? ? He Hrest]; subst.
  rewrite run_cons. cbn [fst snd]. rewrite confirmations_app.
  pose proof (consistent_step s e Hs) as Hs'.
  assert (Hstep : confirmations (snd (step s e)) = 0%nat /\
                  isLockedRef (fst (step s e)) = false).
  { destruct He as [| d Hd].
    - destruct (tick_confirmations s Hs) as [Hsame Hc]. cbn [step].
      rewrite Hsame. now split.
    - now apply sample_outside. }
  destruct Hstep as [Hc Hl']. destruct (IH _ Hs' Hl' Hrest) as [Hc' Hl''].
  rewrite Hc, Hc'. now split.
Qed.

(** Entering the threshold and staying: one confirmation. *)
Lemma entry_run lock d stay s :
  consistent s -> isLockedRef s = false -> Qabs d <= lock ->
  Forall (staying lock) stay ->
  confirmations (snd (run s (Sample lock d :: stay))) = 1%nat /\
  isLockedRef (fst (run s (Sample lock d :: stay))) = true.
Proof.
  intros Hs Hl Hd Hstay. rewrite run_cons. cbn [fst snd]. rewrite confirmations_app.
  destruct (sample_within lock d s Hs Hd) as [Hc Hl']. rewrite Hl in Hc.
  destruct (stay_run lock stay _ (consistent_step s _ Hs) Hl' Hstay) as [Hc' Hl''].
  rewrite Hc, Hc'. now split.
Qed.

(** Leaving the threshold and staying out: no confirmation. *)
Lemma exit_run lock d gap s :
  consistent s -> lock < Qabs d -> Forall (outside lock) gap ->
  confirmations (snd (run s (Sample lock d :: gap))) = 0%nat /\
  isLockedRef (fst (run s (Sample lock d :: gap))) = false.
Proof.
  intros Hs Hd Hgap. rewrite run_cons. cbn [fst snd]. rewrite confirmations_app.
  destruct (sample_outside lock d s Hs Hd) as [Hc Hl'].
  destruct (gap_run lock gap _ (consistent_step s _ Hs) Hl' Hgap) as [Hc' Hl''].
  rewrite Hc, Hc'. now split.
Qed.

(** The samples so far left the scheduler outside the lock threshold:
    either nothing but outside samples and timer firings came since the
    mount, or, after events of any kind, a sample outside the threshold
    came, followed by nothing but such samples and firings. *)
Definition endsOutside (lock : Q) (before : list event) : Prop :=
  Forall (outside lock) before \/
  exists earlier d out,
    before = earlier ++ Sample lock d :: out /\
    lock < Qabs d /\ Forall (outside lock) out.

Lemma endsOutside_flag_down lock before :
  endsOutside lock before -> isLockedRef (fst (run Haptic.initial before)) = false.
Proof.
  intros [Hall | (earlier & d & out & -> & Hd & Hout)].
  - now apply (gap_run lock before Haptic.initial consistent_initial).
  - rewrite run_app. cbn [fst].
    apply (exit_run lock d out); [| exact Hd | exact Hout].
    apply consistent_run, consistent_initial.
Qed.

(** C6: once the samples have left the scheduler outside the lock
    threshold (or at the start), a sample entering the threshold followed
    by any stay within it (further samples within the threshold, firings
    of the timer) makes exactly one confirmation pulse; leaving and
    staying outside makes none; and a later re-entry makes exactly one
    more. *)
Theorem C6_one_confirmation_per_entry
    (lock : Q) (before stay1 gap stay2 : list event) (d0 dout d1 : Q) :
  endsOutside lock before ->
  Qabs d0 <= lock -> Forall (staying lock) stay1 ->
  lock < Qabs dout -> Forall (outside lock) gap ->
  Qabs d1 <= lock -> Forall (staying lock) stay2 ->
  let s := fst (run Haptic.initial before) in
  let first := Sample lock d0 :: stay1 in
  let away := Sample lock dout :: gap in
  let again := Sample lock d1 :: stay2 in
  confirmations (snd (run s first)) = 1%nat /\
  confirmations (snd (run s (first ++ away))) = 1%nat /\
  confirmations (snd (run s ((first ++ away) ++ again))) = 2%nat.
Proof.
  intros Hbefore Hd0 Hstay1 Hdout Hgap Hd1 Hstay2 s first away again.
  assert (Hl : isLockedRef s = false) by now apply (endsOutside_flag_down lock).
  assert (Hs : consistent s) by (apply consistent_run, consistent_initial).
  destruct (entry_run lock d0 stay1 s Hs Hl Hd0 Hstay1) as [Hc1 Hl1].
  fold first in Hc1, Hl1.
  pose proof (consistent_run first s Hs) as Hs1.
  destruct (exit_run lock dout gap _ Hs1 Hdout Hgap) as [Hc2 Hl2].
  fold away in Hc2, Hl2.
  pose proof (consistent_run away _ Hs1) as Hs2.
  destruct (entry_run lock d1 stay2 _ Hs2 Hl2 Hd1 Hstay2) as [Hc3 _].
  fold again in Hc3.
  split; [exact Hc1 |].
  assert (Hboth : confirmations (snd (run s (first ++ away))) = 1%nat).
  { rewrite run_app. cbn [snd]. rewrite confirmations_app, Hc1, Hc2. reflexivity. }
  split; [exact Hboth |].
  rewrite (run_app (first ++ away)). cbn [snd]. rewrite confirmations_app, Hboth.
  rewrite run_app. cbn [fst]. rewrite Hc3. reflexivity.
Qed.

Lemma C6_one_confirmation_per_entry_witness :
  confirmations
    (snd (run (fst (run Haptic.initial [Sample 0.5 8; Tick; Sample 0.5 1.5]))
            [Sample 0.5 0.4; Sample 0.5 0.3; Tick; Sample 0.5 0.2;
             Sample 0.5 0.1; Sample 0.5 0; Sample 0.5 0.45])) = 1%nat /\
  confirmations
    (snd (run (fst (run Haptic.initial [Sample 0.5 8; Tick; Sample 0.5 1.5]))
            (([Sample 0.5 0.4; Sample 0.5 0.3; Tick; Sample 0.5 0.2;
               Sample 0.5 0.1; Sample 0.5 0; Sample 0.5 0.45]
              ++ [Sample 0.5 0.7; Tick; Sample 0.5 3])
             ++ [Sample 0.5 (-0.2); Sample 0.5 0.1]))) = 2%nat.
Proof.
  assert (Hin : forall d, Qle_bool (Qabs d) 0.5 = true -> Qabs d <= 0.5)
    by (intros d; apply Qle_bool_iff).
  assert (Hout : forall d, Qle_bool (Qabs d) 0.5 = false -> 0.5 < Qabs d)
    by (intros d; apply JS.leb_false).
  destruct (C6_one_confirmation_per_entry 0.5
              [Sample 0.5 8; Tick; Sample 0.5 1.5]
              [Sample 0.5 0.3; Tick; Sample 0.5 0.2; Sample 0.5 0.1;
               Sample 0.5 0; Sample 0.5 0.45]
              [Tick; Sample 0.5 3]
              [Sample 0.5 0.1]
              0.4 0.7 (-0.2))
    as (H1 & _ & H3).
  - left. repeat constructor; now apply Hout.
  - now apply Hin.
  - repeat constructor; now apply Hin.
  - now apply Hout.
  - repeat constructor; now apply Hout.
  - now apply Hin.
  - repeat constructor; now apply Hin.
  - split; [exact H1 | exact H3].
Defined.

(** *** The periodic timer *)

(** A sample that changes the deviation but not the intensity runs the
    cleanup of the previous effect, which clears the timer, and the
    effect does not start a new one. *)
Lemma same_intensity_sample_clears_timer lock d s p :
  deps s = Some p ->
  sameDeps p {| enabled := true; deviation := d; lockThreshold := lock |} = false ->
  cleanup s = true ->
  getIntensity lock d = lastIntensityRef s ->
  getIntensity lock d <> locked ->
  intervalRef (fst (step s (Sample lock d))) = None /\
  snd (step s (Sample lock d)) = [].
Proof.
  intros Hdeps Hchanged Hcleanup Hsame Hne.
  unfold Sample, step, render. rewrite Hdeps, Hchanged, Hcleanup. cbn [negb].
  unfold effect. cbn [enabled negb deviation lockThreshold clearTimer lastIntensityRef].
  destruct (HapticIntensity_eqb (getIntensity lock d) locked) eqn:Heq;
    [now apply HapticIntensity_eqb_eq in Heq |].
  cbn [andb]. rewrite Hsame.
  rewrite (proj2 (HapticIntensity_eqb_eq _ _) eq_refl). cbn [negb].
  split; reflexivity.
Qed.

(** Without a timer, time passing makes no pulse. *)
Lemma idle_ticks s n : intervalRef s = None -> run s (repeat Tick n) = (s, []).
Proof.
  intros Hnone. induction n as [| n IH]; [reflexivity |].
  cbn [repeat]. rewrite run_cons. cbn [step]. unfold tick. rewrite Hnone.
  cbn [fst snd]. now rewrite IH.
Qed.

(** C7 fails on the code: the first sample, at deviation 8, fires the
    immediate pulse and starts the 500 ms timer; the next sample, at
    deviation 7 and still approaching, leaves no timer, and no pulse
    follows. *)
Theorem C7_timer_cleared_by_next_sample :
  let first := run Haptic.initial [Sample 0.5 8] in
  let next := run (fst first) [Sample 0.5 7; Tick; Tick; Tick] in
  snd first = [ImpactLight] /\
  intervalRef (fst first) = Some {| fires := approaching; every := 500 |} /\
  getIntensity 0.5 8 = approaching /\
  getIntensity 0.5 7 = approaching /\
  intervalRef (fst next) = None /\
  snd next = [].
Proof.
  cbv zeta.
  assert (Hfirst : run Haptic.initial [Sample 0.5 8]
                   = ({| intervalRef := Some {| fires := approaching; every := 500 |};
                         lastIntensityRef := approaching; isLockedRef := false;
                         cleanup := true;
                         deps := Some {| enabled := true; deviation := 8;
                                         lockThreshold := 0.5 |} |},
                      [ImpactLight])) by reflexivity.
  rewrite Hfirst. cbn [fst snd].
  split; [reflexivity |]. split; [reflexivity |].
  split; [reflexivity |]. split; [reflexivity |].
  rewrite run_cons.
  set (s1 := {| intervalRef := Some {| fires := approaching; every := 500 |};
                lastIntensityRef := approaching; isLockedRef := false;
                cleanup := true;
                deps := Some {| enabled := true; deviation := 8;
                                lockThreshold := 0.5 |} |}).
  destruct (same_intensity_sample_clears_timer 0.5 7 s1
              {| enabled := true; deviation := 8; lockThreshold := 0.5 |})
    as [Hnone Hquiet]; try reflexivity; [discriminate |].
  rewrite Hquiet. change [Tick; Tick; Tick] with (repeat Tick 3).
  rewrite (idle_ticks _ 3 Hnone). cbn [fst snd]. split; [exact Hnone | reflexivity].
Qed.

End HapticFacts.

(* ===================================================================== *)
(** * Part III: further properties of the code *)
(* ===================================================================== *)

(** ** Circular arithmetic and the heading accumulator *)
Module CompassFacts.
Import Compass AlignmentStatus AngleFacts.

(** An integer strictly between two integers, read off the rationals. *)
Lemma between_Z (lo n hi : Z) :
  inject_Z lo < inject_Z n < inject_Z hi -> (lo < n < hi)%Z.
Proof. rewrite <- !Zlt_Qlt. tauto. Qed.

Lemma rem_360_congruent a : exists j : Z, JS.rem a 360 == a + 360 * inject_Z j.
Proof.
  exists (- JS.trunc (a / 360))%Z. unfold JS.rem. rewrite inject_Z_opp. ring.
Qed.

Lemma normalizeAngle_congruent a :
  exists j : Z, normalizeAngle a == a + 360 * inject_Z j.
Proof.
  unfold normalizeAngle.
  destruct (rem_360_congruent a) as [j1 H1].
  destruct (rem_360_congruent (JS.rem a 360 + 360)) as [j2 H2].
  exists (j1 + 1 + j2)%Z. rewrite H2, H1, !inject_Z_plus.
  change (inject_Z 1) with 1. ring.
Qed.

(** Two bearings in [0, 360) that differ by whole turns are equal. *)
Lemma same_bearing x y (n : Z) :
  0 <= x < 360 -> 0 <= y < 360 -> x == y + 360 * inject_Z n -> x == y.
Proof.
  intros Hx Hy Hn.
  assert (Hz : (-1 < n < 1)%Z).
  { apply between_Z. change (inject_Z (-1)) with (-1 # 1).
    change (inject_Z 1) with 1. split; lra. }
  assert (n = 0%Z) as -> by lia.
  rewrite Hn. change (inject_Z 0) with 0. ring.
Qed.

(** X1: [normalizeAngle] returns a bearing in [0, 360) that differs
    from its argument by whole turns, and adding whole turns to the
    argument does not change it. *)
Theorem X1_normalizeAngle_is_the_bearing (a : Q) (k : Z) :
  0 <= normalizeAngle a < 360 /\
  (exists j : Z, normalizeAngle a == a + 360 * inject_Z j) /\
  normalizeAngle (a + 360 * inject_Z k) == normalizeAngle a /\
  normalizeAngle (normalizeAngle a) == normalizeAngle a.
Proof.
  split; [apply normalizeAngle_range |].
  split; [apply normalizeAngle_congruent |].
  destruct (normalizeAngle_congruent a) as [j Hj]. split.
  - destruct (normalizeAngle_congruent (a + 360 * inject_Z k)) as [j' Hj'].
    apply (same_bearing _ _ (j' + k - j)%Z); try apply normalizeAngle_range.
    rewrite Hj', Hj. unfold Z.sub.
    rewrite !inject_Z_plus, inject_Z_opp. ring.
  - destruct (normalizeAngle_congruent (normalizeAngle a)) as [j' Hj'].
    apply (same_bearing _ _ j'); try apply normalizeAngle_range. exact Hj'.
Qed.

(** The three cases of [shortestDelta]. *)
Lemma shortestDelta_cases from to :
  (180 < to - from /\ shortestDelta from to == to - from - 360) \/
  (to - from < -180 /\ shortestDelta from to == to - from + 360) \/
  (-180 <= to - from <= 180 /\ shortestDelta from to == to - from).
Proof.
  unfold shortestDelta.
  js_cmp (JS.gtb (to - from) 180).
  - js_cmp (JS.ltb (to - from - 360) (-180)); [lra |].
    left. split; [exact Hcmp | reflexivity].
  - js_cmp (JS.ltb (to - from) (-180)).
    + right. left. split; [exact Hcmp0 | reflexivity].
    + right. right. split; [split; lra | reflexivity].
Qed.

(** X2: [shortestDelta] is 0 between equal angles, changes sign when
    its arguments are swapped, and is the difference of its arguments up
    to one turn. *)
Theorem X2_shortestDelta_is_antisymmetric (a b : Q) :
  shortestDelta a a == 0 /\
  shortestDelta b a == - shortestDelta a b /\
  (shortestDelta a b == b - a \/
   shortestDelta a b == b - a - 360 \/
   shortestDelta a b == b - a + 360).
Proof.
  split; [| split].
  - destruct (shortestDelta_cases a a) as [[H _] | [[H _] | [_ H]]]; try lra.
  - destruct (shortestDelta_cases a b) as [[H1 E1] | [[H1 E1] | [H1 E1]]];
      destruct (shortestDelta_cases b a) as [[H2 E2] | [[H2 E2] | [H2 E2]]];
      rewrite E1, E2; lra.
  - destruct (shortestDelta_cases a b) as [[_ E] | [[_ E] | [_ E]]]; auto.
Qed.

(** X3: the cross product is orthogonal to both of its arguments, and
    swapping the arguments negates it. *)
Theorem X3_cross_is_orthogonal (ax ay az bx by_ bz : Q) :
  let '(cx, cy, cz) := cross ax ay az bx by_ bz in
  let '(dx, dy, dz) := cross bx by_ bz ax ay az in
  dot cx cy cz ax ay az == 0 /\
  dot cx cy cz bx by_ bz == 0 /\
  dx == - cx /\ dy == - cy /\ dz == - cz.
Proof.
  unfold cross, dot. repeat split; ring.
Qed.

(** The accumulator is what the state publishes as [rawHeading]. *)
Definition synced (h : Hook) : Prop :=
  rawHeading (fst h) = continuousAngleRef (snd h).

Lemma SMOOTHING_FACTOR_range android :
  0 < SMOOTHING_FACTOR android <= 1 # 4.
Proof. destruct android; split; vm_compute; congruence. Qed.

(** One reading moves the accumulator by the smoothed shortest delta, or
    not at all. *)
Lemma applyReading_continuous android t r raw h :
  initializedRef (snd h) = true ->
  let delta := shortestDelta (normalizeAngle (continuousAngleRef (snd h))) raw in
  continuousAngleRef (snd (applyReading android t r raw h))
  = (if JS.gtb (Qabs delta) 0.3
     then continuousAngleRef (snd h) + delta * SMOOTHING_FACTOR android
     else continuousAngleRef (snd h)) /\
  rawHeading (fst (applyReading android t r raw h))
  = continuousAngleRef (snd (applyReading android t r raw h)).
Proof.
  destruct h as [st refs]. cbn [snd fst]. intros Hinit.
  unfold applyReading. rewrite Hinit. cbn [negb snd fst continuousAngleRef rawHeading].
  split; reflexivity.
Qed.

Lemma applyReading_step_bound android t r raw h :
  initializedRef (snd h) = true -> 0 <= raw < 360 ->
  Qabs (continuousAngleRef (snd (applyReading android t r raw h))
        - continuousAngleRef (snd h))
  <= 180 * SMOOTHING_FACTOR android.
Proof.
  intros Hinit Hraw.
  destruct (applyReading_continuous android t r raw h Hinit) as [-> _].
  pose proof (SMOOTHING_FACTOR_range android) as [Hf0 Hf1].
  assert (Hd : -180 <= shortestDelta (normalizeAngle (continuousAngleRef (snd h))) raw
               <= 180).
  { apply shortestDelta_range.
    pose proof (normalizeAngle_range (continuousAngleRef (snd h))). split; lra. }
  set (delta := shortestDelta _ raw) in *.
  set (f := SMOOTHING_FACTOR android) in *.
  apply Qabs_Qle_condition.
  destruct (JS.gtb (Qabs delta) 0.3).
  - assert (E : continuousAngleRef (snd h) + delta * f - continuousAngleRef (snd h)
                == delta * f) by ring.
    rewrite E. split.
    + assert (0 <= (delta + 180) * f) by (apply Qmult_le_0_compat; lra). lra.
    + assert (0 <= (180 - delta) * f) by (apply Qmult_le_0_compat; lra). lra.
  - assert (E : continuousAngleRef (snd h) - continuousAngleRef (snd h) == 0) by ring.
    rewrite E. split; lra.
Qed.

Section WithMath.
Variable Math_sqrt : Q -> Q.
Variable Math_atan2 : Q -> Q -> Q.
Variable deg_per_rad : Q.
Variable android : bool.

Let step := Compass.step Math_sqrt Math_atan2 deg_per_rad android.
Let run := Compass.run Math_sqrt Math_atan2 deg_per_rad android.

Lemma heading_is_normalized accel mag :
  0 <= calculateTiltCompensatedHeading Math_sqrt Math_atan2 deg_per_rad accel mag < 360.
Proof.
  unfold calculateTiltCompensatedHeading.
  destruct (normalize Math_sqrt _ _ _) as [[gx gy] gz].
  destruct (cross _ _ _ gx gy gz) as [[ex ey] ez].
  destruct (normalize Math_sqrt ex ey ez) as [[ex' ey'] ez'].
  destruct (cross gx gy gz ex' ey' ez') as [[nx ny] nz].
  destruct (normalize Math_sqrt nx ny nz) as [[nx' ny'] nz'].
  apply normalizeAngle_range.
Qed.

(** What a step leaves or makes of the state: unchanged heading data, or
    the result of one reading with a normalised compass heading. *)
Lemma step_cases h e :
  (fst (step h e) = fst h /\
   continuousAngleRef (snd (step h e)) = continuousAngleRef (snd h) /\
   smoothedTiltRef (snd (step h e)) = smoothedTiltRef (snd h) /\
   initializedRef (snd (step h e)) = initializedRef (snd h)) \/
  (rawHeading (fst (step h e)) = rawHeading (fst h) /\
   heading (fst (step h e)) = heading (fst h) /\
   tilt (fst (step h e)) = tilt (fst h) /\
   roll (fst (step h e)) = roll (fst h) /\
   snd (step h e) = snd h) \/
  (exists t r raw h0,
     0 <= raw < 360 /\ step h e = applyReading android t r raw h0 /\
     continuousAngleRef (snd h0) = continuousAngleRef (snd h) /\
     initializedRef (snd h0) = initializedRef (snd h) /\
     accelRef (snd h0) <> None /\ magRef (snd h0) <> None).
Proof.
  destruct h as [st refs]. unfold step. destruct e as [a m | d | d]; cbn [Compass.step].
  - right. left. unfold setup, setAvailability.
    destruct (negb a); [cbn; repeat split |]. destruct (negb m); cbn; repeat split.
  - unfold handleAccelerometer, updateHeading, setAccel. cbn [accelRef magRef].
    destruct (magRef refs) as [mag |] eqn:Hmag.
    + right. right. eexists _, _, _, _. split; [apply heading_is_normalized |].
      split; [reflexivity |]. cbn. repeat split; try reflexivity; discriminate.
    + left. cbn. repeat split.
  - unfold handleMagnetometer, updateHeading, setMag. cbn [accelRef magRef].
    destruct (accelRef refs) as [accel |] eqn:Haccel.
    + right. right. eexists _, _, _, _. split; [apply heading_is_normalized |].
      split; [reflexivity |]. cbn. repeat split; try reflexivity; discriminate.
    + left. cbn. repeat split.
Qed.

Lemma synced_step h e : synced h -> synced (step h e).
Proof.
  unfold synced. intros Hs.
  destruct (step_cases h e)
    as [(E1 & E2 & _) | [(E1 & _ & _ & _ & E2) | (t & r & raw & h0 & _ & E & _)]].
  - now rewrite E1, E2.
  - now rewrite E1, E2.
  - rewrite E. destruct h0 as [st0 refs0]. reflexivity.
Qed.

Lemma synced_run es : synced (run es).
Proof.
  unfold run, Compass.run. fold step.
  assert (H : forall h, synced h -> synced (fold_left step es h)).
  { induction es as [| e es IH]; intros h Hh; [exact Hh |].
    cbn [fold_left]. apply IH. now apply synced_step. }
  apply H. reflexivity.
Qed.

End WithMath.

(** X4: once the accumulator is initialised, no event moves the
    published rawHeading by more than 180 x SMOOTHING_FACTOR degrees (45,
    or 27 on Android): the continuous heading has no jump at the 0/360
    boundary, whatever the sensors and the trigonometry deliver. *)
Theorem X4_rawHeading_moves_in_small_steps
    (Math_sqrt : Q -> Q) (Math_atan2 : Q -> Q -> Q) (deg_per_rad : Q)
    (android : bool) (es : list event) (e : event) :
  let h := Compass.run Math_sqrt Math_atan2 deg_per_rad android es in
  let h' := Compass.step Math_sqrt Math_atan2 deg_per_rad android h e in
  initializedRef (snd h) = true ->
  Qabs (rawHeading (fst h') - rawHeading (fst h)) <= 180 * SMOOTHING_FACTOR android.
Proof.
  intros h h' Hinit.
  pose proof (synced_run Math_sqrt Math_atan2 deg_per_rad android es) as Hs.
  fold h in Hs.
  pose proof (synced_step Math_sqrt Math_atan2 deg_per_rad android h e Hs) as Hs'.
  fold h' in Hs'. unfold synced in Hs, Hs'. rewrite Hs, Hs'.
  pose proof (SMOOTHING_FACTOR_range android) as [Hf0 _].
  destruct (step_cases Math_sqrt Math_atan2 deg_per_rad android h e)
    as [(_ & E & _) | [(_ & _ & _ & _ & E) | (t & r & raw & h0 & Hraw & E & Hc & Hi & _)]];
    fold h' in E.
  - rewrite E. apply Qabs_Qle_condition.
    assert (E0 : continuousAngleRef (snd h) - continuousAngleRef (snd h) == 0) by ring.
    rewrite E0. split; lra.
  - rewrite E. apply Qabs_Qle_condition.
    assert (E0 : continuousAngleRef (snd h) - continuousAngleRef (snd h) == 0) by ring.
    rewrite E0. split; lra.
  - rewrite E, <- Hc. apply applyReading_step_bound; [congruence | exact Hraw].
Qed.

(** Constant stand-ins for the trigonometry, to run the hook on. *)
Definition flatSqrt (_ : Q) : Q := 1.
Definition flatAtan2 (_ _ : Q) : Q := 0.

Definition faceUp : Measurement := {| mx := 0; my := 0; mz := 1 |}.
Definition fieldNorth : Measurement := {| mx := 0; my := 30; mz := -40 |}.

Lemma X4_rawHeading_moves_in_small_steps_witness :
  Qabs (rawHeading
          (fst (Compass.step flatSqrt flatAtan2 57 false
                  (Compass.run flatSqrt flatAtan2 57 false
                     [Accelerometer faceUp; Magnetometer fieldNorth])
                  (Magnetometer fieldNorth)))
        - rawHeading
            (fst (Compass.run flatSqrt flatAtan2 57 false
                    [Accelerometer faceUp; Magnetometer fieldNorth])))
  <= 180 * SMOOTHING_FACTOR false.
Proof.
  exact (X4_rawHeading_moves_in_small_steps flatSqrt flatAtan2 57 false
           [Accelerometer faceUp; Magnetometer fieldNorth]
           (Magnetometer fieldNorth) eq_refl).
Defined.

(** A difference within one turn that is congruent to a value inside
    (-180, 180) has that value as its shortest delta. *)
Lemma shortestDelta_of_congruent from to E (n : Z) :
  -360 < to - from < 360 -> -180 < E < 180 ->
  to - from == E + 360 * inject_Z n ->
  shortestDelta from to == E.
Proof.
  intros Hd HE Hn.
  assert (Hz : (-2 < n < 2)%Z).
  { apply between_Z. change (inject_Z (-2)) with (-2 # 1).
    change (inject_Z 2) with 2. split; lra. }
  assert (Hcases : n = (-1)%Z \/ n = 0%Z \/ n = 1%Z) by lia.
  destruct (shortestDelta_cases from to) as [[H E'] | [[H E'] | [H E']]];
    rewrite E'; destruct Hcases as [-> | [-> | ->]];
    change (inject_Z (-1)) with (-1 # 1) in Hn; change (inject_Z 0) with 0 in Hn;
    change (inject_Z 1) with 1 in Hn; lra.
Qed.

(** X5: a reading outside the dead-band of 0.3 degrees closes the
    fraction SMOOTHING_FACTOR of the shortest delta to the compass
    heading: what remains is (1 - SMOOTHING_FACTOR) times the delta, on
    the same side, so the heading approaches a steady compass reading
    without overshooting; a reading within the dead-band moves nothing. *)
Theorem X5_smoothing_closes_a_fraction
    (android : bool) (t r raw : Q) (h : Hook) :
  initializedRef (snd h) = true ->
  0 <= raw < 360 ->
  let delta := shortestDelta (normalizeAngle (continuousAngleRef (snd h))) raw in
  let h' := applyReading android t r raw h in
  if JS.gtb (Qabs delta) 0.3
  then shortestDelta (normalizeAngle (continuousAngleRef (snd h'))) raw
       == (1 - SMOOTHING_FACTOR android) * delta
  else continuousAngleRef (snd h') = continuousAngleRef (snd h).
Proof.
  intros Hinit Hraw delta h'.
  destruct (applyReading_continuous android t r raw h Hinit) as [Hc _].
  fold delta h' in Hc.
  destruct (JS.gtb (Qabs delta) 0.3); [| exact Hc].
  rewrite Hc.
  set (c := continuousAngleRef (snd h)) in *.
  pose proof (SMOOTHING_FACTOR_range android) as [Hf0 Hf1].
  set (f := SMOOTHING_FACTOR android) in *.
  pose proof (normalizeAngle_range c) as Hnc.
  pose proof (normalizeAngle_range (c + delta * f)) as Hnc'.
  assert (Hd : -180 <= delta <= 180).
  { apply shortestDelta_range. split; lra. }
  destruct (normalizeAngle_congruent c) as [j Hj].
  destruct (normalizeAngle_congruent (c + delta * f)) as [j' Hj'].
  assert (Hm : exists m : Z, delta == raw - normalizeAngle c + 360 * inject_Z m).
  { destruct (shortestDelta_cases (normalizeAngle c) raw) as [[_ E] | [[_ E] | [_ E]]];
      fold delta in E.
    - exists (-1)%Z. rewrite E. change (inject_Z (-1)) with (-1 # 1). ring.
    - exists 1%Z. rewrite E. change (inject_Z 1) with 1. ring.
    - exists 0%Z. rewrite E. change (inject_Z 0) with 0. ring. }
  destruct Hm as [m Hm].
  apply (shortestDelta_of_congruent _ _ _ (j - m - j')%Z).
  - split; lra.
  - assert (0 <= (delta + 180) * (1 - f)) by (apply Qmult_le_0_compat; lra).
    assert (0 <= (180 - delta) * (1 - f)) by (apply Qmult_le_0_compat; lra).
    assert (0 < 180 * f) by (apply Qmult_lt_0_compat; lra).
    split; lra.
  - unfold Z.sub. rewrite !inject_Z_plus, !inject_Z_opp, Hj'.
    assert (Hraw' : raw == delta + normalizeAngle c - 360 * inject_Z m)
      by (rewrite Hm; ring).
    rewrite Hraw', Hj. ring.
Qed.

Lemma X5_smoothing_closes_a_fraction_witness :
  shortestDelta
    (normalizeAngle
       (continuousAngleRef
          (snd (applyReading false 0 0 10
                  (applyReading false 0 0 350 Compass.initial))))) 10
  == (1 - SMOOTHING_FACTOR false)
     * shortestDelta
         (normalizeAngle
            (continuousAngleRef (snd (applyReading false 0 0 350 Compass.initial)))) 10.
Proof.
  assert (Hraw : 0 <= 10 < 360)
    by (split; vm_compute; first [discriminate | reflexivity]).
  exact (X5_smoothing_closes_a_fraction false 0 0 10
           (applyReading false 0 0 350 Compass.initial) eq_refl Hraw).
Defined.

(** X6: the published tilt is within [0, 90] after any sequence of
    events, whatever the sensors and the trigonometry deliver. *)
Theorem X6_published_tilt_is_clamped
    (Math_sqrt : Q -> Q) (Math_atan2 : Q -> Q -> Q) (deg_per_rad : Q)
    (android : bool) (es : list event) :
  0 <= tilt (fst (Compass.run Math_sqrt Math_atan2 deg_per_rad android es)) <= 90.
Proof.
  unfold Compass.run.
  assert (H : forall h, 0 <= tilt (fst h) <= 90 ->
                0 <= tilt (fst (fold_left
                                  (Compass.step Math_sqrt Math_atan2 deg_per_rad android)
                                  es h)) <= 90).
  { induction es as [| e es IH]; intros h Hh; [exact Hh |].
    cbn [fold_left]. apply IH.
    destruct (step_cases Math_sqrt Math_atan2 deg_per_rad android h e)
      as [(E & _) | [(_ & _ & E & _) | (t & r & raw & h0 & _ & E & _)]].
    - now rewrite E.
    - now rewrite E.
    - rewrite E. destruct h0 as [st0 refs0]. cbn [applyReading fst tilt]. split.
      + apply Q.le_max_l.
      + apply Q.max_lub; [vm_compute; discriminate | apply Q.le_min_l]. }
  apply H. split; vm_compute; discriminate.
Qed.

(** Events that bring no magnetometer sample, or no accelerometer sample. *)
Definition notMagnetometer (e : event) : Prop :=
  match e with Magnetometer _ => False | _ => True end.

Definition notAccelerometer (e : event) : Prop :=
  match e with Accelerometer _ => False | _ => True end.

(** The orientation the hook starts with. *)
Definition unpublished (h : Hook) : Prop :=
  heading (fst h) = 0 /\ rawHeading (fst h) = 0 /\ tilt (fst h) = 0 /\
  roll (fst h) = 0 /\ initializedRef (snd h) = false /\
  continuousAngleRef (snd h) = 0.

(** X7: as long as one of the two sensors has not delivered a sample,
    nothing is computed: heading, rawHeading, tilt and roll keep their
    initial value 0 and the accumulator stays uninitialised. *)
Theorem X7_both_sensors_are_needed
    (Math_sqrt : Q -> Q) (Math_atan2 : Q -> Q -> Q) (deg_per_rad : Q)
    (android : bool) (es : list event) :
  Forall notMagnetometer es \/ Forall notAccelerometer es ->
  unpublished (Compass.run Math_sqrt Math_atan2 deg_per_rad android es).
Proof.
  unfold Compass.run.
  assert (Hsetup : forall a m h, unpublished h ->
            unpublished (setup a m h) /\
            accelRef (snd (setup a m h)) = accelRef (snd h) /\
            magRef (snd (setup a m h)) = magRef (snd h)).
  { intros a m [st refs] (H1 & H2 & H3 & H4 & H5 & H6).
    unfold setup, setAvailability, unpublished in *. cbn [fst snd] in *.
    destruct (negb a); [cbn; repeat split; assumption |].
    destruct (negb m); cbn; repeat split; assumption. }
  intros [Hall | Hall].
  - assert (H : forall h, unpublished h -> magRef (snd h) = None ->
              unpublished (fold_left
                             (Compass.step Math_sqrt Math_atan2 deg_per_rad android) es h)).
    { induction Hall as [| e es He Hes IH]; intros h Hh Hmag; [exact Hh |].
      cbn [fold_left]. destruct e as [a m | d | d]; [| | destruct He].
      - cbn [Compass.step].
        destruct (Hsetup a m h Hh) as (H1 & _ & H2). apply IH; [exact H1 | congruence].
      - destruct h as [st refs]. cbn [snd] in Hmag.
        cbn [Compass.step]. unfold handleAccelerometer, updateHeading, setAccel.
        cbn [accelRef magRef]. rewrite Hmag. apply IH; [exact Hh | reflexivity]. }
    apply H; [unfold unpublished; cbn; repeat split | reflexivity].
  - assert (H : forall h, unpublished h -> accelRef (snd h) = None ->
              unpublished (fold_left
                             (Compass.step Math_sqrt Math_atan2 deg_per_rad android) es h)).
    { induction Hall as [| e es He Hes IH]; intros h Hh Hacc; [exact Hh |].
      cbn [fold_left]. destruct e as [a m | d | d]; [| destruct He |].
      - cbn [Compass.step].
        destruct (Hsetup a m h Hh) as (H1 & H2 & _). apply IH; [exact H1 | congruence].
      - destruct h as [st refs]. cbn [snd] in Hacc.
        cbn [Compass.step]. unfold handleMagnetometer, updateHeading, setMag.
        cbn [accelRef magRef]. rewrite Hacc. apply IH; [exact Hh | reflexivity]. }
    apply H; [unfold unpublished; cbn; repeat split | reflexivity].
Qed.

Lemma X7_both_sensors_are_needed_witness :
  unpublished
    (Compass.run flatSqrt flatAtan2 57 false
       [Setup true true; Accelerometer faceUp; Accelerometer faceUp]).
Proof.
  apply (X7_both_sensors_are_needed flatSqrt flatAtan2 57 false
           [Setup true true; Accelerometer faceUp; Accelerometer faceUp]).
  left. repeat constructor.
Defined.

End CompassFacts.

(** ** The alignment evaluator *)
Module AlignmentFacts.
Import AlignmentStatus AngleFacts CompassFacts.

Lemma lowerInto_congruent d : exists j : Z, lowerInto d == d + 360 * inject_Z j.
Proof.
  funelim (lowerInto d).
  - match goal with IH : exists _, _ |- _ => destruct IH as [j Hj] end.
    exists (j + (-1))%Z. rewrite Hj, inject_Z_plus.
    change (inject_Z (-1)) with (-1 # 1). ring.
  - exists 0%Z. change (inject_Z 0) with 0. ring.
Qed.

Lemma raiseInto_congruent d : exists j : Z, raiseInto d == d + 360 * inject_Z j.
Proof.
  funelim (raiseInto d).
  - match goal with IH : exists _, _ |- _ => destruct IH as [j Hj] end.
    exists (j + 1)%Z. rewrite Hj, inject_Z_plus.
    change (inject_Z 1) with 1. ring.
  - exists 0%Z. change (inject_Z 0) with 0. ring.
Qed.

Lemma calculateAngleDeviation_congruent current target :
  exists j : Z,
    calculateAngleDeviation current target == current - target + 360 * inject_Z j.
Proof.
  unfold calculateAngleDeviation.
  destruct (lowerInto_congruent (current - target)) as [j1 H1].
  destruct (raiseInto_congruent (lowerInto (current - target))) as [j2 H2].
  exists (j1 + j2)%Z. rewrite H2, H1, inject_Z_plus. ring.
Qed.

(** An integer that is not 0 is at least 1 in magnitude. *)
Lemma nonzero_turns (n : Z) :
  n = 0%Z \/ inject_Z n <= -1 \/ 1 <= inject_Z n.
Proof.
  destruct (Z.eq_dec n 0) as [-> | Hn]; [now left | right].
  destruct (Z_lt_le_dec n 0) as [Hneg | Hpos].
  - left. change (-1) with (inject_Z (-1)). rewrite <- Zle_Qle. lia.
  - right. change 1 with (inject_Z 1). rewrite <- Zle_Qle. lia.
Qed.

Lemma deviation_least_magnitude current target (k : Z) :
  Qabs (calculateAngleDeviation current target)
  <= Qabs (current - target + 360 * inject_Z k).
Proof.
  pose proof (calculateAngleDeviation_range current target) as Hr.
  destruct (calculateAngleDeviation_congruent current target) as [j Hj].
  set (r := calculateAngleDeviation current target) in *.
  destruct (nonzero_turns (k - j)) as [Hz | Hz].
  - assert (k = j) as -> by lia. rewrite <- Hj. apply Qle_refl.
  - assert (E : current - target + 360 * inject_Z k == r + 360 * inject_Z (k - j)).
    { rewrite Hj. unfold Z.sub. rewrite inject_Z_plus, inject_Z_opp. ring. }
    rewrite E. set (n := inject_Z (k - j)) in *.
    apply Qabs_case; intros Hs; apply Qabs_case; intros Hs'; destruct Hz; lra.
Qed.

Lemma deviation_magnitude_periodic current target (k : Z) :
  Qabs (calculateAngleDeviation (current + 360 * inject_Z k) target)
  == Qabs (calculateAngleDeviation current target).
Proof.
  pose proof (calculateAngleDeviation_range current target) as Hr.
  destruct (calculateAngleDeviation_congruent current target) as [j Hj].
  pose proof (calculateAngleDeviation_range (current + 360 * inject_Z k) target) as Hr'.
  destruct (calculateAngleDeviation_congruent (current + 360 * inject_Z k) target)
    as [j' Hj'].
  set (r := calculateAngleDeviation current target) in *.
  set (r' := calculateAngleDeviation (current + 360 * inject_Z k) target) in *.
  assert (E : r' == r + 360 * inject_Z (j' + k - j)).
  { rewrite Hj', Hj. unfold Z.sub. rewrite !inject_Z_plus, inject_Z_opp. ring. }
  destruct (nonzero_turns (j' + k - j)) as [Hz | Hz].
  - rewrite Hz in E. change (inject_Z 0) with 0 in E.
    assert (E' : r' == r) by (rewrite E; ring). now rewrite E'.
  - set (n := inject_Z (j' + k - j)) in *.
    apply Qabs_case; intros Hs; apply Qabs_case; intros Hs'; destruct Hz; lra.
Qed.

(** X8: [calculateAngleDeviation] differs from current - target by
    whole turns and has the least magnitude among such values (the
    smallest angle between the two directions); whole turns added to the
    current angle do not change that magnitude. *)
Theorem X8_deviation_is_the_smallest_angle (current target : Q) (k : Z) :
  (exists j : Z,
     calculateAngleDeviation current target
     == current - target + 360 * inject_Z j) /\
  Qabs (calculateAngleDeviation current target)
  <= Qabs (current - target + 360 * inject_Z k) /\
  Qabs (calculateAngleDeviation (current + 360 * inject_Z k) target)
  == Qabs (calculateAngleDeviation current target).
Proof.
  split; [apply calculateAngleDeviation_congruent |].
  split; [apply deviation_least_magnitude | apply deviation_magnitude_periodic].
Qed.

(** How good a status is: the lower the better. *)
Definition rank (s : Status) : nat :=
  match s with best => 0 | good => 1 | bad => 2 end.

Lemma status_by_magnitude (lo hi d1 d2 : Q) :
  Qabs d1 <= Qabs d2 ->
  (rank (if JS.leb (Qabs d1) lo then best else if JS.leb (Qabs d1) hi then good else bad)
   <= rank (if JS.leb (Qabs d2) lo then best
            else if JS.leb (Qabs d2) hi then good else bad))%nat.
Proof.
  intros Hle.
  js_cmp (JS.leb (Qabs d1) lo); [cbn; lia |].
  js_cmp (JS.leb (Qabs d2) lo); [lra |].
  js_cmp (JS.leb (Qabs d1) hi); [destruct (JS.leb (Qabs d2) hi); cbn; lia |].
  js_cmp (JS.leb (Qabs d2) hi); [lra | cbn; lia].
Qed.

(** X9: both status classifications depend on the magnitude of the
    deviation only, never get better as the magnitude grows, and the
    azimuth status is never worse than the tilt status of the same
    deviation. *)
Theorem X9_status_follows_magnitude (d1 d2 : Q) :
  Qabs d1 <= Qabs d2 ->
  (rank (getTiltStatus d1) <= rank (getTiltStatus d2))%nat /\
  (rank (getAzimuthStatus d1) <= rank (getAzimuthStatus d2))%nat /\
  getTiltStatus (- d1) = getTiltStatus d1 /\
  getAzimuthStatus (- d1) = getAzimuthStatus d1 /\
  (rank (getAzimuthStatus d1) <= rank (getTiltStatus d1))%nat.
Proof.
  intros Hle. unfold getTiltStatus, getAzimuthStatus.
  split; [now apply status_by_magnitude |].
  split; [now apply status_by_magnitude |].
  unfold JS.leb. rewrite !(Qabs_opp d1).
  split; [reflexivity |]. split; [reflexivity |].
  unfold TILT_BEST, TILT_GOOD, AZIMUTH_BEST, AZIMUTH_GOOD.
  js_cmp (Qle_bool (Qabs d1) 5); [cbn; lia |].
  js_cmp (Qle_bool (Qabs d1) 2); [lra |].
  destruct (Qle_bool (Qabs d1) 15); cbn; lia.
Qed.

Lemma X9_status_follows_magnitude_witness :
  (rank (getTiltStatus (-3)) <= rank (getTiltStatus 7))%nat /\
  getAzimuthStatus (- -3) = getAzimuthStatus (-3).
Proof.
  assert (H : Qabs (-3) <= Qabs 7) by (vm_compute; discriminate).
  destruct (X9_status_follows_magnitude (-3) 7 H) as (H1 & _ & _ & H4 & _).
  split; [exact H1 | exact H4].
Defined.

(** The share of alignment before rounding. *)
Definition share (deviation maxDeviation : Q) : Q :=
  Qmax 0 (100 - (Qabs deviation / maxDeviation) * 100).

Lemma share_range deviation maxDeviation :
  0 < maxDeviation -> 0 <= share deviation maxDeviation <= 100.
Proof.
  intros Hm. unfold share. split; [apply Q.le_max_l |].
  apply Q.max_lub; [vm_compute; discriminate |].
  assert (0 <= Qabs deviation / maxDeviation).
  { apply Qle_shift_div_l; [exact Hm |]. pose proof (Qabs_nonneg deviation). lra. }
  lra.
Qed.

Lemma share_antitone d1 d2 maxDeviation :
  0 < maxDeviation -> Qabs d1 <= Qabs d2 ->
  share d2 maxDeviation <= share d1 maxDeviation.
Proof.
  intros Hm Hle. unfold share.
  apply Q.max_le_compat_l.
  assert (Qabs d1 / maxDeviation <= Qabs d2 / maxDeviation).
  { unfold Qdiv. apply Qmult_le_compat_r; [exact Hle |].
    apply Qlt_le_weak. now apply Qinv_lt_0_compat. }
  lra.
Qed.

Lemma round_monotone x y : x <= y -> (JS.round x <= JS.round y)%Z.
Proof. intros H. unfold JS.round. apply Qfloor_resp_le. lra. Qed.

(** X10: for a positive [maxDeviation] the alignment percentage is a
    whole number between 0 and 100, it is 100 at deviation 0 and 0 from
    [maxDeviation] on, and it never grows with the magnitude of the
    deviation. *)
Theorem X10_percentage_is_bounded_and_antitone (d1 d2 maxDeviation : Q) :
  0 < maxDeviation -> Qabs d1 <= Qabs d2 ->
  (0 <= calculateAlignmentPercentage d1 maxDeviation <= 100)%Z /\
  (calculateAlignmentPercentage d2 maxDeviation
   <= calculateAlignmentPercentage d1 maxDeviation)%Z /\
  calculateAlignmentPercentage 0 maxDeviation = 100%Z /\
  calculateAlignmentPercentage (maxDeviation + Qabs d1) maxDeviation = 0%Z /\
  calculateAlignmentPercentage (- d1) maxDeviation
  = calculateAlignmentPercentage d1 maxDeviation.
Proof.
  intros Hm Hle. unfold calculateAlignmentPercentage.
  fold (share d1 maxDeviation) (share d2 maxDeviation) (share 0 maxDeviation)
       (share (maxDeviation + Qabs d1) maxDeviation) (share (- d1) maxDeviation).
  split; [| split; [| split; [| split]]].
  - destruct (share_range d1 maxDeviation Hm) as [Hlo Hhi]. split.
    + change 0%Z with (JS.round 0). now apply round_monotone.
    + change 100%Z with (JS.round 100). now apply round_monotone.
  - apply round_monotone. now apply share_antitone.
  - assert (E : share 0 maxDeviation == 100).
    { unfold share. change (Qabs 0) with 0.
      assert (E0 : 100 - 0 / maxDeviation * 100 == 100) by (unfold Qdiv; ring).
      rewrite E0. apply Q.max_r. vm_compute. discriminate. }
    unfold JS.round. rewrite E. reflexivity.
  - assert (E : share (maxDeviation + Qabs d1) maxDeviation == 0).
    { unfold share. apply Q.max_l.
      pose proof (Qabs_nonneg d1) as Hd.
      assert (Ha : Qabs (maxDeviation + Qabs d1) == maxDeviation + Qabs d1)
        by (apply Qabs_pos; lra).
      rewrite Ha.
      assert (1 <= (maxDeviation + Qabs d1) / maxDeviation).
      { apply Qle_shift_div_l; [exact Hm | lra]. }
      lra. }
    unfold JS.round. rewrite E. reflexivity.
  - assert (E : Qabs (- d1) = Qabs d1).
    { destruct d1 as [n d]. unfold Qabs, Qopp. cbn. now rewrite Z.abs_opp. }
    unfold share. now rewrite E.
Qed.

Lemma X10_percentage_is_bounded_and_antitone_witness :
  (0 <= calculateAlignmentPercentage (-5) 45 <= 100)%Z /\
  (calculateAlignmentPercentage 20 45 <= calculateAlignmentPercentage (-5) 45)%Z /\
  calculateAlignmentPercentage (-5) 45 = 89%Z.
Proof.
  assert (Hm : 0 < 45) by reflexivity.
  assert (Hle : Qabs (-5) <= Qabs 20) by (vm_compute; discriminate).
  destruct (X10_percentage_is_bounded_and_antitone (-5) 20 45 Hm Hle)
    as (H1 & H2 & _).
  split; [exact H1 |]. split; [exact H2 | reflexivity].
Defined.

Lemma status_of_magnitude (lo hi d d' : Q) :
  Qabs d == Qabs d' ->
  (if JS.leb (Qabs d) lo then best else if JS.leb (Qabs d) hi then good else bad)
  = (if JS.leb (Qabs d') lo then best else if JS.leb (Qabs d') hi then good else bad).
Proof.
  intros E. unfold JS.leb.
  rewrite (Qleb_comp _ _ E lo lo (Qeq_refl lo)), (Qleb_comp _ _ E hi hi (Qeq_refl hi)).
  reflexivity.
Qed.

(** X11: in the result of [getAlignmentResult] the azimuth deviation is
    within [-180, 180], and the azimuth status and percentage are the
    same for a current azimuth given with whole turns added (a heading
    of 370 is judged as one of 10); the tilt deviation is not wrapped. *)
Theorem X11_result_ignores_whole_turns
    (currentTilt targetTilt currentAzimuth targetAzimuth : Q) (k : Z) :
  let r := getAlignmentResult currentTilt targetTilt currentAzimuth targetAzimuth in
  let r' := getAlignmentResult currentTilt targetTilt
              (currentAzimuth + 360 * inject_Z k) targetAzimuth in
  -180 <= azimuthDeviation r <= 180 /\
  azimuthStatus r' = azimuthStatus r /\
  azimuthPercentage r' = azimuthPercentage r /\
  tiltDeviation r = currentTilt - targetTilt.
Proof.
  cbv zeta. unfold getAlignmentResult.
  cbn [azimuthDeviation azimuthStatus azimuthPercentage tiltDeviation].
  pose proof (deviation_magnitude_periodic currentAzimuth targetAzimuth k) as E.
  split; [apply calculateAngleDeviation_range |].
  split; [now apply status_of_magnitude |].
  split; [| reflexivity].
  unfold calculateAlignmentPercentage, JS.round. now rewrite E.
Qed.

End AlignmentFacts.

(** ** The solar target calculator, further *)
Module SolarTargetFacts.
Import SolarCalculations.

Lemma Qsq_nonneg x : 0 <= x * x.
Proof.
  destruct (Qlt_le_dec x 0) as [H | H].
  - assert (E : x * x == (- x) * (- x)) by ring. rewrite E.
    apply Qmult_le_0_compat; lra.
  - now apply Qmult_le_0_compat.
Qed.

Lemma Qabs_opp_eq x : Qabs (- x) = Qabs x.
Proof. destruct x as [n d]. unfold Qabs, Qopp. cbn. now rewrite Z.abs_opp. Qed.

(** The Jacobson cubic is positive on the non-negative latitudes and
    stays below 52 degrees up to latitude 90. *)
Lemma jacobson_range L :
  0 <= L <= 90 ->
  1.3793 <= 1.3793 + L * (1.2011 + L * (-0.014404 + L * 0.000080509)) <= 52.
Proof.
  intros [H0 H1]. split.
  - pose proof (Qsq_nonneg (0.000161018 * L - 0.014404)) as Hsq.
    assert (0 <= L * (1.2011 + L * (-0.014404 + L * 0.000080509))).
    { apply Qmult_le_0_compat; lra. }
    lra.
  - pose proof (Qsq_nonneg (0.000161018 * L - 0.00715819)) as Hsq.
    assert (H2 : 0 <= (90 - L) * (0.000080509 * (L * L) - 0.00715819 * L + 0.5568629)).
    { apply Qmult_le_0_compat; lra. }
    lra.
Qed.

Lemma base_tilt_range latitude algorithm :
  Qabs latitude <= 90 -> 0 <= getTiltByAlgorithm latitude algorithm <= 90.
Proof.
  intros Hlat. pose proof (Qabs_nonneg latitude) as H0.
  destruct algorithm; cbn [getTiltByAlgorithm];
    unfold getSimpleTilt, getOptimizedTilt, getLandauTilt, getPVWattsTilt,
      getJacobsonTilt; cbv zeta;
    try (split; lra).
  destruct (jacobson_range (Qabs latitude)) as [Hlo Hhi]; split; lra.
Qed.

Lemma seasonal_tilt_range latitude season algorithm :
  Qabs latitude <= 90 -> 0 <= getSeasonalTilt latitude season algorithm <= 90.
Proof.
  intros Hlat. pose proof (base_tilt_range latitude algorithm Hlat) as [Hlo Hhi].
  unfold getSeasonalTilt, SEASONAL_ADJUSTMENT. destruct season; cbv zeta.
  - split; assumption.
  - split; [apply Q.le_max_l | apply Q.max_lub; lra].
  - split; assumption.
  - split; [apply Q.min_glb; lra | apply Q.le_min_l].
Qed.

Section WithTrig.
Variable Math_PI : Q.
Variable Math_sin : Q -> Q.
Variable Math_cos : Q -> Q.
Variable Math_asin : Q -> Q.

Lemma daily_tilt_range latitude date :
  0 <= getDailyTilt Math_PI Math_sin Math_cos Math_asin latitude date <= 90.
Proof.
  unfold getDailyTilt. cbv zeta. split.
  - apply Q.le_max_l.
  - apply Q.max_lub; [lra | apply Q.le_min_l].
Qed.

End WithTrig.

(** X12: for a latitude within [-90, 90] the target tilt is within
    [0, 90] in every mode, for every algorithm, date and whatever the
    trigonometric functions return; the target azimuth is 0 in the
    northern hemisphere (latitude 0 included) and 180 in the southern. *)
Theorem X12_target_is_within_range
    (Math_PI : Q) (Math_sin Math_cos Math_asin : Q -> Q)
    (location : LocationData) (mode : AlignmentMode) (date : Date)
    (algorithm : CalculationAlgorithm) :
  Qabs (latitude location) <= 90 ->
  let target := calculateOptimalAngles Math_PI Math_sin Math_cos Math_asin
                  location mode date algorithm in
  0 <= tilt target <= 90 /\
  (if JS.geb (latitude location) 0
   then hemisphere target = northern /\ azimuth target = 0
   else hemisphere target = southern /\ azimuth target = 180).
Proof.
  intros Hlat target. subst target. unfold calculateOptimalAngles.
  cbn [tilt azimuth hemisphere]. split.
  - destruct mode.
    + now apply base_tilt_range.
    + now apply seasonal_tilt_range.
    + apply daily_tilt_range.
  - unfold getHemisphere, getOptimalAzimuth.
    destruct (JS.geb (latitude location) 0); split; reflexivity.
Qed.

(** Stand-ins for the trigonometry, and a manually entered location. *)
Definition zeroTrig (_ : Q) : Q := 0.

Definition manualLocation (lat lon : Q) : LocationData :=
  {| latitude := lat; longitude := lon; altitude := None; accuracy := 0;
     timestamp := 0 |}.

Definition midJuly : Date :=
  {| getMonth := 6; getHours := 14; getMinutes := 30;
     sinceYearStart := 196 * 86400000 + 52200000 |}.

Lemma X12_target_is_within_range_witness :
  0 <= tilt (calculateOptimalAngles 3 zeroTrig zeroTrig zeroTrig
               (manualLocation (-33) 151) daily midJuly jacobson) <= 90 /\
  0 <= tilt (calculateOptimalAngles 3 zeroTrig zeroTrig zeroTrig
               (manualLocation (-33) 151) seasonal midJuly jacobson) <= 90.
Proof.
  assert (Hlat : Qabs (latitude (manualLocation (-33) 151)) <= 90)
    by (vm_compute; discriminate).
  split.
  - exact (proj1 (X12_target_is_within_range 3 zeroTrig zeroTrig zeroTrig
                    (manualLocation (-33) 151) daily midJuly jacobson Hlat)).
  - exact (proj1 (X12_target_is_within_range 3 zeroTrig zeroTrig zeroTrig
                    (manualLocation (-33) 151) seasonal midJuly jacobson Hlat)).
Defined.

(** X13: when the year-round tilt of the algorithm is between 15 and
    75 degrees, the summer tilt is 15 below it and the winter tilt 15
    above it, so the two average to the year-round tilt; spring and fall
    use the year-round tilt itself. *)
Theorem X13_seasonal_tilts_are_symmetric
    (latitude : Q) (algorithm : CalculationAlgorithm) :
  15 <= getYearRoundTilt latitude algorithm <= 75 ->
  getSeasonalTilt latitude summer algorithm
  == getYearRoundTilt latitude algorithm - 15 /\
  getSeasonalTilt latitude winter algorithm
  == getYearRoundTilt latitude algorithm + 15 /\
  getSeasonalTilt latitude summer algorithm + getSeasonalTilt latitude winter algorithm
  == 2 * getYearRoundTilt latitude algorithm /\
  getSeasonalTilt latitude spring algorithm = getYearRoundTilt latitude algorithm /\
  getSeasonalTilt latitude fall algorithm = getYearRoundTilt latitude algorithm.
Proof.
  unfold getYearRoundTilt, getSeasonalTilt, SEASONAL_ADJUSTMENT. cbv zeta.
  set (base := getTiltByAlgorithm latitude algorithm). intros [Hlo Hhi].
  assert (Hs : Qmax 0 (base - 15) == base - 15) by (apply Q.max_r; lra).
  assert (Hw : Qmin 90 (base + 15) == base + 15) by (apply Q.min_r; lra).
  rewrite Hs, Hw. repeat split; try reflexivity. ring.
Qed.

Lemma X13_seasonal_tilts_are_symmetric_witness :
  getSeasonalTilt 35 summer simple == getYearRoundTilt 35 simple - 15 /\
  getSeasonalTilt 35 summer simple + getSeasonalTilt 35 winter simple
  == 2 * getYearRoundTilt 35 simple.
Proof.
  assert (H : 15 <= getYearRoundTilt 35 simple <= 75)
    by (split; vm_compute; discriminate).
  destruct (X13_seasonal_tilts_are_symmetric 35 simple H) as (H1 & _ & H3 & _).
  split; [exact H1 | exact H3].
Defined.

Lemma base_tilt_mirror latitude algorithm :
  getTiltByAlgorithm (- latitude) algorithm = getTiltByAlgorithm latitude algorithm.
Proof.
  destruct algorithm; cbn [getTiltByAlgorithm];
    unfold getSimpleTilt, getOptimizedTilt, getLandauTilt, getPVWattsTilt,
      getJacobsonTilt; now rewrite Qabs_opp_eq.
Qed.

Lemma seasonal_tilt_mirror latitude season algorithm :
  getSeasonalTilt (- latitude) season algorithm
  = getSeasonalTilt latitude season algorithm.
Proof. unfold getSeasonalTilt. now rewrite base_tilt_mirror. Qed.

Lemma southern_season_shift date later :
  (0 <= getMonth date <= 11)%Z ->
  getMonth later = ((getMonth date + 6) mod 12)%Z ->
  getCurrentSeason date southern = getCurrentSeason later northern.
Proof.
  destruct date as [m h mi s], later as [m' h' mi' s'].
  unfold getCurrentSeason. cbn [getMonth]. intros Hm ->.
  assert (Hcases : (m = 0 \/ m = 1 \/ m = 2 \/ m = 3 \/ m = 4 \/ m = 5 \/ m = 6
                    \/ m = 7 \/ m = 8 \/ m = 9 \/ m = 10 \/ m = 11)%Z) by lia.
  repeat (destruct Hcases as [-> | Hcases]; [reflexivity | ]).
  subst m. reflexivity.
Qed.

(** X14: in seasonal mode a site in the southern hemisphere gets the
    target tilt of the site at the opposite latitude six months later
    (months counted 0 to 11), facing azimuth 180 instead of 0. *)
Theorem X14_southern_target_is_shifted_six_months
    (Math_PI : Q) (Math_sin Math_cos Math_asin : Q -> Q)
    (north south : LocationData) (date later : Date)
    (algorithm : CalculationAlgorithm) :
  0 < latitude north ->
  latitude south = - latitude north ->
  (0 <= getMonth date <= 11)%Z ->
  getMonth later = ((getMonth date + 6) mod 12)%Z ->
  let there := calculateOptimalAngles Math_PI Math_sin Math_cos Math_asin
                 south seasonal date algorithm in
  let here := calculateOptimalAngles Math_PI Math_sin Math_cos Math_asin
                north seasonal later algorithm in
  tilt there = tilt here /\ azimuth there = 180 /\ azimuth here = 0.
Proof.
  intros Hpos Hsouth Hm Hlater there here. subst there here.
  unfold calculateOptimalAngles. cbn [tilt azimuth].
  unfold getHemisphere, getOptimalAzimuth. rewrite Hsouth.
  assert (Hn : JS.geb (latitude north) 0 = true) by (apply JS.geb_true; lra).
  assert (Hs : JS.geb (- latitude north) 0 = false) by (apply JS.geb_false; lra).
  rewrite Hn, Hs. repeat split.
  rewrite seasonal_tilt_mirror.
  now rewrite (southern_season_shift date later Hm Hlater).
Qed.

Definition midJanuary : Date :=
  {| getMonth := 0; getHours := 14; getMinutes := 30;
     sinceYearStart := 15 * 86400000 + 52200000 |}.

Lemma X14_southern_target_is_shifted_six_months_witness :
  tilt (calculateOptimalAngles 3 zeroTrig zeroTrig zeroTrig
          (manualLocation (- 33) 151) seasonal midJanuary landau)
  = tilt (calculateOptimalAngles 3 zeroTrig zeroTrig zeroTrig
            (manualLocation 33 151) seasonal midJuly landau).
Proof.
  refine (proj1 (X14_southern_target_is_shifted_six_months
                   3 zeroTrig zeroTrig zeroTrig
                   (manualLocation 33 151) (manualLocation (- 33) 151)
                   midJanuary midJuly landau _ _ _ _)).
  - reflexivity.
  - reflexivity.
  - cbn. lia.
  - reflexivity.
Defined.

(** X15: the comparison table of calculateAllAlgorithms holds, for
    each of the five local formulas and in every mode, the tilt that
    calculateOptimalAngles computes for that formula at the same latitude
    and date; it has no entry for the two online algorithms. *)
Theorem X15_comparison_table_agrees_with_target
    (Math_PI : Q) (Math_sin Math_cos Math_asin : Q -> Q)
    (location : LocationData) (mode : AlignmentMode) (date : Date)
    (algorithm : CalculationAlgorithm) :
  calculateAllAlgorithms Math_PI Math_sin Math_cos Math_asin
    (latitude location) mode date algorithm
  = match algorithm with
    | pvwatts_live | pvwatts_winter => None
    | _ => Some (tilt (calculateOptimalAngles Math_PI Math_sin Math_cos Math_asin
                         location mode date algorithm))
    end.
Proof. destruct mode, algorithm; reflexivity. Qed.

Lemma round_bounds q :
  inject_Z (JS.round q) <= q + (1 # 2) /\ q + (1 # 2) < inject_Z (JS.round q) + 1.
Proof.
  unfold JS.round. split.
  - apply Qfloor_le.
  - pose proof (Qlt_floor (q + (1 # 2))) as H.
    rewrite inject_Z_plus in H. exact H.
Qed.

Lemma inject_Z_lt_inv a b : inject_Z a < inject_Z b -> (a < b)%Z.
Proof. now rewrite <- Zlt_Qlt. Qed.

(** X16: for a heading between 0 and 360 getCardinalDirection names one
    of the sixteen directions, and it names N exactly when the heading is
    below 11.25 or from 348.75 upwards. *)
Theorem X16_cardinal_direction_of_a_heading (heading : Q) :
  0 <= heading <= 360 ->
  (exists name, getCardinalDirection heading = Some name /\ In name directions) /\
  (getCardinalDirection heading = Some "N"%string
   <-> heading < 11.25 \/ 348.75 <= heading).
Proof.
  intros [Hlo Hhi]. unfold getCardinalDirection. cbv zeta.
  destruct (round_bounds (heading / 22.5)) as [Hfl Hce].
  set (k := JS.round (heading / 22.5)) in *.
  assert (Hx : heading == 22.5 * (heading / 22.5)) by (field; discriminate).
  set (x := heading / 22.5) in *.
  assert (Hk0 : (-1 < k)%Z).
  { apply inject_Z_lt_inv. change (inject_Z (-1)) with (-1 # 1). lra. }
  assert (Hk16 : (k < 17)%Z).
  { apply inject_Z_lt_inv. change (inject_Z 17) with (17 # 1). lra. }
  assert (Hcases : (k = 0 \/ k = 16 \/ (1 <= k <= 15))%Z) by lia.
  destruct Hcases as [Hk | [Hk | Hk]].
  - rewrite Hk in *. cbn. split.
    + exists "N"%string. split; [reflexivity | now left].
    + split; [intros _; left | reflexivity].
      change (inject_Z 0) with 0 in Hce. lra.
  - rewrite Hk in *. cbn. split.
    + exists "N"%string. split; [reflexivity | now left].
    + split; [intros _; right | reflexivity].
      change (inject_Z 16) with 16 in Hfl. lra.
  - assert (Hrem : Z.rem k 16 = k) by (apply Z.rem_small; lia).
    rewrite Hrem.
    assert (Hneg : (k <? 0)%Z = false) by (apply Z.ltb_ge; lia).
    rewrite Hneg.
    assert (Hnat : exists n, Z.to_nat k = S n /\ (n < 15)%nat).
    { exists (Z.to_nat (k - 1)). split; lia. }
    destruct Hnat as (n & -> & Hn).
    assert (H1 : inject_Z 1 <= inject_Z k) by (rewrite <- Zle_Qle; lia).
    assert (H15 : inject_Z k <= inject_Z 15) by (rewrite <- Zle_Qle; lia).
    change (inject_Z 1) with 1 in H1. change (inject_Z 15) with 15 in H15.
    split.
    + destruct (nth_error directions (S n)) as [name | ] eqn:Hnth.
      * exists name. split; [reflexivity | ].
        eapply nth_error_In. exact Hnth.
      * apply nth_error_None in Hnth. cbn in Hnth. lia.
    + split.
      * intros Hnorth. exfalso.
        do 15 (destruct n as [ | n]; [cbn in Hnorth; discriminate | ]).
        lia.
      * intros [Hh | Hh]; exfalso; lra.
Qed.

Lemma X16_cardinal_direction_of_a_heading_witness :
  getCardinalDirection 350 = Some "N"%string <-> 350 < 11.25 \/ 348.75 <= 350.
Proof.
  refine (proj2 (X16_cardinal_direction_of_a_heading 350 _)).
  split; vm_compute; discriminate.
Defined.

End SolarTargetFacts.

(** ** The service client, further *)
Module ClientFacts.
Import PVWatts PVWattsFacts.

(** *** The cache paths of the winter call, and its out-of-range path *)

Lemma getWinter_hit env lat lon w c :
  validEntry (nowAtCheck env) (winterTiltCache w !! getCacheKey lat lon) = Some c ->
  getWinterPriorityTiltFromPVWatts env lat lon w
  = (Resolved {| w_tilt := entry_tilt c; decemberProduction := Some 0;
                 juneProduction := Some 0; w_confidence := cached |}, w).
Proof.
  intros Hhit. unfold getWinterPriorityTiltFromPVWatts, bind, getWinterTiltCache.
  now rewrite Hhit.
Qed.

Lemma winterTestAngles_out_of_range lat :
  90 < Qabs lat -> winterTestAngles lat = [].
Proof.
  intros Hlat. unfold winterTestAngles. simpl.
  repeat match goal with
         | |- context [inRange ?a] =>
             let E := fresh "E" in
             destruct (inRange a) eqn:E; [apply inRange_iff in E; lra | clear E]
         end.
  reflexivity.
Qed.

Lemma getWinter_out_of_range env lat lon w :
  validEntry (nowAtCheck env) (winterTiltCache w !! getCacheKey lat lon) = None ->
  90 < Qabs lat ->
  getWinterPriorityTiltFromPVWatts env lat lon w
  = (Resolved {| w_tilt := Qmin 90 (Qabs lat + 15); decemberProduction := Some 0;
                 juneProduction := Some 0; w_confidence := fallback |}, w).
Proof.
  intros Hmiss Hlat.
  unfold getWinterPriorityTiltFromPVWatts, bind at 1, getWinterTiltCache.
  rewrite Hmiss. rewrite (winterTestAngles_out_of_range lat Hlat).
  reflexivity.
Qed.

Lemma winter_lowest env lat lon :
  Qabs lat <= 90 -> exists lowest, last (winterResults env lat lon) = Some lowest.
Proof.
  intros Hlat. apply (last_is_Some _ (monthlyOf env lat lon (Qabs lat + 0))).
  apply In_winterResults. exists (Qabs lat + 0).
  split; [now apply base_is_winter_tested | reflexivity].
Qed.

(** X17: the production-maximizing call always resolves, and never
    with confidence 'fallback': it either returns a valid cache entry,
    leaving the caches and the request log as they were, or it returns a
    'live' result after requesting every candidate and storing the result
    under the cache key.  It never writes the winter cache. *)
Theorem X17_production_call_never_falls_back
    (env : Env) (lat lon : Q) (w : World) :
  exists r w',
    getOptimalTiltFromPVWatts env lat lon w = (Resolved r, w') /\
    winterTiltCache w' = winterTiltCache w /\
    match confidence r with
    | cached =>
        w' = w /\
        exists c, validEntry (nowAtCheck env) (tiltCache w !! getCacheKey lat lon) = Some c
                  /\ tilt r = entry_tilt c
    | live =>
        tiltCache w'
        = <[getCacheKey lat lon :=
              {| entry_tilt := tilt r; entry_timestamp := nowAtStore env |}]> (tiltCache w) /\
        requests w' = requests w ++ map (requestFor lat lon) (optimalTestAngles lat)
    | fallback => False
    end.
Proof.
  destruct (validEntry (nowAtCheck env) (tiltCache w !! getCacheKey lat lon))
    as [c |] eqn:Hentry.
  - rewrite (getOptimal_hit _ _ _ _ _ Hentry). eexists _, _.
    split; [reflexivity |]. split; [reflexivity |]. cbn [confidence tilt].
    split; [reflexivity |]. now exists c.
  - rewrite (getOptimal_miss _ _ _ _ Hentry). eexists _, _.
    split; [reflexivity |]. split; [reflexivity |]. cbn [confidence tilt].
    split; reflexivity.
Qed.

(** X18: the winter-priority call always resolves and never writes the
    production cache.  It answers 'cached' from a valid entry without
    touching anything; 'live' only for a latitude within [-90, 90], after
    requesting every tested angle and storing the result; and 'fallback'
    only for a latitude beyond that range, where no angle is tested: then
    the tilt is 90, nothing is requested and nothing is stored. *)
Theorem X18_winter_call_outcomes (env : Env) (lat lon : Q) (w : World) :
  exists r w',
    getWinterPriorityTiltFromPVWatts env lat lon w = (Resolved r, w') /\
    tiltCache w' = tiltCache w /\
    match w_confidence r with
    | cached => w' = w
    | live =>
        Qabs lat <= 90 /\
        winterTiltCache w'
        = <[getCacheKey lat lon :=
              {| entry_tilt := w_tilt r; entry_timestamp := nowAtStore env |}]>
            (winterTiltCache w) /\
        requests w' = requests w ++ map (requestFor lat lon) (winterTestAngles lat)
    | fallback => 90 < Qabs lat /\ w_tilt r == 90 /\ w' = w
    end.
Proof.
  destruct (validEntry (nowAtCheck env) (winterTiltCache w !! getCacheKey lat lon))
    as [c |] eqn:Hentry.
  - rewrite (getWinter_hit _ _ _ _ _ Hentry). eexists _, _.
    split; [reflexivity |]. split; reflexivity.
  - destruct (Qlt_le_dec 90 (Qabs lat)) as [Hout | Hin].
    + rewrite (getWinter_out_of_range _ _ _ _ Hentry Hout). eexists _, _.
      split; [reflexivity |]. split; [reflexivity |]. cbn [w_confidence w_tilt].
      split; [exact Hout |]. split; [| reflexivity].
      apply Q.min_l. lra.
    + destruct (winter_lowest env lat lon Hin) as (lowest & Hlast).
      rewrite (getWinter_miss _ _ _ _ _ Hentry Hlast). eexists _, _.
      split; [reflexivity |]. split; [reflexivity |]. cbn [w_confidence w_tilt].
      split; [exact Hin |]. split; reflexivity.
Qed.

(** X19: the result of a winter sweep (one that returned 'live') is
    served from the winter cache to a later winter call for the same cache
    key within the TTL, as 'cached' with productions 0 and the world
    unchanged; getCachedWinterTilt reports the same tilt; and the sweep
    changed nothing that getCachedTilt, which reads the production cache,
    reports. *)
Theorem X19_winter_cache_round_trip
    (env1 env2 : Env) (w w1 : World) (lat1 lon1 lat2 lon2 : Q)
    (r1 : WinterPriorityResult) :
  getWinterPriorityTiltFromPVWatts env1 lat1 lon1 w = (Resolved r1, w1) ->
  w_confidence r1 = live ->
  getCacheKey lat2 lon2 = getCacheKey lat1 lon1 ->
  (nowAtCheck env2 - nowAtStore env1 < CACHE_DURATION)%Z ->
  getWinterPriorityTiltFromPVWatts env2 lat2 lon2 w1
  = (Resolved {| w_tilt := w_tilt r1; decemberProduction := Some 0;
                 juneProduction := Some 0; w_confidence := cached |}, w1) /\
  getCachedWinterTilt env2 lat2 lon2 w1 = (Resolved (Some (w_tilt r1)), w1) /\
  fst (getCachedTilt env2 lat2 lon2 w1) = fst (getCachedTilt env2 lat2 lon2 w).
Proof.
  intros Hrun Hlive Hkey Hage.
  destruct (validEntry (nowAtCheck env1) (winterTiltCache w !! getCacheKey lat1 lon1))
    as [c |] eqn:Hentry.
  { rewrite (getWinter_hit _ _ _ _ _ Hentry) in Hrun.
    injection Hrun as <- _. discriminate Hlive. }
  destruct (Qlt_le_dec 90 (Qabs lat1)) as [Hout | Hin].
  { rewrite (getWinter_out_of_range _ _ _ _ Hentry Hout) in Hrun.
    injection Hrun as <- _. discriminate Hlive. }
  destruct (winter_lowest env1 lat1 lon1 Hin) as (lowest & Hlast).
  rewrite (getWinter_miss _ _ _ _ _ Hentry Hlast) in Hrun. injection Hrun as <- <-.
  cbn [w_tilt].
  set (best := pickSteepest (winterResults env1 lat1 lon1) lowest).
  set (stored := {| entry_tilt := c_tilt best; entry_timestamp := nowAtStore env1 |}).
  set (w1 := {| tiltCache := tiltCache w;
                winterTiltCache := <[getCacheKey lat1 lon1 := stored]> (winterTiltCache w);
                requests := requests w ++ map (requestFor lat1 lon1) (winterTestAngles lat1) |}).
  assert (Hvalid : validEntry (nowAtCheck env2)
                     (winterTiltCache w1 !! getCacheKey lat2 lon2) = Some stored).
  { rewrite Hkey. unfold w1. cbn [winterTiltCache]. rewrite lookup_insert_eq.
    now apply validEntry_fresh. }
  split; [exact (getWinter_hit env2 lat2 lon2 w1 stored Hvalid) |].
  split.
  - unfold getCachedWinterTilt, bind, getWinterTiltCache. now rewrite Hvalid.
  - unfold getCachedTilt, bind, getTiltCache, w1. cbn [tiltCache].
    destruct (validEntry (nowAtCheck env2) (tiltCache w !! getCacheKey lat2 lon2));
      reflexivity.
Qed.

Lemma X19_winter_cache_round_trip_witness :
  exists r1 w1,
    getWinterPriorityTiltFromPVWatts temperateEnv 35 0 emptyWorld = (Resolved r1, w1) /\
    getCachedWinterTilt (steadyEnv 3000 4000) 35.004 0.001 w1
    = (Resolved (Some (w_tilt r1)), w1).
Proof.
  assert (Hmiss : validEntry (nowAtCheck temperateEnv)
                    (winterTiltCache emptyWorld !! getCacheKey 35 0) = None)
    by reflexivity.
  pose proof (getWinter_miss temperateEnv 35 0 emptyWorld
                (monthlyOf temperateEnv 35 0 35) Hmiss eq_refl) as Hrun.
  cbv zeta in Hrun.
  eexists _, _. split; [exact Hrun |].
  refine (proj1 (proj2 (X19_winter_cache_round_trip temperateEnv (steadyEnv 3000 4000)
                          emptyWorld _ 35 0 35.004 0.001 _ Hrun _ _ _))).
  - reflexivity.
  - reflexivity.
  - reflexivity.
Defined.

(** X20: getCachedTilt and getCachedWinterTilt only read: they leave
    the world as it is and send nothing.  When getCachedTilt reports a
    tilt, the production call in the same world and at the same clock
    returns that tilt as 'cached'; when it reports null, the production
    call returns a 'live' result.  Likewise for the winter pair, where
    null means the call does not answer 'cached'. *)
Theorem X20_cache_peek_agrees_with_call (env : Env) (lat lon : Q) (w : World) :
  snd (getCachedTilt env lat lon w) = w /\
  snd (getCachedWinterTilt env lat lon w) = w /\
  match fst (getCachedTilt env lat lon w) with
  | Resolved (Some t) =>
      getOptimalTiltFromPVWatts env lat lon w
      = (Resolved {| tilt := t; annualProduction := 0; confidence := cached |}, w)
  | Resolved None =>
      exists r w', getOptimalTiltFromPVWatts env lat lon w = (Resolved r, w')
                   /\ confidence r = live
  | Rejected _ => False
  end /\
  match fst (getCachedWinterTilt env lat lon w) with
  | Resolved (Some t) =>
      getWinterPriorityTiltFromPVWatts env lat lon w
      = (Resolved {| w_tilt := t; decemberProduction := Some 0;
                     juneProduction := Some 0; w_confidence := cached |}, w)
  | Resolved None =>
      exists r w', getWinterPriorityTiltFromPVWatts env lat lon w = (Resolved r, w')
                   /\ w_confidence r <> cached
  | Rejected _ => False
  end.
Proof.
  unfold getCachedTilt, getCachedWinterTilt, bind, getTiltCache, getWinterTiltCache, ret.
  split; [now destruct (validEntry _ _) |].
  split; [now destruct (validEntry _ _) |].
  split.
  - destruct (validEntry (nowAtCheck env) (tiltCache w !! getCacheKey lat lon))
      as [c |] eqn:Hentry; cbn [fst].
    + exact (getOptimal_hit _ _ _ _ _ Hentry).
    + rewrite (getOptimal_miss _ _ _ _ Hentry). now eexists _, _.
  - destruct (validEntry (nowAtCheck env) (winterTiltCache w !! getCacheKey lat lon))
      as [c |] eqn:Hentry; cbn [fst].
    + exact (getWinter_hit _ _ _ _ _ Hentry).
    + destruct (Qlt_le_dec 90 (Qabs lat)) as [Hout | Hin].
      * rewrite (getWinter_out_of_range _ _ _ _ Hentry Hout). now eexists _, _.
      * destruct (winter_lowest env lat lon Hin) as (lowest & Hlast).
        rewrite (getWinter_miss _ _ _ _ _ Hentry Hlast). now eexists _, _.
Qed.

(** X21: after clearPVWattsCache no location has a cached tilt in
    either cache, whatever the clock, so the next production call sweeps
    again and the next winter call does not answer 'cached'; the requests
    sent so far are not forgotten. *)
Theorem X21_clearing_empties_both_caches (env : Env) (lat lon : Q) (w : World) :
  let cleared := snd (clearPVWattsCache w) in
  requests cleared = requests w /\
  getCachedTilt env lat lon cleared = (Resolved None, cleared) /\
  getCachedWinterTilt env lat lon cleared = (Resolved None, cleared) /\
  (exists r w', getOptimalTiltFromPVWatts env lat lon cleared = (Resolved r, w')
                /\ confidence r = live) /\
  (exists r w', getWinterPriorityTiltFromPVWatts env lat lon cleared = (Resolved r, w')
                /\ w_confidence r <> cached).
Proof.
  intros cleared. subst cleared. unfold clearPVWattsCache. cbn [snd].
  set (cleared := {| tiltCache := ∅; winterTiltCache := ∅; requests := requests w |}).
  assert (H1 : validEntry (nowAtCheck env) (tiltCache cleared !! getCacheKey lat lon) = None).
  { unfold cleared. cbn [tiltCache]. now rewrite lookup_empty. }
  assert (H2 : validEntry (nowAtCheck env) (winterTiltCache cleared !! getCacheKey lat lon)
               = None).
  { unfold cleared. cbn [winterTiltCache]. now rewrite lookup_empty. }
  split; [reflexivity |].
  split; [unfold getCachedTilt, bind, getTiltCache; now rewrite H1 |].
  split; [unfold getCachedWinterTilt, bind, getWinterTiltCache; now rewrite H2 |].
  split.
  - rewrite (getOptimal_miss _ _ _ _ H1). now eexists _, _.
  - destruct (Qlt_le_dec 90 (Qabs lat)) as [Hout | Hin].
    + rewrite (getWinter_out_of_range _ _ _ _ H2 Hout). now eexists _, _.
    + destruct (winter_lowest env lat lon Hin) as (lowest & Hlast).
      rewrite (getWinter_miss _ _ _ _ _ H2 Hlast). now eexists _, _.
Qed.

(** *** What a request carries *)

Lemma hundredths_bounds x :
  inject_Z (Z.of_N (hundredths x)) <= Qabs x * 100 + (1 # 2)
  /\ Qabs x * 100 + (1 # 2) < inject_Z (Z.of_N (hundredths x)) + 1.
Proof.
  unfold hundredths. set (q := Qabs x * 100 + (1 # 2)).
  pose proof (Qabs_nonneg x) as Habs.
  pose proof (Qfloor_le q) as Hfl. pose proof (Qlt_floor q) as Hce.
  rewrite inject_Z_plus in Hce. change (inject_Z 1) with 1 in Hce.
  assert (Hpos : (0 <= Qfloor q)%Z).
  { assert (H : inject_Z (-1) < inject_Z (Qfloor q)).
    { change (inject_Z (-1)) with (-1 # 1). unfold q in *. lra. }
    rewrite <- Zlt_Qlt in H. lia. }
  rewrite Z2N.id by exact Hpos. split; assumption.
Qed.

Lemma roundTo2_close x : Qabs (roundTo2 x - x) <= 0.005.
Proof.
  destruct (hundredths_bounds x) as [Hfl Hce]. unfold roundTo2. cbv zeta.
  set (n := inject_Z (Z.of_N (hundredths x))) in *.
  assert (Hn : n == 100 * (n / 100)) by (field; discriminate).
  set (y := n / 100) in *.
  apply Qabs_Qle_condition.
  js_cmp (JS.ltb x 0).
  - assert (Habs : Qabs x == - x) by (apply Qabs_neg; lra).
    rewrite Habs in Hfl, Hce. split; lra.
  - assert (Habs : Qabs x == x) by (apply Qabs_pos; lra).
    rewrite Habs in Hfl, Hce. split; lra.
Qed.

Lemma roundTo2_hundredth x : exists n : Z, roundTo2 x == inject_Z n / 100.
Proof.
  unfold roundTo2. cbv zeta. destruct (JS.ltb x 0).
  - exists (- Z.of_N (hundredths x))%Z. rewrite inject_Z_opp. field.
  - exists (Z.of_N (hundredths x)). reflexivity.
Qed.

(** X22: the quick estimate always resolves, after exactly one
    request: rounded coordinates, azimuth 180 whatever the hemisphere, and
    the latitude itself as the tilt.  It resolves with the parsed body
    when the response is ok and parses, and with null for a network
    failure, a response that is not ok, or a body that does not parse.
    The caches are not touched. *)
Theorem X22_quick_estimate_is_one_request (env : Env) (lat lon : Q) (w : World) :
  let url := {| q_lat := roundTo2 lat; q_lon := roundTo2 lon;
                q_azimuth := 180; q_tilt := lat |} in
  getPVWattsEstimate env lat lon w
  = (Resolved match service env url with
              | Some response => if ok response then json response else None
              | None => None
              end,
     logRequests [url] w).
Proof.
  intros url. unfold getPVWattsEstimate, callPVWatts, try_catch, bind, fetch.
  cbn [latitude longitude p_tilt p_azimuth default]. fold url.
  unfold logRequests.
  destruct (service env url) as [response |]; [| reflexivity].
  cbv beta iota.
  destruct (ok response); [| reflexivity].
  destruct (json response); reflexivity.
Qed.

(** X23: every call of callPVWatts appends exactly one request to the
    log and leaves both caches alone, whether it resolves or rejects; the
    coordinates of the request are whole hundredths of a degree, within
    0.005 of the coordinates passed in. *)
Theorem X23_request_coordinates_are_rounded
    (env : Env) (params : PVWattsParams) (w : World) :
  exists url,
    snd (callPVWatts env params w) = logRequests [url] w /\
    Qabs (q_lat url - latitude params) <= 0.005 /\
    Qabs (q_lon url - longitude params) <= 0.005 /\
    (exists n : Z, q_lat url == inject_Z n / 100) /\
    (exists n : Z, q_lon url == inject_Z n / 100).
Proof.
  eexists {| q_lat := roundTo2 (latitude params); q_lon := roundTo2 (longitude params);
             q_azimuth := default 180 (p_azimuth params);
             q_tilt := default (latitude params) (p_tilt params) |}.
  cbn [q_lat q_lon]. split.
  - unfold callPVWatts, bind, fetch, logRequests. cbv zeta.
    destruct (service env _) as [response |]; [| reflexivity].
    cbv beta iota.
    destruct (ok response); [| reflexivity].
    destruct (json response); reflexivity.
  - split; [apply roundTo2_close |]. split; [apply roundTo2_close |].
    split; apply roundTo2_hundredth.
Qed.

(** X24: the coordinates of a request are rounded, its tilt is not:
    a production sweep at a latitude within [-90, 90] sends a request
    whose tilt is |latitude| exactly, beside the latitude rounded to
    hundredths. *)
Theorem X24_sweep_sends_the_exact_latitude_as_tilt
    (env : Env) (lat lon : Q) (w : World) :
  validEntry (nowAtCheck env) (tiltCache w !! getCacheKey lat lon) = None ->
  Qabs lat <= 90 ->
  exists url,
    In url (requests (snd (getOptimalTiltFromPVWatts env lat lon w))) /\
    q_tilt url = Qabs lat /\ q_lat url = roundTo2 lat.
Proof.
  intros Hmiss Hlat. rewrite (getOptimal_miss _ _ _ _ Hmiss). cbn [snd requests].
  exists (requestFor lat lon (Qabs lat)). split; [| split; reflexivity].
  apply in_or_app. right. apply in_map. now apply base_is_tested.
Qed.

Lemma X24_sweep_sends_the_exact_latitude_as_tilt_witness :
  exists url,
    In url (requests (snd (getOptimalTiltFromPVWatts (steadyEnv 1000 2000)
                             35.00417 (-120.5) emptyWorld))) /\
    q_tilt url = Qabs 35.00417 /\ q_lat url = roundTo2 35.00417.
Proof.
  apply (X24_sweep_sends_the_exact_latitude_as_tilt (steadyEnv 1000 2000)
           35.00417 (-120.5) emptyWorld).
  - reflexivity.
  - vm_compute. discriminate.
Defined.

End ClientFacts.

(** ** The cache keys *)
Module CacheKeyFacts.
Import Stdlib.Strings.Ascii.
Import PVWatts.

(** The characters of a string that is free of a separator. *)
Fixpoint freeOf (c : ascii) (s : string) : bool :=
  match s with
  | EmptyString => true
  | String a s' => negb (Ascii.eqb a c) && freeOf c s'
  end.

Definition isDigit (a : ascii) : bool :=
  let n := nat_of_ascii a in (48 <=? n)%nat && (n <=? 57)%nat.

Fixpoint allDigits (s : string) : bool :=
  match s with
  | EmptyString => true
  | String a s' => isDigit a && allDigits s'
  end.

Lemma freeOf_app c a b : freeOf c (a +:+ b) = freeOf c a && freeOf c b.
Proof.
  induction a as [| x a IH]; simpl; [reflexivity |].
  rewrite IH. now rewrite andb_assoc.
Qed.

Lemma split_at_separator c a a' r r' :
  freeOf c a = true -> freeOf c a' = true ->
  a +:+ String c r = a' +:+ String c r' -> a = a' /\ r = r'.
Proof.
  revert a'. induction a as [| x a IH]; intros [| x' a']; simpl; intros Ha Ha' E.
  - now injection E.
  - injection E as <- _. rewrite Ascii.eqb_refl in Ha'. discriminate.
  - injection E as -> _. rewrite Ascii.eqb_refl in Ha. discriminate.
  - injection E as <- E. apply andb_true_iff in Ha as [_ Ha], Ha' as [_ Ha'].
    destruct (IH a' Ha Ha' E) as [-> ->]. now split.
Qed.

Lemma isDigit_char n : isDigit (pretty_N_char n) = true.
Proof.
  unfold pretty_N_char. repeat case_match; reflexivity.
Qed.

Lemma allDigits_go x : forall s, allDigits s = true -> allDigits (pretty_N_go x s) = true.
Proof.
  induction (N.lt_wf_0 x) as [x _ IH]. intros s Hs.
  assert (x = 0 \/ 0 < x)%N as [-> | Hpos] by lia.
  - now rewrite pretty_N_go_0.
  - rewrite pretty_N_go_step by exact Hpos. apply IH.
    + now apply N.div_lt.
    + simpl. now rewrite isDigit_char.
Qed.

Lemma allDigits_pretty (n : N) : allDigits (pretty n) = true.
Proof.
  unfold pretty, pretty_N. destruct (decide (n = 0%N)); [reflexivity |].
  now apply allDigits_go.
Qed.

Lemma allDigits_freeOf c s :
  isDigit c = false -> allDigits s = true -> freeOf c s = true.
Proof.
  intros Hc. induction s as [| a s IH]; simpl; [reflexivity |].
  intros [Ha Hs]%andb_true_iff. rewrite (IH Hs), andb_true_r.
  destruct (Ascii.eqb a c) eqn:E; [| reflexivity].
  apply Ascii.eqb_eq in E. congruence.
Qed.

Lemma allDigits_twoDigits n : allDigits (twoDigits n) = true.
Proof.
  unfold twoDigits. destruct (n <? 10)%N; simpl; apply allDigits_pretty.
Qed.

(** Reading the two digits back. *)
Definition digitValue (a : ascii) : N := N.of_nat (nat_of_ascii a - 48).

Definition readTwoDigits (s : string) : N :=
  match s with
  | String a (String b _) => digitValue a * 10 + digitValue b
  | _ => 0
  end.

Lemma readTwoDigits_twoDigits n : (n < 100)%N -> readTwoDigits (twoDigits n) = n.
Proof.
  intros Hn.
  assert (H : forallb (fun k => N.eqb (readTwoDigits (twoDigits (N.of_nat k))) (N.of_nat k))
                (seq 0 100) = true) by (vm_compute; reflexivity).
  rewrite forallb_forall in H.
  specialize (H (N.to_nat n)). rewrite N2Nat.id in H.
  apply N.eqb_eq, H, in_seq. lia.
Qed.

Lemma toFixed2_inj x y :
  toFixed2 x = toFixed2 y ->
  JS.ltb x 0 = JS.ltb y 0 /\ hundredths x = hundredths y.
Proof.
  unfold toFixed2. cbv zeta.
  set (n := hundredths x). set (m := hundredths y).
  assert (Hsplit : forall k l : N,
             pretty (k / 100)%N +:+ "." +:+ twoDigits (k mod 100)%N
             = pretty (l / 100)%N +:+ "." +:+ twoDigits (l mod 100)%N -> k = l).
  { intros k l E.
    apply (split_at_separator "."%char) in E as [E1 E2];
      try (apply allDigits_freeOf; [reflexivity | apply allDigits_pretty]).
    apply (inj pretty) in E1.
    apply (f_equal readTwoDigits) in E2.
    rewrite !readTwoDigits_twoDigits in E2 by (apply N.mod_lt; lia).
    rewrite (N.div_mod k 100), (N.div_mod l 100) by lia. lia. }
  assert (Hfirst : forall k : N, forall s s',
             "-" +:+ s <> pretty k +:+ "." +:+ s').
  { intros k s s' E. pose proof (allDigits_pretty k) as Hd.
    destruct (pretty k) as [| a p]; simpl in E; [discriminate |].
    injection E as <- _. discriminate Hd. }
  destruct (JS.ltb x 0), (JS.ltb y 0); intros E.
  - split; [reflexivity |]. simpl in E. injection E as E. now apply Hsplit.
  - exfalso. exact (Hfirst _ _ _ E).
  - exfalso. symmetry in E. exact (Hfirst _ _ _ E).
  - split; [reflexivity |]. now apply Hsplit.
Qed.

Lemma freeOf_toFixed2 x : freeOf "," (toFixed2 x) = true.
Proof.
  unfold toFixed2. cbv zeta. rewrite !freeOf_app.
  rewrite (allDigits_freeOf "," (pretty _)) by (reflexivity || apply allDigits_pretty).
  rewrite (allDigits_freeOf "," (twoDigits _)) by (reflexivity || apply allDigits_twoDigits).
  now destruct (JS.ltb x 0).
Qed.

(** X25: two locations have the same cache key exactly when their
    latitudes have the same sign test (negative or not) and the same
    rounded hundredths, and so have their longitudes: the key loses
    nothing but the digits toFixed(2) drops.  Locations with the same key
    are sent to the service with the same rounded coordinates. *)
Theorem X25_cache_key_identifies_the_rounded_cell (lat lon lat' lon' : Q) :
  (getCacheKey lat lon = getCacheKey lat' lon' <->
   (JS.ltb lat 0 = JS.ltb lat' 0 /\ hundredths lat = hundredths lat') /\
   (JS.ltb lon 0 = JS.ltb lon' 0 /\ hundredths lon = hundredths lon')) /\
  (getCacheKey lat lon = getCacheKey lat' lon' ->
   roundTo2 lat = roundTo2 lat' /\ roundTo2 lon = roundTo2 lon').
Proof.
  assert (Hcell : getCacheKey lat lon = getCacheKey lat' lon' ->
                  (JS.ltb lat 0 = JS.ltb lat' 0 /\ hundredths lat = hundredths lat') /\
                  (JS.ltb lon 0 = JS.ltb lon' 0 /\ hundredths lon = hundredths lon')).
  { unfold getCacheKey. intros E.
    apply (split_at_separator ","%char) in E as [E1 E2];
      try apply freeOf_toFixed2.
    split; now apply toFixed2_inj. }
  split; [split; [exact Hcell |] |].
  - intros [[H1 H2] [H3 H4]]. unfold getCacheKey, toFixed2. cbv zeta.
    now rewrite H1, H2, H3, H4.
  - intros E. destruct (Hcell E) as [[H1 H2] [H3 H4]].
    unfold roundTo2. cbv zeta. now rewrite H1, H2, H3, H4.
Qed.

(** The key a location is cached under. *)
Definition keyOf (c : PVWattsLive.Coordinates) : string :=
  getCacheKey (PVWattsLive.lat c) (PVWattsLive.lon c).

Lemma getCacheKey_parts lat lon lat' lon' :
  getCacheKey lat lon = getCacheKey lat' lon' <->
  toFixed2 lat = toFixed2 lat' /\ toFixed2 lon = toFixed2 lon'.
Proof.
  unfold getCacheKey. split.
  - intros E. apply (split_at_separator ","%char) in E; try apply freeOf_toFixed2.
    exact E.
  - now intros [-> ->].
Qed.

(** X26: usePVWattsLive takes a location as changed exactly when its
    cache key differs from that of the location of the last fetch.  So,
    enabled, with a location and an unchanged mode, the effect fetches
    exactly when the key differs, and then records the new location; when
    the key is the same it fetches nothing and keeps the recorded
    location. *)
Theorem X26_refetch_exactly_on_a_new_cache_key
    (prev : PVWattsLive.Coordinates) (location : SolarCalculations.LocationData)
    (winterPriority : bool) :
  let refs := {| PVWattsLive.prevLocationRef := Some prev;
                 PVWattsLive.prevWinterPriorityRef := winterPriority |} in
  let latitude := SolarCalculations.latitude location in
  let longitude := SolarCalculations.longitude location in
  PVWattsLive.hasLocationChanged refs latitude longitude
  = negb (String.eqb (keyOf prev) (getCacheKey latitude longitude)) /\
  PVWattsLive.effect (Some location) true winterPriority refs
  = if String.eqb (keyOf prev) (getCacheKey latitude longitude)
    then (refs, None)
    else ({| PVWattsLive.prevLocationRef :=
               Some {| PVWattsLive.lat := latitude; PVWattsLive.lon := longitude |};
             PVWattsLive.prevWinterPriorityRef := winterPriority |},
          Some (latitude, longitude)).
Proof.
  intros refs latitude longitude.
  assert (Hchanged : PVWattsLive.hasLocationChanged refs latitude longitude
                     = negb (String.eqb (keyOf prev) (getCacheKey latitude longitude))).
  { unfold PVWattsLive.hasLocationChanged, refs, keyOf.
    cbn [PVWattsLive.prevLocationRef].
    destruct (String.eqb (getCacheKey _ _) (getCacheKey latitude longitude)) eqn:Hkey.
    - apply String.eqb_eq, getCacheKey_parts in Hkey as [-> ->].
      now rewrite !String.eqb_refl.
    - apply String.eqb_neq in Hkey. cbn [negb].
      destruct (String.eqb (toFixed2 (PVWattsLive.lat prev)) (toFixed2 latitude)) eqn:H1;
        [| reflexivity].
      destruct (String.eqb (toFixed2 (PVWattsLive.lon prev)) (toFixed2 longitude)) eqn:H2;
        [| reflexivity].
      apply String.eqb_eq in H1, H2. destruct Hkey.
      now apply getCacheKey_parts. }
  split; [exact Hchanged |].
  unfold PVWattsLive.effect. fold latitude longitude. cbv zeta. rewrite Hchanged.
  unfold refs at 1. cbn [PVWattsLive.prevWinterPriorityRef].
  rewrite Bool.eqb_reflx. cbn [negb]. rewrite orb_false_r.
  now destruct (String.eqb (keyOf prev) (getCacheKey latitude longitude)).
Qed.

End CacheKeyFacts.

(** ** The haptic scheduler, further *)
Module SchedulerFacts.
Import Haptic HapticFacts.

(** How near an intensity is: the higher, the nearer. *)
Definition level (intensity : HapticIntensity) : nat :=
  match intensity with
  | none => 0
  | approaching => 1
  | close => 2
  | very_close => 3
  | locked => 4
  end.

Lemma getIntensity_compat lock lock' d d' :
  lock == lock' -> d == d' -> getIntensity lock d = getIntensity lock' d'.
Proof.
  intros Hl Hd. unfold getIntensity, JS.leb. cbv zeta.
  assert (H : forall t t', t == t' -> Qle_bool (Qabs d) t = Qle_bool (Qabs d') t')
    by (intros t t' Ht; now rewrite Hd, Ht).
  rewrite (H lock lock' Hl), (H _ _ (Qeq_refl THRESHOLD_VERY_CLOSE)),
    (H _ _ (Qeq_refl THRESHOLD_CLOSE)), (H _ _ (Qeq_refl THRESHOLD_APPROACHING)).
  reflexivity.
Qed.

Lemma getIntensity_mirror lock d : getIntensity lock (- d) = getIntensity lock d.
Proof. unfold getIntensity. now rewrite SolarTargetFacts.Qabs_opp_eq. Qed.

Lemma getIntensity_cases lock d :
  match getIntensity lock d with
  | locked => Qabs d <= lock
  | very_close => lock < Qabs d <= 2
  | close => lock < Qabs d /\ 2 < Qabs d <= 5
  | approaching => lock < Qabs d /\ 5 < Qabs d <= 10
  | none => lock < Qabs d /\ 10 < Qabs d
  end.
Proof.
  unfold getIntensity, THRESHOLD_VERY_CLOSE, THRESHOLD_CLOSE, THRESHOLD_APPROACHING.
  cbv zeta.
  js_cmp (JS.leb (Qabs d) lock); [exact Hcmp |].
  js_cmp (JS.leb (Qabs d) 2); [now split |].
  js_cmp (JS.leb (Qabs d) 5); [now repeat split |].
  js_cmp (JS.leb (Qabs d) 10); now repeat split.
Qed.

(** X27: the intensity depends on the magnitude of the deviation only,
    and a smaller magnitude never gives a weaker intensity, whatever the
    lock threshold; where both intensities pulse periodically, the nearer
    one does not pulse more slowly. *)
Theorem X27_nearer_is_never_weaker (lock d1 d2 : Q) :
  Qabs d1 <= Qabs d2 ->
  (level (getIntensity lock d2) <= level (getIntensity lock d1))%nat /\
  getIntensity lock (- d1) = getIntensity lock d1 /\
  match intervalMs (getIntensity lock d1), intervalMs (getIntensity lock d2) with
  | Some ms1, Some ms2 => (ms1 <= ms2)%Z
  | _, _ => True
  end.
Proof.
  intros Hle.
  pose proof (getIntensity_cases lock d1) as H1.
  pose proof (getIntensity_cases lock d2) as H2.
  split; [| split; [apply getIntensity_mirror |]].
  - destruct (getIntensity lock d1), (getIntensity lock d2); cbn [level];
      try lia; exfalso; lra.
  - destruct (getIntensity lock d1), (getIntensity lock d2); cbn [intervalMs];
      try exact I; try (vm_compute; discriminate); exfalso; lra.
Qed.

Lemma X27_nearer_is_never_weaker_witness :
  (level (getIntensity 0.5 (-7)) <= level (getIntensity 0.5 3))%nat.
Proof.
  refine (proj1 (X27_nearer_is_never_weaker 0.5 3 (-7) _)).
  vm_compute. discriminate.
Defined.

(** *** What holds of the refs between events *)

(** A running timer pulses for the intensity of the deviation the effect
    last ran on, at that intensity's interval, and its cleanup is
    registered; after an enabled run on a deviation beyond the lock
    threshold the last intensity is that deviation's. *)
Definition scheduled (s : State) : Prop :=
  (forall t, intervalRef s = Some t ->
     fires t = lastIntensityRef s /\
     intervalMs (fires t) = Some (every t) /\
     cleanup s = true /\
     exists o, deps s = Some o /\ enabled o = true /\
               getIntensity (lockThreshold o) (deviation o) = fires t) /\
  (forall o, deps s = Some o -> enabled o = true ->
     getIntensity (lockThreshold o) (deviation o) <> locked ->
     lastIntensityRef s = getIntensity (lockThreshold o) (deviation o)).

Lemma scheduled_initial : scheduled Haptic.initial.
Proof. split; [intros t [=] | intros o [=]]. Qed.

(** When the effect is about to run, no timer is left. *)
Lemma no_timer_before_effect s :
  scheduled s -> intervalRef (if cleanup s then clearTimer s else s) = None.
Proof.
  intros [Htimer _]. destruct (cleanup s) eqn:Hc; [reflexivity |].
  destruct (intervalRef s) as [t |] eqn:Ht; [| reflexivity].
  destruct (Htimer t eq_refl) as (_ & _ & Hc' & _). congruence.
Qed.

Lemma HapticIntensity_eqb_neq a b : HapticIntensity_eqb a b = false <-> a <> b.
Proof.
  rewrite <- HapticIntensity_eqb_eq. now destruct (HapticIntensity_eqb a b).
Qed.

Lemma intervalMs_nonzero intensity ms :
  intervalMs intensity = Some ms -> (ms =? 0)%Z = false /\ intensity <> locked.
Proof. destruct intensity; intros [= <-]; split; first [reflexivity | discriminate]. Qed.

Lemma scheduled_effect opts s1 :
  intervalRef s1 = None ->
  scheduled (setDeps opts (fst (effect opts s1))).
Proof.
  intros Hnone. unfold effect.
  destruct (enabled opts) eqn:Hen; cbn [negb].
  2:{ split; [intros t [=] | intros o [= <-] Ho; congruence]. }
  set (intensity := getIntensity (lockThreshold opts) (deviation opts)).
  destruct (HapticIntensity_eqb intensity locked) eqn:Hlocked.
  - apply HapticIntensity_eqb_eq in Hlocked.
    destruct (negb (isLockedRef s1)); cbn [andb].
    + split; [intros t [=] | intros o [= <-] _ Hne; now destruct Hne].
    + destruct (negb (HapticIntensity_eqb intensity (lastIntensityRef s1))).
      * rewrite Hlocked. cbn [intervalMs].
        split; [intros t [=] | intros o [= <-] _ Hne; now destruct Hne].
      * cbn [fst setDeps]. rewrite Hnone.
        split; [intros t [=] | intros o [= <-] _ Hne; now destruct Hne].
  - cbn [andb negb].
    destruct (HapticIntensity_eqb intensity (lastIntensityRef s1)) eqn:Hsame;
      cbn [negb].
    + apply HapticIntensity_eqb_eq in Hsame. cbn [fst setDeps]. rewrite Hnone.
      split; [intros t [=] | intros o [= <-] _ _; now symmetry].
    + destruct (intervalMs intensity) as [ms |] eqn:Hms.
      * destruct (intervalMs_nonzero _ _ Hms) as [-> _]. cbn [fst setDeps].
        split.
        -- intros t [= <-]. cbn [fires every]. repeat split; try assumption.
           now exists opts.
        -- intros o [= <-] _ _. reflexivity.
      * split; [intros t [=] | intros o [= <-] _ _; reflexivity].
Qed.

Lemma sameDeps_intensity p q :
  sameDeps p q = true ->
  enabled p = enabled q /\
  getIntensity (lockThreshold p) (deviation p)
  = getIntensity (lockThreshold q) (deviation q).
Proof.
  unfold sameDeps. rewrite !andb_true_iff, !Qeq_bool_iff.
  intros [[He Hd] Hl]. split; [now apply Bool.eqb_prop |].
  now apply getIntensity_compat.
Qed.

Lemma scheduled_render opts s : scheduled s -> scheduled (fst (render opts s)).
Proof.
  intros Hs. pose proof (no_timer_before_effect s Hs) as Hnone.
  pose proof (scheduled_effect opts _ Hnone) as Hnext.
  unfold render. destruct (deps s) as [p |].
  - destruct (sameDeps p opts); cbn [negb]; [exact Hs |].
    now destruct (effect opts _).
  - now destruct (effect opts _).
Qed.

Lemma scheduled_step s e : scheduled s -> scheduled (fst (step s e)).
Proof.
  intros Hs. destruct e as [opts |]; cbn [step].
  - now apply scheduled_render.
  - unfold tick. now destruct (intervalRef s).
Qed.

Lemma scheduled_run es : forall s, scheduled s -> scheduled (fst (run s es)).
Proof.
  induction es as [| e es IH]; intros s Hs; [exact Hs |].
  rewrite run_cons. cbn [fst]. apply IH. now apply scheduled_step.
Qed.

(** X28: after any sequence of renders and timer firings from the
    mount, a timer that is running pulses for the intensity of the
    deviation of the last render, which was enabled, at the interval of
    that intensity (100, 250 or 500 ms), and that intensity is the one in
    lastIntensityRef; so a firing timer never makes the confirmation. *)
Theorem X28_running_timer_matches_the_deviation (es : list event) :
  let s := fst (run Haptic.initial es) in
  match intervalRef s with
  | Some t =>
      fires t = lastIntensityRef s /\
      intervalMs (fires t) = Some (every t) /\
      In (every t) [100; 250; 500]%Z /\
      confirmations (snd (tick s)) = 0%nat /\
      exists o, deps s = Some o /\ enabled o = true /\
                getIntensity (lockThreshold o) (deviation o) = fires t
  | None => True
  end.
Proof.
  intros s. destruct (scheduled_run es _ scheduled_initial) as [Htimer _].
  fold s in Htimer. unfold tick.
  destruct (intervalRef s) as [t |]; [| exact I].
  destruct (Htimer t eq_refl) as (Hlast & Hms & _ & Hdeps).
  split; [exact Hlast |]. split; [exact Hms |].
  split; [| split; [| exact Hdeps]].
  - destruct (fires t); cbn in Hms; try discriminate; injection Hms as <-;
      cbn; tauto.
  - cbn [snd]. apply triggerHaptic_confirmations.
    intros Hl. rewrite Hl in Hms. discriminate.
Qed.

(** Events that keep the scheduler disabled: timer firings and renders
    with [enabled] false. *)
Definition isQuiet (e : event) : bool :=
  match e with
  | Render opts => negb (enabled opts)
  | Tick => true
  end.

Definition disabled (s : State) : Prop :=
  intervalRef s = None /\ exists o, deps s = Some o /\ enabled o = false.

Lemma disabled_step s e :
  disabled s -> isQuiet e = true ->
  disabled (fst (step s e)) /\ snd (step s e) = [].
Proof.
  intros (Hnone & o & Ho & Hoff) Hq. destruct e as [opts |]; cbn [step].
  - cbn in Hq. apply negb_true_iff in Hq.
    unfold render. rewrite Ho. destruct (sameDeps o opts); cbn [negb].
    + split; [| reflexivity]. split; [exact Hnone | now exists o].
    + unfold effect. rewrite Hq. cbn [negb fst snd setDeps].
      split; [| reflexivity]. split; [reflexivity | now exists opts].
  - unfold tick. rewrite Hnone. split; [| reflexivity].
    split; [exact Hnone | now exists o].
Qed.

Lemma disabled_run later : forall s,
  disabled s -> forallb isQuiet later = true ->
  disabled (fst (run s later)) /\ snd (run s later) = [].
Proof.
  induction later as [| e later IH]; intros s Hs Hq; [now split |].
  cbn [forallb] in Hq. apply andb_true_iff in Hq as [He Hq].
  destruct (disabled_step s e Hs He) as [Hs1 Hc1].
  rewrite run_cons. cbn [fst snd]. rewrite Hc1.
  now apply IH.
Qed.

Lemma disabling_render opts s :
  scheduled s -> enabled opts = false ->
  disabled (fst (render opts s)) /\ snd (render opts s) = [].
Proof.
  intros [Htimer _] Hoff. unfold render.
  assert (Hrun : disabled (setDeps opts (fst (effect opts (if cleanup s then clearTimer s else s))))
                 /\ snd (effect opts (if cleanup s then clearTimer s else s)) = []).
  { unfold effect. rewrite Hoff. cbn [negb fst snd setDeps].
    split; [| reflexivity]. split; [reflexivity | now exists opts]. }
  destruct (deps s) as [p |] eqn:Hp.
  - destruct (sameDeps p opts) eqn:Hsame; cbn [negb].
    + apply sameDeps_intensity in Hsame as [Hen _].
      split; [| reflexivity]. split; [| exists p; split; [exact Hp | congruence]].
      cbn [fst]. destruct (intervalRef s) as [t |] eqn:Ht; [| reflexivity].
      destruct (Htimer t eq_refl) as (_ & _ & _ & o & Ho & Hon & _).
      congruence.
    + now destruct (effect opts _).
  - now destruct (effect opts _).
Qed.

(** X29: a render with enabled false makes no haptic call and leaves
    no timer, whatever happened before it since the mount; and as long as
    only timer firings and further renders with enabled false follow, no
    haptic call is made. *)
Theorem X29_disabled_scheduler_is_silent
    (before later : list event) (opts : HapticFeedbackOptions) :
  enabled opts = false ->
  forallb isQuiet later = true ->
  snd (run Haptic.initial (before ++ Render opts :: later))
  = snd (run Haptic.initial before) /\
  intervalRef (fst (run Haptic.initial (before ++ Render opts :: later))) = None.
Proof.
  intros Hoff Hq. rewrite run_app, run_cons. cbn [fst snd step].
  pose proof (scheduled_run before _ scheduled_initial) as Hs.
  destruct (disabling_render opts _ Hs Hoff) as [Hd Hc].
  destruct (disabled_run later _ Hd Hq) as [[Hnone _] Hc'].
  rewrite Hc, Hc'. cbn [app]. rewrite app_nil_r. now split.
Qed.

Lemma X29_disabled_scheduler_is_silent_witness :
  snd (run Haptic.initial
         ([Sample 0.5 8; Tick]
          ++ Render {| enabled := false; deviation := 8; lockThreshold := 0.5 |}
          :: [Tick; Tick]))
  = snd (run Haptic.initial [Sample 0.5 8; Tick]).
Proof.
  refine (proj1 (X29_disabled_scheduler_is_silent [Sample 0.5 8; Tick] [Tick; Tick]
                   {| enabled := false; deviation := 8; lockThreshold := 0.5 |} _ _));
    reflexivity.
Defined.

(** X30: in any state reached from the mount, a sample whose intensity
    is one of the three periodic ones and differs from lastIntensityRef
    makes exactly one call, the pulse of that intensity, and starts the
    timer of that intensity at its interval. *)
Theorem X30_intensity_change_pulses_at_once
    (es : list event) (lock d : Q) (ms : Z) :
  let s := fst (run Haptic.initial es) in
  let intensity := getIntensity lock d in
  intervalMs intensity = Some ms ->
  intensity <> lastIntensityRef s ->
  snd (step s (Sample lock d)) = triggerHaptic intensity /\
  length (triggerHaptic intensity) = 1%nat /\
  intervalRef (fst (step s (Sample lock d)))
  = Some {| fires := intensity; every := ms |} /\
  lastIntensityRef (fst (step s (Sample lock d))) = intensity.
Proof.
  intros s intensity Hms Hne.
  pose proof (scheduled_run es _ scheduled_initial) as Hs. fold s in Hs.
  destruct (intervalMs_nonzero _ _ Hms) as [Hnz Hnl].
  set (opts := {| enabled := true; deviation := d; lockThreshold := lock |}).
  assert (Heffect : forall s1, lastIntensityRef s1 = lastIntensityRef s ->
            effect opts s1
            = ({| intervalRef := Some {| fires := intensity; every := ms |};
                  lastIntensityRef := intensity; isLockedRef := false;
                  cleanup := true; deps := deps s1 |},
               triggerHaptic intensity)).
  { intros s1 Hl. unfold effect. cbn [enabled negb deviation lockThreshold opts].
    fold intensity.
    rewrite (proj2 (HapticIntensity_eqb_neq _ _) Hnl). cbn [andb negb].
    rewrite Hl, (proj2 (HapticIntensity_eqb_neq _ _) Hne). cbn [negb].
    now rewrite Hms, Hnz. }
  assert (Hchanged : match deps s with
                     | Some prev => negb (sameDeps prev opts)
                     | None => true
                     end = true).
  { destruct (deps s) as [p |] eqn:Hp; [| reflexivity].
    destruct (sameDeps p opts) eqn:Hsame; [| reflexivity]. exfalso.
    apply sameDeps_intensity in Hsame as [Hen Hint].
    cbn [enabled deviation lockThreshold opts] in Hen, Hint. fold intensity in Hint.
    destruct Hs as [_ Hlast]. apply Hne. rewrite <- Hint. symmetry.
    apply (Hlast p Hp Hen). now rewrite Hint. }
  unfold Sample. fold opts. cbn [step]. unfold render. rewrite Hchanged.
  rewrite Heffect by now destruct (cleanup s).
  cbn [fst snd setDeps intervalRef lastIntensityRef].
  repeat split. destruct intensity; first [reflexivity | discriminate Hms].
Qed.

Lemma X30_intensity_change_pulses_at_once_witness :
  snd (step (fst (run Haptic.initial [Sample 0.5 8; Tick])) (Sample 0.5 3))
  = triggerHaptic (getIntensity 0.5 3).
Proof.
  refine (proj1 (X30_intensity_change_pulses_at_once [Sample 0.5 8; Tick] 0.5 3 250 _ _)).
  - reflexivity.
  - discriminate.
Defined.

End SchedulerFacts.
